(** * MazeStore: the maze exploration and navigation engine

    A shallow embedding of [src/app/shared/stores/maze.store.ts] together
    with the part of [maze.service.ts] it calls.  The remote maze API (the
    Gateway) is an oracle with a state of its own; every call the store
    makes is appended to a trace, so that "which calls were issued, and in
    which order" is a property of the final world. *)

From stdpp Require Import base option list gmap sets strings pretty sorting.
From Stdlib Require Import ZArith Lia Ascii.

Local Open Scope Z_scope.
Local Open Scope string_scope.

(** ** Data model (interfaces and enums) *)

(** Modelled from the spec: the enum [CELL_TYPE] of [../enums/_index] is not
    part of the sources at hand; the spec gives a cell's kind as one of
    path, wall, trap and stop (the store itself only names [trap] and
    [stop]). *)
Module CELL_TYPE.
Inductive t : Set := path | wall | trap | stop.

Definition eqb (a b : t) : bool :=
  match a, b with
  | path, path | wall, wall | trap, trap | stop, stop => true
  | _, _ => false
  end.

End CELL_TYPE.

(** [interface CellCoordinates { x: number; y: number }].  Coordinates are
    integers. *)
Record CellCoordinates : Set := mkCoord { x : Z; y : Z }.

(** [interface Cell { move: boolean; value: CELL_TYPE; x: number; y: number }] *)
Record Cell : Set := mkCell {
  move : bool;
  value : CELL_TYPE.t;
  cell_x : Z;
  cell_y : Z
}.

(** A [Cell] is passed where a [CellCoordinates] is expected (structural
    typing): only its [x] and [y] are read there. *)
Definition coords_of (c : Cell) : CellCoordinates :=
  {| x := cell_x c; y := cell_y c |}.

(** Modelled from the spec: the interface [ApiResponse] of
    [../interfaces/_index] is not part of the sources at hand; these are the
    fields [updateGameState] reads from it. *)
Record ApiResponse : Set := mkApiResponse {
  position_x : Z;
  position_y : Z;
  dead : bool;
  win : bool;
  url_move : string;
  url_discover : string
}.

(** The value a rejected Gateway call (network failure, illegal move, or the
    three-second [timeout]) is rejected with.  The store only ever renders
    it, with a template literal or with [JSON.stringify]. *)
Record JsError : Set := mkJsError {
  err_toString : string;
  err_toJSON : string
}.

(** The elements of [allPaths] and of the [_results] signal. *)
Module PathCandidate.
Record t : Set := make {
  path : list CellCoordinates;
  length : nat
}.
End PathCandidate.
Abbreviation PathCandidate := PathCandidate.t.

(** One round trip to the Gateway, with what came back. *)
Inductive GatewayCall : Type :=
| CallMove (url : string) (px py : Z) (res : ApiResponse + JsError)
| CallDiscover (url : string) (res : list Cell + JsError).

(** References to the mutable objects that are shared between frames: the
    arrays of path candidates and the [Set<string>] of the search. *)
Definition loc := nat.

(** The fields of the [MazeStore] class: the value of each signal, and the
    plain field [isExploringNow].  [_results] holds a reference to an array,
    because [explore] keeps sorting the array after it has stored it. *)
Record MazeStore : Type := mkStore {
  _position : CellCoordinates;
  _map : gmap string Cell;
  _isDead : bool;
  _isWin : bool;
  _moveUrl : string;
  _discoverUrl : string;
  _log : list string;
  _visited : gset string;
  _isExploring : bool;
  _isFinish : bool;
  _results : loc;
  isExploringNow : bool
}.

Definition set_map (m : gmap string Cell) (s : MazeStore) : MazeStore :=
  mkStore (_position s) m (_isDead s) (_isWin s) (_moveUrl s) (_discoverUrl s)
    (_log s) (_visited s) (_isExploring s) (_isFinish s) (_results s)
    (isExploringNow s).

Definition set_log (l : list string) (s : MazeStore) : MazeStore :=
  mkStore (_position s) (_map s) (_isDead s) (_isWin s) (_moveUrl s)
    (_discoverUrl s) l (_visited s) (_isExploring s) (_isFinish s)
    (_results s) (isExploringNow s).

Definition set_visited (v : gset string) (s : MazeStore) : MazeStore :=
  mkStore (_position s) (_map s) (_isDead s) (_isWin s) (_moveUrl s)
    (_discoverUrl s) (_log s) v (_isExploring s) (_isFinish s) (_results s)
    (isExploringNow s).

Definition set_isExploring (b : bool) (s : MazeStore) : MazeStore :=
  mkStore (_position s) (_map s) (_isDead s) (_isWin s) (_moveUrl s)
    (_discoverUrl s) (_log s) (_visited s) b (_isFinish s) (_results s)
    (isExploringNow s).

Definition set_isFinish (b : bool) (s : MazeStore) : MazeStore :=
  mkStore (_position s) (_map s) (_isDead s) (_isWin s) (_moveUrl s)
    (_discoverUrl s) (_log s) (_visited s) (_isExploring s) b (_results s)
    (isExploringNow s).

Definition set_results (r : loc) (s : MazeStore) : MazeStore :=
  mkStore (_position s) (_map s) (_isDead s) (_isWin s) (_moveUrl s)
    (_discoverUrl s) (_log s) (_visited s) (_isExploring s) (_isFinish s) r
    (isExploringNow s).

Definition set_isExploringNow (b : bool) (s : MazeStore) : MazeStore :=
  mkStore (_position s) (_map s) (_isDead s) (_isWin s) (_moveUrl s)
    (_discoverUrl s) (_log s) (_visited s) (_isExploring s) (_isFinish s)
    (_results s) b.

(** The five signals [updateGameState] sets from a response. *)
Definition set_game (data : ApiResponse) (s : MazeStore) : MazeStore :=
  mkStore {| x := position_x data; y := position_y data |} (_map s)
    (dead data) (win data) (url_move data) (url_discover data)
    (_log s) (_visited s) (_isExploring s) (_isFinish s) (_results s)
    (isExploringNow s).

(** ** The world: store, heap of shared objects, Gateway *)

Section Machine.

Context {G : Type}.

Record World : Type := mkWorld {
  store : MazeStore;
  arrays : list (list PathCandidate);
  sets : list (gset string);
  gw : G;
  calls : list GatewayCall
}.

Definition upd_store (f : MazeStore -> MazeStore) (w : World) : World :=
  mkWorld (f (store w)) (arrays w) (sets w) (gw w) (calls w).

Definition set_arrays (a : list (list PathCandidate)) (w : World) : World :=
  mkWorld (store w) a (sets w) (gw w) (calls w).

Definition set_sets (v : list (gset string)) (w : World) : World :=
  mkWorld (store w) (arrays w) v (gw w) (calls w).

Definition set_gw (g : G) (c : GatewayCall) (w : World) : World :=
  mkWorld (store w) (arrays w) (sets w) g (calls w ++ [c]).

(** Reading through a reference.  The store never holds a dangling one. *)
Definition array_at (l : loc) (w : World) : list PathCandidate :=
  default [] (arrays w !! l).

Definition set_at (l : loc) (w : World) : gset string :=
  default ∅ (sets w !! l).

(** What a reader of the [results] signal sees: [this._results()]. *)
Definition results (w : World) : list PathCandidate :=
  array_at (_results (store w)) w.

(** ** Methods as computations

    A method either returns or throws (an [async] method: its promise is
    fulfilled or rejected); [None] is the model's own bound on the depth of
    the search running out, which no method of the store can observe. *)
Inductive Outcome (A : Type) : Type :=
| Returned (a : A)
| Thrown (e : JsError).
Arguments Returned {A} a.
Arguments Thrown {A} e.

Definition M (A : Type) : Type := World -> option (Outcome A * World).

Definition ret {A} (a : A) : M A := fun w => Some (Returned a, w).

Definition throw {A} (e : JsError) : M A := fun w => Some (Thrown e, w).

Definition bind {A B} (c : M A) (k : A -> M B) : M B := fun w =>
  match c w with
  | Some (Returned a, w') => k a w'
  | Some (Thrown e, w') => Some (Thrown e, w')
  | None => None
  end.

(** [try { body } catch (err) { handler }] *)
Definition try_catch {A} (body : M A) (handler : JsError -> M A) : M A :=
  fun w =>
    match body w with
    | Some (Thrown e, w') => handler e w'
    | r => r
    end.

Definition get {A} (f : World -> A) : M A := fun w => Some (Returned (f w), w).

Definition modify (f : World -> World) : M unit :=
  fun w => Some (Returned tt, f w).

End Machine.

Arguments World G : clear implicits.
Arguments M G A : clear implicits.
Arguments Returned {A} a.
Arguments Thrown {A} e.

Declare Scope M_scope.
Delimit Scope M_scope with M.
Notation "x ← c ; k" := (bind c (fun x => k))
  (at level 20, c at level 100, k at level 200, only parsing) : M_scope.
Notation "c ;; k" := (bind c (fun _ => k))
  (at level 100, k at level 200, only parsing, right associativity) : M_scope.
Local Open Scope M_scope.

(** The Gateway, as [MazeService] reaches it: a state [G] on the server, and
    what the server answers to [move] and to [discover].  A call that fails,
    or that runs into the timeout, answers with [inr]. *)
Class Gateway (G : Type) : Type := {
  gw_move : G -> string -> Z -> Z -> (ApiResponse + JsError) * G;
  gw_discover : G -> string -> (list Cell + JsError) * G
}.

Section Engine.

Context `{Gateway G}.


(** ** MazeService: the two Gateway calls the store makes

    [firstValueFrom(this.mazeService.move(url, x, y).pipe(timeout(3000)))]:
    the call is recorded, and its promise is fulfilled with the response or
    rejected with the error. *)
Definition MazeService_move (url : string) (px py : Z) : M G ApiResponse :=
  fun w =>
    let '(res, g) := gw_move (gw w) url px py in
    let w' := set_gw g (CallMove url px py res) w in
    match res with
    | inl data => Some (Returned data, w')
    | inr err => Some (Thrown err, w')
    end.

Definition MazeService_discover (url : string) : M G (list Cell) :=
  fun w =>
    let '(res, g) := gw_discover (gw w) url in
    let w' := set_gw g (CallDiscover url res) w in
    match res with
    | inl cells => Some (Returned cells, w')
    | inr err => Some (Thrown err, w')
    end.

(** ** The store's state transitions *)

(** The template literal [`${pos.x},${pos.y}`]. *)
Definition coordKey (pos : CellCoordinates) : string :=
  pretty (x pos) +:+ "," +:+ pretty (y pos).

(** [new MazeStore()]: the field initialisers. *)
Definition initial_store : MazeStore :=
  mkStore (mkCoord 0 0) ∅ false false "" "" [] ∅ false false 0%nat false.

Definition initial_world (g : G) : World G :=
  mkWorld initial_store [[]] [] g [].

(** [reset]: [_results.set([])] stores a fresh, empty array. *)
Definition reset : M G unit :=
  modify (fun w =>
    mkWorld
      (mkStore (mkCoord 0 0) ∅ false false "" "" [] ∅ false false
         (List.length (arrays w)) false)
      (arrays w ++ [[]]) (sets w) (gw w) (calls w)).

Definition updateGameState (data : ApiResponse) (resetVisited : bool) : M G unit :=
  modify (upd_store (set_game data));;
  let coordKey := pretty (position_x data) +:+ "," +:+ pretty (position_y data) in
  if resetVisited then modify (upd_store (set_visited {[coordKey]}))
  else modify (upd_store (fun s => set_visited ({[coordKey]} ∪ _visited s) s)).

Definition updateFromStart (data : ApiResponse) : M G unit :=
  reset;;
  modify (upd_store (set_isExploring true));;
  updateGameState data true.

Definition updateFromMove (data : ApiResponse) : M G unit :=
  updateGameState data false.

Definition discoverCells (cells : list Cell) : M G unit :=
  modify (upd_store (fun s =>
    set_map
      (foldl (fun newMap cell =>
                <[pretty (cell_x cell) +:+ "," +:+ pretty (cell_y cell) := cell]> newMap)
             (_map s) cells)
      s)).

Definition addLog (entry : string) : M G unit :=
  modify (upd_store (fun s => set_log (_log s ++ [entry]) s)).

Definition finishExploration (message : string) : M G unit :=
  modify (upd_store (set_isExploring false));;
  addLog message.

Definition moveToCell (pos : CellCoordinates) : M G unit :=
  try_catch
    (url ← get (fun w => _moveUrl (store w));
     result ← MazeService_move url (x pos) (y pos);
     updateFromMove result)
    (fun err =>
       addLog ("Erreur lors du move vers (" +:+ pretty (x pos) +:+ ", "
               +:+ pretty (y pos) +:+ ") : " +:+ err_toString err);;
       throw err).

Definition moveTo (cell : Cell) : M G unit :=
  url ← get (fun w => _moveUrl (store w));
  result ← MazeService_move url (cell_x cell) (cell_y cell);
  updateFromMove result.

Definition discoverSurroundings : M G (list Cell) :=
  try_catch
    (url ← get (fun w => _discoverUrl (store w));
     cells ← MazeService_discover url;
     discoverCells cells;;
     ret cells)
    (fun err =>
       addLog ("Erreur lors de la découverte : " +:+ err_toString err);;
       throw err).

(** ** The depth-first search of [explore] *)

(** [path[path.length - 1]].  No caller passes an empty path: [explore]
    starts from [[start]] and [buildNextPath] only appends. *)
Definition getCurrentCellFromPath (path : list CellCoordinates) : CellCoordinates :=
  default (mkCoord 0 0) (last path).

Definition isVisited (key : string) (visited : loc) : M G bool :=
  get (fun w => bool_decide (key ∈ set_at visited w)).

(** [visited.add(key)]: the set every frame shares is changed in place. *)
Definition markVisited (key : string) (visited : loc) : M G unit :=
  modify (fun w => set_sets (<[visited := {[key]} ∪ set_at visited w]> (sets w)) w).

Definition tryMoveToCell (cell : CellCoordinates) : M G bool :=
  try_catch
    (moveToCell cell;; ret true)
    (fun err =>
       addLog ("Erreur déplacement vers (" +:+ pretty (x cell) +:+ ", "
               +:+ pretty (y cell) +:+ ") : " +:+ err_toString err);;
       ret false).

Definition logExplorationStep (cell : CellCoordinates) (step : nat) : M G unit :=
  addLog ("Exploration (" +:+ pretty step +:+ ") : (" +:+ pretty (x cell)
          +:+ ", " +:+ pretty (y cell) +:+ ")").

Definition getDiscoverableNeighbors : M G (option (list Cell)) :=
  try_catch
    (cells ← discoverSurroundings; ret (Some cells))
    (fun _ => ret None).

Definition canExploreCell (cell : Cell) (key : string) (visited : loc) : M G bool :=
  get (fun w =>
         negb (bool_decide (key ∈ set_at visited w))
         && move cell
         && negb (CELL_TYPE.eqb (value cell) CELL_TYPE.trap)).

Definition buildNextPath (path : list CellCoordinates) (cell : Cell)
  : list CellCoordinates :=
  path ++ [{| x := cell_x cell; y := cell_y cell |}].

Definition isGoalCell (cell : Cell) : bool :=
  CELL_TYPE.eqb (value cell) CELL_TYPE.stop.

(** [allPaths.push({ path, length: path.length })], in place. *)
Definition recordExitPath (path : list CellCoordinates) (allPaths : loc) : M G unit :=
  modify (fun w =>
    set_arrays
      (<[allPaths := (array_at allPaths w
                      ++ [PathCandidate.make path (List.length path)])%list]>
         (arrays w))
      w);;
  addLog ("Sortie trouvée en " +:+ pretty (List.length path) +:+ " étapes.").

Definition returnToPrevious (cell : CellCoordinates) : M G unit :=
  try_catch
    (moveToCell cell;;
     addLog ("Retour vers (" +:+ pretty (x cell) +:+ ", " +:+ pretty (y cell)
             +:+ ") après impasse."))
    (fun err =>
       addLog ("Erreur retour arrière vers (" +:+ pretty (x cell) +:+ ", "
               +:+ pretty (y cell) +:+ ") : " +:+ err_toString err)).

(** The three methods [exploreFromCell], [exploreNeighbors] and
    [handleCellExploration] call each other; the two inner ones take the
    recursive call to [exploreFromCell] as [recur]. *)
Definition handleCellExploration
    (recur : list CellCoordinates -> loc -> loc -> M G unit)
    (current : CellCoordinates) (cell : Cell) (path : list CellCoordinates)
    (visited allPaths : loc) : M G unit :=
  let nextKey := coordKey (coords_of cell) in
  ok ← canExploreCell cell nextKey visited;
  if negb ok then ret tt
  else
    let nextPath := buildNextPath path cell in
    if isGoalCell cell then recordExitPath nextPath allPaths
    else
      recur nextPath visited allPaths;;
      returnToPrevious current.

Fixpoint exploreNeighbors
    (recur : list CellCoordinates -> loc -> loc -> M G unit)
    (current : CellCoordinates) (neighbors : list Cell)
    (path : list CellCoordinates) (visited allPaths : loc) : M G unit :=
  match neighbors with
  | [] => ret tt
  | cell :: rest =>
      handleCellExploration recur current cell path visited allPaths;;
      exploreNeighbors recur current rest path visited allPaths
  end.

(** [fuel] bounds the depth of the recursion, which the source leaves to the
    size of the maze. *)
Fixpoint exploreFromCell (fuel : nat) (path : list CellCoordinates)
    (visited allPaths : loc) : M G unit :=
  match fuel with
  | O => fun _ => None
  | S fuel' =>
      let current := getCurrentCellFromPath path in
      let key := coordKey current in
      seen ← isVisited key visited;
      if seen then ret tt
      else
        markVisited key visited;;
        moved ← tryMoveToCell current;
        if negb moved then ret tt
        else
          logExplorationStep current (List.length path);;
          neighbors ← getDiscoverableNeighbors;
          match neighbors with
          | None => ret tt
          | Some neighbors =>
              exploreNeighbors (exploreFromCell fuel') current neighbors path
                visited allPaths
          end
  end.

(** [new Set<string>()] and [[]]: two fresh objects; the method returns the
    reference to [allPaths]. *)
Definition startExploration (fuel : nat) (start : CellCoordinates) : M G loc :=
  visited ← get (fun w => List.length (sets w));
  modify (fun w => set_sets (sets w ++ [∅]) w);;
  allPaths ← get (fun w => List.length (arrays w));
  modify (fun w => set_arrays (arrays w ++ [[]]) w);;
  exploreFromCell fuel [start] visited allPaths;;
  ret allPaths.

(** [Array.prototype.sort] with the comparator [(a, b) => a.length - b.length]:
    a stable sort, ascending by [length]. *)
Fixpoint sort_insert (a : PathCandidate) (l : list PathCandidate)
  : list PathCandidate :=
  match l with
  | [] => [a]
  | b :: l' =>
      if (PathCandidate.length a <=? PathCandidate.length b)%nat
      then a :: b :: l'
      else b :: sort_insert a l'
  end.

Fixpoint Array_sort (l : list PathCandidate) : list PathCandidate :=
  match l with
  | [] => []
  | a :: l' => sort_insert a (Array_sort l')
  end.

(** What [undefined.length] throws. *)
Definition TypeError : JsError :=
  mkJsError "TypeError: Cannot read properties of undefined (reading 'length')" "{}".

Fixpoint logPaths_forEach (l : list PathCandidate) (i : nat) : M G unit :=
  match l with
  | [] => ret tt
  | res :: l' =>
      addLog ("Chemin " +:+ pretty (i + 1)%nat +:+ " : "
              +:+ pretty (PathCandidate.length res) +:+ " cases.");;
      logPaths_forEach l' (S i)
  end.

(** The array is sorted in place: whoever holds the reference sees it
    sorted from then on. *)
Definition logPaths (allPaths : loc) : M G unit :=
  modify (fun w =>
    set_arrays (<[allPaths := Array_sort (array_at allPaths w)]> (arrays w)) w);;
  addLog "Résumé des chemins vers la sortie";;
  sorted ← get (array_at allPaths);
  logPaths_forEach sorted 0;;
  match head sorted with
  | None => throw TypeError
  | Some shortest =>
      addLog ("Chemin le plus court : " +:+ pretty (PathCandidate.length shortest)
              +:+ " cases.")
  end.

Definition explore (fuel : nat) : M G unit :=
  start ← get (fun w => _position (store w));
  allPaths ← startExploration fuel start;
  found ← get (array_at allPaths);
  if bool_decide (List.length found = 0%nat)
  then addLog "Aucun chemin vers la sortie trouvé."
  else
    modify (upd_store (set_results allPaths));;
    logPaths allPaths.

(** ** Following the shortest path *)

(** The loop [for (const step of steps)]; [false] when the [catch] left the
    method with [return]. *)
Fixpoint followSteps (steps : list CellCoordinates) : M G bool :=
  match steps with
  | [] => ret true
  | step :: rest =>
      continue ← try_catch
        (moveToCell step;;
         addLog ("Déplacement vers (" +:+ pretty (x step) +:+ ", "
                 +:+ pretty (y step) +:+ ")");;
         ret true)
        (fun err =>
           addLog ("Échec déplacement vers (" +:+ pretty (x step) +:+ ", "
                   +:+ pretty (y step) +:+ ") : " +:+ err_toString err);;
           ret false);
      if continue then followSteps rest else ret false
  end.

Definition followShortestPath : M G unit :=
  results ← get results;
  match results with
  | [] =>
      addLog "Aucun chemin disponible vers la sortie.";;
      modify (upd_store (set_isFinish true))
  | shortest :: _ =>
      addLog ("Début du trajet vers la sortie ("
              +:+ pretty (PathCandidate.length shortest) +:+ " étapes).");;
      let steps := drop 1 (PathCandidate.path shortest) in
      completed ← followSteps steps;
      if completed then
        finishExploration "Le joueur est arrivé à la sortie !";;
        modify (upd_store (set_isFinish true))
      else ret tt
  end.

(** ** The automatic stepper *)

Definition chooseNextMove (cells : list Cell) : M G (option Cell) :=
  get (fun w =>
    List.find
      (fun cell =>
         move cell
         && negb (CELL_TYPE.eqb (value cell) CELL_TYPE.trap)
         && negb (bool_decide
                    (pretty (cell_x cell) +:+ "," +:+ pretty (cell_y cell)
                     ∈ _visited (store w))))
      cells).

Definition safeMoveTo (cell : Cell) : M G unit :=
  try_catch
    (moveTo cell)
    (fun err =>
       addLog ("Erreur lors du déplacement vers (" +:+ pretty (cell_x cell)
               +:+ ", " +:+ pretty (cell_y cell) +:+ ") : "
               +:+ err_toString err)).

Definition exploreNext : M G unit :=
  stopped ← get (fun w =>
    _isWin (store w) || _isDead (store w) || isExploringNow (store w));
  if stopped then ret tt
  else
    try_catch
      (cells ← discoverSurroundings;
       next ← chooseNextMove cells;
       match next with
       | None => finishExploration "Exploration terminée : aucun chemin sûr trouvé."
       | Some next =>
           safeMoveTo next;;
           addLog ("Déplacement vers (" +:+ pretty (cell_x next) +:+ ", "
                   +:+ pretty (cell_y next) +:+ ")")
       end)
      (fun err =>
         finishExploration ("Erreur pendant l'exploration : " +:+ err_toJSON err)).

(** [promise.finally(onFinally)] on a promise nobody awaits: the callback
    runs however the promise settles, and nothing is thrown to the caller. *)
Definition Promise_finally (c : M G unit) (onFinally : M G unit) : M G unit :=
  try_catch c (fun _ => ret tt);;
  onFinally.

(** The body of the [effect] registered by the constructor: one run of it,
    as triggered by a change of a signal it reads. *)
Definition effect_run : M G unit :=
  armed ← get (fun w =>
    negb (String.eqb (_discoverUrl (store w)) "")
    && _isExploring (store w)
    && negb (isExploringNow (store w)));
  if armed then
    modify (upd_store (set_isExploringNow true));;
    Promise_finally exploreNext (modify (upd_store (set_isExploringNow false)))
  else ret tt.

End Engine.

(** ** The component that drives the store *)

(** [(Cell | null)[][]]: rows of slots. *)
Abbreviation Grid := (list (list (option Cell))).

Section App.

Context `{Gateway G}.

(** [App.startGame], from the point where [mazeService.startGame] has
    answered with [data]: the three calls into the store, inside the
    [try]; the [catch] only writes to the console. *)
Definition App_startGame (data : ApiResponse) (fuel : nat) : M G unit :=
  try_catch
    (updateFromStart data;;
     explore fuel;;
     followShortestPath)
    (fun _ => ret tt).

(** [Math.min(x0, ...xs)] and [Math.max(x0, ...xs)], on integers. *)
Definition Math_min (x0 : Z) (xs : list Z) : Z := foldr Z.min x0 xs.
Definition Math_max (x0 : Z) (xs : list Z) : Z := foldr Z.max x0 xs.

(** [grid[row][col] = cell].  The source does not guard the indices: a row
    that does not exist throws, and a column outside the row grows the row
    or sets a property on it; both are [None] here. *)
Definition Grid_set (grid : Grid) (row col : Z) (cell : Cell) : option Grid :=
  if bool_decide (0 <= row < Z.of_nat (List.length grid)) then
    match grid !! Z.to_nat row with
    | Some r =>
        if bool_decide (0 <= col < Z.of_nat (List.length r)) then
          Some (<[Z.to_nat row := <[Z.to_nat col := Some cell]> r]> grid)
        else None
    | None => None
    end
  else None.

(** [for (const cell of cells) { ... grid[row][col] = cell; }] *)
Fixpoint placeCells (minX minY : Z) (cells : list Cell) (grid : Grid)
  : option Grid :=
  match cells with
  | [] => Some grid
  | cell :: rest =>
      let row := cell_y cell - minY in
      let col := cell_x cell - minX in
      match Grid_set grid row col cell with
      | Some grid' => placeCells minX minY rest grid'
      | None => None
      end
  end.

(** [App.buildGrid] *)
Definition buildGrid (cells : list Cell) : option Grid :=
  match cells with
  | [] => Some []
  | c0 :: rest =>
      let xs := cell_x <$> rest in
      let ys := cell_y <$> rest in
      let minX := Math_min (cell_x c0) xs in
      let maxX := Math_max (cell_x c0) xs in
      let minY := Math_min (cell_y c0) ys in
      let maxY := Math_max (cell_y c0) ys in
      let width := maxX - minX + 1 in
      let height := maxY - minY + 1 in
      placeCells minX minY cells
        (replicate (Z.to_nat height) (replicate (Z.to_nat width) None))
  end.

(** [App.trackByRow] and [App.trackByCell] *)
Definition trackByRow (rowIndex : nat) : string :=
  "row-" +:+ pretty (Z.of_nat rowIndex).

Definition trackByCell (cell : option Cell) (colIndex : nat) : string :=
  match cell with
  | None => "empty-" +:+ pretty (Z.of_nat colIndex)
  | Some c => pretty (cell_x c) +:+ "," +:+ pretty (cell_y c)
  end.

End App.

(** ** A Gateway to run the store against: a maze on a grid

    The server holds the maze, a list of cells, and the position of the
    player.  [discover] answers with the cells of the maze next to the
    player (east, west, south, north, in this order); [move] accepts the
    cell the player stands on and the cells next to it that can be walked
    on, and rejects everything else.  With [hiccup = Some n] the server
    answers [n] calls, lets the next one run into the timeout, and answers
    again from then on. *)
Module GridMaze.

Record state : Type := mkState {
  maze : list Cell;
  player : CellCoordinates;
  hiccup : option nat
}.

Definition cell_at (maze : list Cell) (px py : Z) : option Cell :=
  List.find (fun c => (cell_x c =? px)%Z && (cell_y c =? py)%Z) maze.

Definition IllegalMove : JsError :=
  mkJsError "[object Object]" "{}".

Definition Timeout : JsError :=
  mkJsError "TimeoutError: Timeout has occurred" "{}".

(** Whether the call at hand is answered, and the state it is answered
    from. *)
Definition tick (g : state) : bool * state :=
  match hiccup g with
  | None => (true, g)
  | Some O => (false, mkState (maze g) (player g) None)
  | Some (S n) => (true, mkState (maze g) (player g) (Some n))
  end.

Definition answer_move (g : state) (url : string) (px py : Z)
  : (ApiResponse + JsError) * state :=
  let (answered, g) := tick g in
  if negb answered then (inr Timeout, g)
  else
    match cell_at (maze g) px py with
    | Some c =>
        if move c
           && (Z.abs (px - x (player g)) + Z.abs (py - y (player g)) <=? 1)%Z
        then (inl (mkApiResponse px py
                     (CELL_TYPE.eqb (value c) CELL_TYPE.trap)
                     (CELL_TYPE.eqb (value c) CELL_TYPE.stop)
                     "/move" "/discover"),
              mkState (maze g) (mkCoord px py) (hiccup g))
        else (inr IllegalMove, g)
    | None => (inr IllegalMove, g)
    end.

Definition answer_discover (g : state) (url : string)
  : (list Cell + JsError) * state :=
  let (answered, g) := tick g in
  if negb answered then (inr Timeout, g)
  else
    (inl (omap (fun d => cell_at (maze g) (x (player g) + fst d)
                           (y (player g) + snd d))
            [(1, 0); (-1, 0); (0, 1); (0, -1)]),
     g).

#[global] Instance gateway : Gateway state :=
  {| gw_move := answer_move; gw_discover := answer_discover |}.

(** The kind of the cell at a coordinate, when the maze has one there. *)
Definition kind_at (maze : list Cell) (q : CellCoordinates) : option CELL_TYPE.t :=
  value <$> cell_at maze (x q) (y q).

(** What [startGame] answers: the player at the entry of the maze, [(0, 0)]. *)
Definition is_kind (k : CELL_TYPE.t) (maze : list Cell) (q : CellCoordinates)
  : bool :=
  match kind_at maze q with
  | Some k' => CELL_TYPE.eqb k' k
  | None => false
  end.

Definition start_response (maze : list Cell) : ApiResponse :=
  mkApiResponse 0 0
    (is_kind CELL_TYPE.trap maze (mkCoord 0 0))
    (is_kind CELL_TYPE.stop maze (mkCoord 0 0))
    "/move" "/discover".

(** The keys of the cells of a maze. *)
Definition maze_keys (maze : list Cell) : gset string :=
  list_to_set (map (fun c => coordKey (coords_of c)) maze).

Definition run {A} (c : M state A) (w : World state) : World state :=
  match c w with
  | Some (_, w') => w'
  | None => w
  end.

(** The world once [App.startGame] has called [updateFromStart]. *)
Definition started (maze : list Cell) (hiccup : option nat)
  : World state :=
  run (updateFromStart (start_response maze))
      (initial_world (mkState maze (mkCoord 0 0) hiccup)).

Definition path_cell (px py : Z) : Cell := mkCell true CELL_TYPE.path px py.
Definition wall_cell (px py : Z) : Cell := mkCell false CELL_TYPE.wall px py.
Definition trap_cell (px py : Z) : Cell := mkCell true CELL_TYPE.trap px py.
Definition stop_cell (px py : Z) : Cell := mkCell true CELL_TYPE.stop px py.

(** A corridor of three cells, the exit at its end. *)
Definition corridor : list Cell :=
  [path_cell 0 0; path_cell 1 0; stop_cell 2 0].

(** A block of four cells with the exit below its lower left corner: the
    exit is two steps from the entry, or four steps the other way round. *)
Definition block : list Cell :=
  [path_cell 0 0; path_cell 1 0; path_cell 0 1; path_cell 1 1; stop_cell 0 2].

(** A maze whose entry is marked as an exit, with a second exit next to it,
    and a maze whose entry is a trap. *)
Definition doorway : list Cell := [stop_cell 0 0; stop_cell 1 0].

Definition trapped_entry : list Cell :=
  [trap_cell 0 0; path_cell 1 0; stop_cell 2 0].

(** Two exits, a trap and a wall around the entry. *)
Definition crossing : list Cell :=
  [path_cell 0 0; path_cell 1 0; stop_cell 2 0; path_cell 3 0;
   trap_cell 0 1; wall_cell 0 (-1); path_cell (-1) 0; path_cell (-1) 1;
   stop_cell (-1) 2; path_cell 1 1; path_cell 2 1].

(** A walk through the maze from the entry to an exit: it starts at
    [(0, 0)], every step goes to a cell next to the last one that can be
    walked on and is no trap, no coordinate comes twice, and the last cell
    is of kind [stop]. *)
Definition safe_step (maze : list Cell) (p q : CellCoordinates) : bool :=
  match cell_at maze (x q) (y q) with
  | Some c =>
      move c && negb (CELL_TYPE.eqb (value c) CELL_TYPE.trap)
      && (Z.abs (x q - x p) + Z.abs (y q - y p) =? 1)%Z
  | None => false
  end.

Fixpoint safe_steps (maze : list Cell) (p : CellCoordinates)
    (rest : list CellCoordinates) : bool :=
  match rest with
  | [] =>
      match cell_at maze (x p) (y p) with
      | Some c => CELL_TYPE.eqb (value c) CELL_TYPE.stop
      | None => false
      end
  | q :: rest' => safe_step maze p q && safe_steps maze q rest'
  end.

Definition coord_eqb (p q : CellCoordinates) : bool :=
  (x p =? x q)%Z && (y p =? y q)%Z.

Fixpoint no_revisit (p : list CellCoordinates) : bool :=
  match p with
  | [] => true
  | q :: rest => negb (existsb (coord_eqb q) rest) && no_revisit rest
  end.

Definition safe_walk (maze : list Cell) (p : list CellCoordinates) : bool :=
  match p with
  | [] => false
  | first :: rest =>
      coord_eqb first (mkCoord 0 0) && safe_steps maze first rest
      && no_revisit p
  end.

End GridMaze.

(** Runs of the store in these mazes. *)
Module Scenarios.

Import GridMaze.

Definition at_ (px py : Z) : CellCoordinates := mkCoord px py.

Definition corridor_explored : World state :=
  run (explore 2) (started corridor None).

Definition block_explored : World state :=
  run (explore 4) (started block None).

Definition crossing_explored : World state :=
  run (explore 4) (started crossing None).

(** The sixth call of the search, the [discover] at [(1, 1)], times out. *)
Definition crossing_explored_with_timeout : World state :=
  run (explore 4) (started crossing (Some 5%nat)).

(** The search needs five calls; the second move of the navigator is the
    seventh call, and times out. *)
Definition corridor_explored_before_timeout : World state :=
  run (explore 2) (started corridor (Some 6%nat)).

(** The very first call times out. *)
Definition corridor_unreachable : World state :=
  started corridor (Some 0%nat).

Definition moved (px py : Z) (won : bool) : ApiResponse :=
  mkApiResponse px py false won "/move" "/discover".

Definition crossing_east : PathCandidate :=
  PathCandidate.make [at_ 0 0; at_ 1 0; at_ 2 0] 3.

Definition crossing_round : PathCandidate :=
  PathCandidate.make [at_ 0 0; at_ 1 0; at_ 1 1; at_ 2 1; at_ 2 0] 5.

Definition crossing_west : PathCandidate :=
  PathCandidate.make [at_ 0 0; at_ (-1) 0; at_ (-1) 1; at_ (-1) 2] 4.

Definition doorway_explored : World state :=
  run (explore 1) (started doorway None).

Definition trapped_entry_explored : World state :=
  run (explore 2) (started trapped_entry None).

Definition corridor_path : PathCandidate :=
  PathCandidate.make [at_ 0 0; at_ 1 0; at_ 2 0] 3.

(** A whole session in the corridor, from a fresh store. *)
Definition corridor_session : World state :=
  run (App_startGame (start_response corridor) 2)
      (initial_world (mkState corridor (mkCoord 0 0) None)).

(** The first call is answered, the second one times out. *)
Definition corridor_second_call_fails : World state :=
  started corridor (Some 1%nat).

(** The grid of the corridor. *)
Definition corridor_grid : Grid :=
  [[Some (path_cell 0 0); Some (path_cell 1 0); Some (stop_cell 2 0)]].

(** The shorter way to the exit of [block]. *)
Definition block_short_walk : list CellCoordinates :=
  [at_ 0 0; at_ 0 1; at_ 0 2].

Definition block_long_walk : list CellCoordinates :=
  [at_ 0 0; at_ 1 0; at_ 1 1; at_ 0 1; at_ 0 2].

End Scenarios.

(** * Vocabulary of the properties *)

Section Vocabulary.

Context `{Gateway G}.

Definition cellKey (cell : Cell) : string :=
  pretty (cell_x cell) +:+ "," +:+ pretty (cell_y cell).

Definition merge_cells (m : gmap string Cell) (cells : list Cell)
  : gmap string Cell :=
  foldl (fun newMap cell => <[cellKey cell := cell]> newMap) m cells.

(** [recordDiscovery] applied to each batch of a sequence, in order. *)
Fixpoint discoverAll (batches : list (list Cell)) : M G unit :=
  match batches with
  | [] => ret tt
  | cells :: rest => discoverCells cells;; discoverAll rest
  end.

(** What a step that talks to the Gateway and writes signals may change:
    calls and log entries are only appended, the discovered map keeps its
    keys, and the shared arrays and sets, the reference held by [_results]
    and the flag [_isFinish] are left alone. *)
Record io_le (w w' : World G) : Prop := mk_io_le {
  io_calls : calls w `prefix_of` calls w';
  io_log : _log (store w) `prefix_of` _log (store w');
  io_arrays : arrays w' = arrays w;
  io_sets : sets w' = sets w;
  io_results : _results (store w') = _results (store w);
  io_finish : _isFinish (store w') = _isFinish (store w);
  io_map : forall k, is_Some (_map (store w) !! k) ->
                     is_Some (_map (store w') !! k)
}.

(** The worlds the Gateway calls of the store lead to. *)
Definition logged (entry : string) (w : World G) : World G :=
  upd_store (fun s => set_log (_log s ++ [entry]) s) w.

Definition after_move (w : World G) (pos : CellCoordinates)
    (data : ApiResponse) (g : G) : World G :=
  upd_store
    (fun s => set_visited
                ({[pretty (position_x data) +:+ "," +:+ pretty (position_y data)]}
                 ∪ _visited s) s)
    (upd_store (set_game data)
       (set_gw g (CallMove (_moveUrl (store w)) (x pos) (y pos) (inl data)) w)).

Definition after_move_error (w : World G) (pos : CellCoordinates)
    (err : JsError) (g : G) : World G :=
  logged ("Erreur lors du move vers (" +:+ pretty (x pos) +:+ ", "
          +:+ pretty (y pos) +:+ ") : " +:+ err_toString err)
    (set_gw g (CallMove (_moveUrl (store w)) (x pos) (y pos) (inr err)) w).

Definition after_discover (w : World G) (cells : list Cell) (g : G) : World G :=
  upd_store (fun s => set_map (merge_cells (_map s) cells) s)
    (set_gw g (CallDiscover (_discoverUrl (store w)) (inl cells)) w).

Definition after_discover_error (w : World G) (err : JsError) (g : G) : World G :=
  logged ("Erreur lors de la découverte : " +:+ err_toString err)
    (set_gw g (CallDiscover (_discoverUrl (store w)) (inr err)) w).

(** What a frame of the search may change, [visited] and [allPaths] being
    the two objects it shares with the other frames: on top of what [io_le]
    allows, keys are added to [visited] and candidates are appended to
    [allPaths]; no object is created and no other array is touched. *)
Record dfs_le (visited allPaths : loc) (w w' : World G) : Prop := mk_dfs_le {
  dfs_calls : calls w `prefix_of` calls w';
  dfs_log : _log (store w) `prefix_of` _log (store w');
  dfs_arrays_length : List.length (arrays w') = List.length (arrays w);
  dfs_sets_length : List.length (sets w') = List.length (sets w);
  dfs_allPaths : array_at allPaths w `prefix_of` array_at allPaths w';
  dfs_arrays_other : forall l, l <> allPaths -> arrays w' !! l = arrays w !! l;
  dfs_visited : set_at visited w ⊆ set_at visited w';
  dfs_results : _results (store w') = _results (store w);
  dfs_finish : _isFinish (store w') = _isFinish (store w);
  dfs_map : forall k, is_Some (_map (store w) !! k) ->
                      is_Some (_map (store w') !! k)
}.

(** A frame of the search ends by returning, never by throwing, and changes
    the world as [dfs_le] allows. *)
Definition frame_ok (visited allPaths : loc) (c : M G unit) : Prop :=
  forall w r w', c w = Some (r, w') ->
    r = Returned tt /\ dfs_le visited allPaths w w'.

(** The world after [allPaths.push({ path, length: path.length })]. *)
Definition pushed (p : list CellCoordinates) (a : loc) (w : World G) : World G :=
  set_arrays
    (<[a := (array_at a w ++ [PathCandidate.make p (List.length p)])%list]>
       (arrays w)) w.

(** [c] is one of the cells a successful [discover] among [cs] reported. *)
Definition discovered (cs : list GatewayCall) (c : Cell) : Prop :=
  exists url cells, CallDiscover url (inl cells) ∈ cs /\ c ∈ cells.

(** A cell the search may walk through: reported reachable, and neither a
    trap nor an exit. *)
Definition corridor_cell (cs : list GatewayCall) (c : Cell) : Prop :=
  discovered cs c /\ move c = true
  /\ value c <> CELL_TYPE.trap /\ value c <> CELL_TYPE.stop.

(** A cell the search records a path to: reported reachable and of kind
    [stop]. *)
Definition exit_cell (cs : list GatewayCall) (c : Cell) : Prop :=
  discovered cs c /\ move c = true /\ value c = CELL_TYPE.stop.

(** The path of a frame: the start, then cells walked through. *)
Definition frame_path (cs : list GatewayCall) (start : CellCoordinates)
    (p : list CellCoordinates) : Prop :=
  exists inner, p = start :: map coords_of inner
    /\ Forall (corridor_cell cs) inner.

(** A recorded candidate: the start, cells walked through, and an exit as
    the last cell; no coordinate (indeed no coordinate key) twice; the field
    [length] is the number of cells. *)
Definition exit_path (cs : list GatewayCall) (start : CellCoordinates)
    (r : PathCandidate) : Prop :=
  exists inner e,
    PathCandidate.path r = start :: (map coords_of inner ++ [coords_of e])%list
    /\ Forall (corridor_cell cs) inner
    /\ exit_cell cs e
    /\ NoDup (coordKey <$> PathCandidate.path r)
    /\ PathCandidate.length r = List.length (PathCandidate.path r).

(** The references of a frame point into the heap. *)
Definition valid_refs (v a : loc) (w : World G) : Prop :=
  (v < List.length (sets w))%nat /\ (a < List.length (arrays w))%nat.

(** The world [startExploration] hands to the first frame: a fresh set and
    a fresh array have been created. *)
Definition search_started (w : World G) : World G :=
  set_arrays (arrays w ++ [[]]) (set_sets (sets w ++ [∅]) w).

(** The world after [logPaths]: the array sorted in place, and the summary
    in the log. *)
Definition sorted_in_place (a : loc) (w : World G) : World G :=
  set_arrays (<[a := Array_sort (array_at a w)]> (arrays w)) w.

Definition logged_all (entries : list string) (w : World G) : World G :=
  upd_store (fun s => set_log (_log s ++ entries) s) w.

Fixpoint summary (l : list PathCandidate) (i : nat) : list string :=
  match l with
  | [] => []
  | res :: l' =>
      ("Chemin " +:+ pretty (i + 1)%nat +:+ " : "
       +:+ pretty (PathCandidate.length res) +:+ " cases.")
      :: summary l' (S i)
  end.

(** Ascending by [length], as the comparator of [logPaths] orders. *)
Definition ascending (r1 r2 : PathCandidate) : Prop :=
  (PathCandidate.length r1 <= PathCandidate.length r2)%nat.

(** What the search of [explore] leaves in [allPaths], before [explore]
    looks at it. *)
Definition foundPaths (fuel : nat) (w : World G) : option (list PathCandidate) :=
  match startExploration fuel (_position (store w)) w with
  | Some (Returned allPaths, w1) => Some (array_at allPaths w1)
  | _ => None
  end.

(** The two entries a rejected move leaves in the log of the search: the
    one of [moveToCell] and the one of [tryMoveToCell]. *)
Definition moveErrorLogs (pos : CellCoordinates) (err : JsError) : list string :=
  ["Erreur lors du move vers (" +:+ pretty (x pos) +:+ ", "
   +:+ pretty (y pos) +:+ ") : " +:+ err_toString err;
   "Erreur déplacement vers (" +:+ pretty (x pos) +:+ ", "
   +:+ pretty (y pos) +:+ ") : " +:+ err_toString err].

(** A string without a comma, as the decimal rendering of an integer is. *)
Fixpoint comma_free (s : string) : bool :=
  match s with
  | EmptyString => true
  | String c s' => negb (Ascii.eqb c ","%char) && comma_free s'
  end.

(** The three facts the proof about what the search records carries along,
    for a search with the shared objects [v] and [a] that began at [start].
    Between two steps of the frame of path [p], every key of [p] is marked
    visited; at any time, everything recorded so far is a path to an exit. *)
Definition recorded_ok (v a : loc) (start : CellCoordinates) (w : World G)
  : Prop :=
  valid_refs v a w /\ Forall (exit_path (calls w) start) (array_at a w).

Definition inside_frame (v : loc) (start : CellCoordinates)
    (p : list CellCoordinates) (w : World G) : Prop :=
  frame_path (calls w) start p
  /\ NoDup (coordKey <$> p)
  /\ (forall k, k ∈ coordKey <$> p -> k ∈ set_at v w).

(** What the recursive call is assumed to do, and [exploreFromCell] is then
    shown to do: entered with a path whose keys, the last one apart, are
    marked, it keeps [recorded_ok]. *)
Definition keeps_recorded (v a : loc) (start : CellCoordinates)
    (c : list CellCoordinates -> M G unit) : Prop :=
  forall p w r w',
    frame_path (calls w) start p ->
    NoDup (coordKey <$> p) ->
    (forall k, k ∈ coordKey <$> p -> k <> coordKey (getCurrentCellFromPath p) ->
               k ∈ set_at v w) ->
    recorded_ok v a start w ->
    c p w = Some (r, w') ->
    recorded_ok v a start w'.

(** The number of keys of a finite maze not marked yet. *)
Definition unvisited (universe : gset string) (v : loc) (w : World G) : nat :=
  size (universe ∖ set_at v w).

(** The Gateway accepts the moves to [steps], one after the other, from
    state [g] and with endpoint [url]; [evs] are the calls this takes, and
    [g'] and [url'] the state and the endpoint afterwards (every response
    carries the endpoint of the next move). *)
Inductive accepts : G -> string -> list CellCoordinates ->
                    list GatewayCall -> G -> string -> Prop :=
| accepts_nil g url : accepts g url [] [] g url
| accepts_cons g url step rest data g1 evs g' url' :
    gw_move g url (x step) (y step) = (inl data, g1) ->
    accepts g1 (url_move data) rest evs g' url' ->
    accepts g url (step :: rest)
      (CallMove url (x step) (y step) (inl data) :: evs) g' url'.

(** The entry [followShortestPath] logs for a step it has made. *)
Definition moveLog (step : CellCoordinates) : string :=
  "Déplacement vers (" +:+ pretty (x step) +:+ ", " +:+ pretty (y step) +:+ ")".

(** [c] is a move to the coordinate [step], whatever the answer. *)
Definition move_to (c : GatewayCall) (step : CellCoordinates) : Prop :=
  exists url res, c = CallMove url (x step) (y step) res.

(** The two entries a rejected move of the navigator leaves in the log: the
    one of [moveToCell] and the one of [followShortestPath]. *)
Definition failureLogs (step : CellCoordinates) (err : JsError) : list string :=
  ["Erreur lors du move vers (" +:+ pretty (x step) +:+ ", "
   +:+ pretty (y step) +:+ ") : " +:+ err_toString err;
   "Échec déplacement vers (" +:+ pretty (x step) +:+ ", "
   +:+ pretty (y step) +:+ ") : " +:+ err_toString err].

(** The signals that mirror the remote authority: [updateGameState] writes
    them, and nothing else does between two resets. *)
Record Mirror : Type := mkMirror {
  m_position : CellCoordinates;
  m_dead : bool;
  m_win : bool;
  m_moveUrl : string;
  m_discoverUrl : string;
  m_visited : gset string
}.

Definition mirror (s : MazeStore) : Mirror :=
  mkMirror (_position s) (_isDead s) (_isWin s) (_moveUrl s) (_discoverUrl s)
    (_visited s).

(** What one round trip does to the mirror, when the call went to the
    endpoint the mirror holds: an accepted move installs the position, the
    flags and the endpoints of the response and adds the new position to the
    visited keys; a rejected move and a [discover] change nothing.  A call to
    any other endpoint has no answer here. *)
Definition answer (m : Mirror) (c : GatewayCall) : option Mirror :=
  match c with
  | CallMove url _ _ res =>
      if String.eqb url (m_moveUrl m) then
        Some match res with
             | inl data =>
                 mkMirror (mkCoord (position_x data) (position_y data))
                   (dead data) (win data) (url_move data) (url_discover data)
                   ({[coordKey (mkCoord (position_x data) (position_y data))]}
                    ∪ m_visited m)
             | inr _ => m
             end
      else None
  | CallDiscover url _ =>
      if String.eqb url (m_discoverUrl m) then Some m else None
  end.

Fixpoint replay (m : Mirror) (evs : list GatewayCall) : option Mirror :=
  match evs with
  | [] => Some m
  | c :: evs' =>
      match answer m c with
      | Some m' => replay m' evs'
      | None => None
      end
  end.

(** From [w] to [w'] calls were only added, each to the endpoint of the
    latest response, and the mirror of [w'] is what the responses make of
    the mirror of [w]. *)
Definition tracks (w w' : World G) : Prop :=
  exists evs, calls w' = (calls w ++ evs)%list
    /\ replay (mirror (store w)) evs = Some (mirror (store w')).

(** The session flags are untouched. *)
Definition flags_kept (w w' : World G) : Prop :=
  _isExploring (store w') = _isExploring (store w)
  /\ _isFinish (store w') = _isFinish (store w)
  /\ isExploringNow (store w') = isExploringNow (store w).

(** The test of [chooseNextMove], with the visited keys of the store. *)
Definition qualifies (visited : gset string) (cell : Cell) : bool :=
  move cell
  && negb (CELL_TYPE.eqb (value cell) CELL_TYPE.trap)
  && negb (bool_decide (cellKey cell ∈ visited)).

(** The world after [finishExploration]. *)
Definition disarmed (message : string) (w : World G) : World G :=
  logged message (upd_store (set_isExploring false) w).

(** The world after a rejected [moveTo], which logs nothing itself. *)
Definition after_moveTo_error (w : World G) (cell : Cell) (err : JsError)
    (g : G) : World G :=
  set_gw g (CallMove (_moveUrl (store w)) (cell_x cell) (cell_y cell) (inr err)) w.

(** The world [updateFromStart] leaves: every signal reset, then the game
    state of [data] installed and the exploration armed; [_results] refers to
    a fresh, empty array. *)
Definition session_started (data : ApiResponse) (w : World G) : World G :=
  mkWorld
    (mkStore (mkCoord (position_x data) (position_y data)) ∅ (dead data)
       (win data) (url_move data) (url_discover data) []
       {[coordKey (mkCoord (position_x data) (position_y data))]}
       true false (List.length (arrays w)) false)
    (arrays w ++ [[]]) (sets w) (gw w) (calls w).

(** The entry [followShortestPath] logs when a move of its walk is
    rejected. *)
Definition abortLog (step : CellCoordinates) (err : JsError) : string :=
  "Échec déplacement vers (" +:+ pretty (x step) +:+ ", "
  +:+ pretty (y step) +:+ ") : " +:+ err_toString err.

(** Entries were only added to the log. *)
Definition log_grows (w w' : World G) : Prop :=
  _log (store w) `prefix_of` _log (store w').

Global Instance CellCoordinates_eq_dec : EqDecision CellCoordinates.
Proof. solve_decision. Defined.

(** The coordinate a call asks to move to. *)
Definition call_target (c : GatewayCall) : option CellCoordinates :=
  match c with
  | CallMove _ px py _ => Some (mkCoord px py)
  | CallDiscover _ _ => None
  end.

Definition is_move (c : GatewayCall) : bool :=
  match c with
  | CallMove _ _ _ _ => true
  | CallDiscover _ _ => false
  end.

(** The last move among some calls, and its target. *)
Definition last_move_call (evs : list GatewayCall) : option GatewayCall :=
  last (List.filter is_move evs).

Definition last_move (evs : list GatewayCall) : option CellCoordinates :=
  last (omap call_target evs).

(** A coordinate the search may ask to move to: the start, or a cell that
    was reported reachable, and neither a trap nor an exit. *)
Definition walked_cell (cs : list GatewayCall) (start q : CellCoordinates)
  : Prop :=
  q = start \/ exists cell, corridor_cell cs cell /\ coords_of cell = q.

Definition safe_call (cs : list GatewayCall) (start : CellCoordinates)
    (c : GatewayCall) : Prop :=
  forall q, call_target c = Some q -> walked_cell cs start q.

(** The moves among [evs], made after the calls [cs], go to cells walked at
    the time of the move. *)
Fixpoint safe_moves (cs : list GatewayCall) (start : CellCoordinates)
    (evs : list GatewayCall) : Prop :=
  match evs with
  | [] => True
  | c :: evs' => safe_call cs start c /\ safe_moves (cs ++ [c]) start evs'
  end.

(** What the calls [evs] of a frame, or of the handling of a neighbor, look
    like: moves go to walked cells only, and the last move, when there is
    any call at all, goes to [home]. *)
Definition homing (cs : list GatewayCall) (start home : CellCoordinates)
    (evs : list GatewayCall) : Prop :=
  safe_moves cs start evs
  /\ (evs = [] \/ last_move evs = Some home).

(** What is shown of a frame of the search, and assumed of its recursive
    calls: its calls come home to the cell of the frame. *)
Definition frame_homes (start : CellCoordinates)
    (c : list CellCoordinates -> M G unit) : Prop :=
  forall p (w : World G) r w',
    frame_path (calls w) start p ->
    c p w = Some (r, w') ->
    exists evs, calls w' = (calls w ++ evs)%list
      /\ homing (calls w) start (getCurrentCellFromPath p) evs.

(** The slot of a grid at a row and a column. *)
Definition grid_at (grid : Grid) (row col : nat) : option (option Cell) :=
  match grid !! row with
  | Some r => r !! col
  | None => None
  end.

(** A grid of [height] rows of [width] slots each. *)
Definition grid_shape (grid : Grid) (height width : nat) : Prop :=
  List.length grid = height
  /\ Forall (fun r => List.length r = width) grid.

(** The cells of a list that sit at a coordinate, in the order of the
    list. *)
Definition cells_at (px py : Z) (cells : list Cell) : list Cell :=
  filter (fun c => cell_x c = px /\ cell_y c = py) cells.

(** Every entry of the map sits under the key of its own coordinate. *)
Definition keyed (m : gmap string Cell) : Prop :=
  forall k c, m !! k = Some c -> k = cellKey c.

Definition keeps_keyed (w w' : World G) : Prop :=
  keyed (_map (store w)) -> keyed (_map (store w')).

(** What [getCells] may return for a map: its values.  The source lists
    them in the order of insertion, which the map of the model does not
    keep: any order is allowed here. *)
Definition getCells_of (m : gmap string Cell) (cells : list Cell) : Prop :=
  cells ≡ₚ (map_to_list m).*2.







End Vocabulary.

(** * Properties of the store *)

Section Properties.

Context `{Gateway G}.
Implicit Types (w : World G) (cells : list Cell) (cell : Cell).
(** ** Comparing kinds *)

Lemma CELL_TYPE_eqb_eq a b : CELL_TYPE.eqb a b = true <-> a = b.
Proof. destruct a, b; simpl; split; congruence. Qed.

Lemma CELL_TYPE_eqb_neq a b : CELL_TYPE.eqb a b = false <-> a <> b.
Proof. destruct a, b; simpl; split; congruence. Qed.

(** ** Running a computation step by step *)

Lemma bind_returned {A B} (c : M G A) (k : A -> M G B) w a w1 :
  c w = Some (Returned a, w1) -> bind c k w = k a w1.
Proof. unfold bind. intros ->. reflexivity. Qed.

Lemma bind_thrown {A B} (c : M G A) (k : A -> M G B) w e w1 :
  c w = Some (Thrown e, w1) -> bind c k w = Some (Thrown e, w1).
Proof. unfold bind. intros ->. reflexivity. Qed.

Lemma bind_none {A B} (c : M G A) (k : A -> M G B) w :
  c w = None -> bind c k w = None.
Proof. unfold bind. intros ->. reflexivity. Qed.

Lemma bind_more {A B} (c1 c2 : M G A) (k : A -> M G B) w r :
  (forall r1, c1 w = Some r1 -> c2 w = Some r1) ->
  bind c1 k w = Some r -> bind c2 k w = Some r.
Proof.
  intros Hmore. unfold bind.
  destruct (c1 w) as [r1|] eqn:E; [|discriminate].
  rewrite (Hmore _ eq_refl). exact id.
Qed.

Lemma bind_more_k {A B} (c : M G A) (k1 k2 : A -> M G B) w r :
  (forall a w1 r1, k1 a w1 = Some r1 -> k2 a w1 = Some r1) ->
  bind c k1 w = Some r -> bind c k2 w = Some r.
Proof.
  intros Hmore. unfold bind.
  destruct (c w) as [[[a | e] w1]|]; [apply Hmore | exact id | exact id].
Qed.

(** ** Keys stand for coordinates *)

Lemma pretty_N_go_comma_free (n : N) : forall s,
  comma_free s = true -> comma_free (pretty_N_go n s) = true.
Proof.
  induction (N.lt_wf_0 n) as [n _ IH]; intros s Hs.
  destruct (decide (n = 0)%N) as [-> | Hpos].
  - rewrite pretty_N_go_0. exact Hs.
  - rewrite pretty_N_go_step by lia. apply IH.
    + apply N.div_lt; lia.
    + simpl. rewrite Hs. unfold pretty_N_char.
      repeat case_match; reflexivity.
Qed.

Lemma pretty_Z_comma_free (z : Z) : comma_free (pretty z) = true.
Proof.
  destruct z as [|q|q]; [reflexivity | |]; unfold pretty, pretty_Z;
    [|simpl]; unfold pretty, pretty_positive, pretty, pretty_N;
    (destruct (decide (N.pos q = 0)%N); [reflexivity|]);
    apply pretty_N_go_comma_free; reflexivity.
Qed.

Lemma split_at_comma (s1 : string) : forall s2 t1 t2,
  comma_free s1 = true -> comma_free s2 = true ->
  s1 +:+ "," +:+ t1 = s2 +:+ "," +:+ t2 -> s1 = s2 /\ t1 = t2.
Proof.
  induction s1 as [|c s1 IH]; intros [|d s2] t1 t2 H1 H2 Heq; simpl in *.
  - inversion Heq. auto.
  - inversion Heq; subst d. discriminate.
  - inversion Heq; subst c. discriminate.
  - inversion Heq; subst d.
    apply andb_true_iff in H1 as [_ H1]. apply andb_true_iff in H2 as [_ H2].
    destruct (IH s2 t1 t2 H1 H2) as [-> ->]; auto.
Qed.

(** Two coordinates with the same key are the same coordinate: the visited
    set and the discovered map tell cells apart by their coordinates. *)
Global Instance coordKey_inj : Inj (=) (=) coordKey.
Proof.
  intros [x1 y1] [x2 y2]. unfold coordKey. simpl. intros Heq.
  apply split_at_comma in Heq as [Hx Hy]; try apply pretty_Z_comma_free.
  apply (inj pretty) in Hx. apply (inj pretty) in Hy. congruence.
Qed.

(** ** The discovered map only grows *)

Lemma discoverCells_run cells w :
  discoverCells cells w
  = Some (Returned tt,
          upd_store (fun s => set_map (merge_cells (_map s) cells) s) w).
Proof. reflexivity. Qed.

Lemma merge_cells_lookup cells : forall (m : gmap string Cell) k c,
  merge_cells m cells !! k = Some c ->
  m !! k = Some c \/ (c ∈ cells /\ cellKey c = k).
Proof.
  induction cells as [|c0 cells IH]; intros m k c; simpl.
  - auto.
  - intros Hk. apply IH in Hk as [Hk | [Hin Hkey]].
    + destruct (decide (cellKey c0 = k)) as [<- | Hne].
      * rewrite lookup_insert_eq in Hk. inversion Hk; subst.
        right. split; [left | reflexivity].
      * rewrite lookup_insert_ne in Hk by assumption. auto.
    + right. split; [right; assumption | assumption].
Qed.

Lemma merge_cells_keeps cells : forall (m : gmap string Cell) k,
  is_Some (m !! k) -> is_Some (merge_cells m cells !! k).
Proof.
  induction cells as [|c0 cells IH]; intros m k Hk; simpl.
  - assumption.
  - apply IH. destruct (decide (cellKey c0 = k)) as [<- | Hne].
    + rewrite lookup_insert_eq. eauto.
    + rewrite lookup_insert_ne by assumption. assumption.
Qed.

Lemma merge_cells_adds cells : forall (m : gmap string Cell) c,
  c ∈ cells -> is_Some (merge_cells m cells !! cellKey c).
Proof.
  induction cells as [|c0 cells IH]; intros m c Hin; simpl.
  - inversion Hin.
  - apply elem_of_cons in Hin as [-> | Hin].
    + apply merge_cells_keeps. rewrite lookup_insert_eq. eauto.
    + apply IH, Hin.
Qed.

Lemma merge_cells_size cells : forall (m : gmap string Cell),
  (size m <= size (merge_cells m cells))%nat.
Proof.
  induction cells as [|c0 cells IH]; intros m; simpl.
  - lia.
  - etransitivity; [|apply IH].
    destruct (m !! cellKey c0) as [c1|] eqn:E.
    + rewrite map_size_insert_Some by eauto. lia.
    + rewrite map_size_insert_None by assumption. lia.
Qed.

Lemma discoverAll_run batches : forall w,
  exists w', discoverAll batches w = Some (Returned tt, w')
    /\ arrays w' = arrays w /\ sets w' = sets w
    /\ gw w' = gw w /\ calls w' = calls w
    /\ (forall k, is_Some (_map (store w) !! k) ->
                  is_Some (_map (store w') !! k))
    /\ (size (_map (store w)) <= size (_map (store w')))%nat
    /\ (forall k c, _map (store w') !! k = Some c ->
          _map (store w) !! k = Some c
          \/ exists cells, cells ∈ batches /\ c ∈ cells /\ cellKey c = k)
    /\ (forall cells c, cells ∈ batches -> c ∈ cells ->
          is_Some (_map (store w') !! cellKey c)).
Proof.
  induction batches as [|cells rest IH]; intros w.
  - exists w. simpl. split_and!; auto.
    intros cells c Hin. inversion Hin.
  - destruct (IH (upd_store (fun s => set_map (merge_cells (_map s) cells) s) w))
      as (w' & Hrun & Ha & Hs & Hg & Hc & Hkeep & Hsize & Hfrom & Hall).
    exists w'. simpl in *.
    rewrite (bind_returned _ _ _ _ _ (discoverCells_run cells w)).
    split_and!; try assumption.
    + intros k Hk. apply Hkeep, merge_cells_keeps, Hk.
    + etransitivity; [apply merge_cells_size | exact Hsize].
    + intros k c Hk. apply Hfrom in Hk as [Hk | (cs & Hcs & Hc' & Hkey)].
      * apply merge_cells_lookup in Hk as [Hk | [Hin Hkey]]; [auto|].
        right. exists cells. split; [left | auto].
      * right. exists cs. split; [right; assumption | auto].
    + intros cs c Hcs Hin. apply elem_of_cons in Hcs as [-> | Hcs].
      * apply Hkeep, merge_cells_adds, Hin.
      * eapply Hall; eassumption.
Qed.

(** ** Steps that talk to the Gateway *)

Global Instance io_le_preorder : PreOrder (@io_le G).
Proof.
  split.
  - intros w. split; auto.
  - intros w1 w2 w3 [] []. split; try congruence; try (etransitivity; eassumption).
    auto.
Qed.

Ltac unfold_worlds :=
  unfold logged, after_move, after_move_error, after_discover,
    after_discover_error in *;
  simpl in *.

Lemma io_le_logged entry w : io_le w (logged entry w).
Proof. split; unfold_worlds; auto. apply prefix_app_r. reflexivity. Qed.

Lemma io_le_after_move w pos data g : io_le w (after_move w pos data g).
Proof. split; unfold_worlds; auto. apply prefix_app_r. reflexivity. Qed.

Lemma io_le_after_move_error w pos err g :
  io_le w (after_move_error w pos err g).
Proof. split; unfold_worlds; auto; apply prefix_app_r; reflexivity. Qed.

Lemma io_le_after_discover w cells g : io_le w (after_discover w cells g).
Proof.
  split; unfold_worlds; auto.
  - apply prefix_app_r. reflexivity.
  - intros k Hk. apply merge_cells_keeps, Hk.
Qed.

Lemma io_le_after_discover_error w err g :
  io_le w (after_discover_error w err g).
Proof. split; unfold_worlds; auto; apply prefix_app_r; reflexivity. Qed.

Lemma addLog_run entry w : addLog entry w = Some (Returned tt, logged entry w).
Proof. reflexivity. Qed.

Lemma moveToCell_run pos w :
  moveToCell pos w
  = match gw_move (gw w) (_moveUrl (store w)) (x pos) (y pos) with
    | (inl data, g) => Some (Returned tt, after_move w pos data g)
    | (inr err, g) => Some (Thrown err, after_move_error w pos err g)
    end.
Proof.
  unfold moveToCell, try_catch, bind, get, MazeService_move.
  destruct (gw_move _ _ _ _) as [[data | err] g]; reflexivity.
Qed.

Lemma tryMoveToCell_run pos w :
  tryMoveToCell pos w
  = match gw_move (gw w) (_moveUrl (store w)) (x pos) (y pos) with
    | (inl data, g) => Some (Returned true, after_move w pos data g)
    | (inr err, g) =>
        Some (Returned false,
              logged ("Erreur déplacement vers (" +:+ pretty (x pos) +:+ ", "
                      +:+ pretty (y pos) +:+ ") : " +:+ err_toString err)
                (after_move_error w pos err g))
    end.
Proof.
  unfold tryMoveToCell, try_catch, bind. rewrite moveToCell_run.
  destruct (gw_move _ _ _ _) as [[data | err] g]; reflexivity.
Qed.

Lemma returnToPrevious_run pos w :
  returnToPrevious pos w
  = match gw_move (gw w) (_moveUrl (store w)) (x pos) (y pos) with
    | (inl data, g) =>
        Some (Returned tt,
              logged ("Retour vers (" +:+ pretty (x pos) +:+ ", "
                      +:+ pretty (y pos) +:+ ") après impasse.")
                (after_move w pos data g))
    | (inr err, g) =>
        Some (Returned tt,
              logged ("Erreur retour arrière vers (" +:+ pretty (x pos) +:+ ", "
                      +:+ pretty (y pos) +:+ ") : " +:+ err_toString err)
                (after_move_error w pos err g))
    end.
Proof.
  unfold returnToPrevious, try_catch, bind. rewrite moveToCell_run.
  destruct (gw_move _ _ _ _) as [[data | err] g]; reflexivity.
Qed.

Lemma discoverSurroundings_run w :
  discoverSurroundings w
  = match gw_discover (gw w) (_discoverUrl (store w)) with
    | (inl cells, g) => Some (Returned cells, after_discover w cells g)
    | (inr err, g) => Some (Thrown err, after_discover_error w err g)
    end.
Proof.
  unfold discoverSurroundings, try_catch, bind, get, MazeService_discover.
  destruct (gw_discover _ _) as [[cells | err] g]; reflexivity.
Qed.

Lemma getDiscoverableNeighbors_run w :
  getDiscoverableNeighbors w
  = match gw_discover (gw w) (_discoverUrl (store w)) with
    | (inl cells, g) => Some (Returned (Some cells), after_discover w cells g)
    | (inr err, g) => Some (Returned None, after_discover_error w err g)
    end.
Proof.
  unfold getDiscoverableNeighbors, try_catch, bind.
  rewrite discoverSurroundings_run.
  destruct (gw_discover _ _) as [[cells | err] g]; reflexivity.
Qed.

(** ** The search: no frame throws, and nothing recorded is lost *)

Global Instance dfs_le_preorder v a : PreOrder (@dfs_le G v a).
Proof.
  split.
  - intros w. split; auto.
  - intros w1 w2 w3 [] []. split; try congruence;
      try (etransitivity; eassumption); auto.
    intros l Hl. rewrite dfs_arrays_other1 by assumption. auto.
Qed.

Lemma io_le_dfs_le v a w w' : io_le w w' -> dfs_le v a w w'.
Proof.
  intros [].
  split; auto; try congruence.
  - unfold array_at. rewrite io_arrays0. reflexivity.
  - unfold set_at. rewrite io_sets0. reflexivity.
Qed.

Lemma markVisited_run key v w :
  markVisited key v w
  = Some (Returned tt, set_sets (<[v := {[key]} ∪ set_at v w]> (sets w)) w).
Proof. reflexivity. Qed.

Lemma dfs_le_markVisited key v a w :
  dfs_le v a w (set_sets (<[v := {[key]} ∪ set_at v w]> (sets w)) w).
Proof.
  split; simpl; auto.
  - apply length_insert.
  - unfold set_at at 2. simpl.
    destruct (decide (v < List.length (sets w))%nat) as [Hlt | Hge].
    + rewrite list_lookup_insert_eq by assumption. simpl. set_solver.
    + rewrite list_insert_ge by lia. reflexivity.
Qed.

Lemma set_at_markVisited key v w :
  (v < List.length (sets w))%nat ->
  set_at v (set_sets (<[v := {[key]} ∪ set_at v w]> (sets w)) w)
  = {[key]} ∪ set_at v w.
Proof.
  intros Hlt. unfold set_at at 1. simpl.
  rewrite list_lookup_insert_eq by assumption. reflexivity.
Qed.

Lemma recordExitPath_run p a w :
  recordExitPath p a w
  = Some (Returned tt,
          logged ("Sortie trouvée en " +:+ pretty (List.length p) +:+ " étapes.")
            (pushed p a w)).
Proof. reflexivity. Qed.

Lemma array_at_pushed p a w :
  (a < List.length (arrays w))%nat ->
  array_at a (pushed p a w)
  = (array_at a w ++ [PathCandidate.make p (List.length p)])%list.
Proof.
  intros Hlt. unfold array_at at 1, pushed. simpl.
  rewrite list_lookup_insert_eq by assumption. reflexivity.
Qed.

Lemma dfs_le_pushed p v a w : dfs_le v a w (pushed p a w).
Proof.
  unfold pushed. split; simpl; auto.
  - apply length_insert.
  - unfold array_at at 2. simpl.
    destruct (decide (a < List.length (arrays w))%nat) as [Hlt | Hge].
    + rewrite list_lookup_insert_eq by assumption. simpl.
      apply prefix_app_r. reflexivity.
    + rewrite list_insert_ge by lia. reflexivity.
  - intros l Hl. apply list_lookup_insert_ne. congruence.
Qed.

Lemma handleCellExploration_ok recur v a :
  (forall p, frame_ok v a (recur p v a)) ->
  forall current cell p,
    frame_ok v a (handleCellExploration recur current cell p v a).
Proof.
  intros Hrec current cell p w r w'.
  unfold handleCellExploration, bind at 1, canExploreCell, get.
  destruct (negb _ && move cell && negb _); simpl.
  - destruct (isGoalCell cell).
    + rewrite recordExitPath_run. intros [= <- <-]. split; [reflexivity|].
      etransitivity; [apply dfs_le_pushed|].
      apply io_le_dfs_le, io_le_logged.
    + unfold bind.
      destruct (recur _ v a w) as [[r1 w1]|] eqn:E; [|discriminate].
      apply Hrec in E as [-> Hle]. rewrite returnToPrevious_run.
      destruct (gw_move _ _ _ _) as [[data | err] g]; intros [= <- <-];
        (split; [reflexivity|]); (etransitivity; [exact Hle|]);
        apply io_le_dfs_le.
      * etransitivity; [apply io_le_after_move | apply io_le_logged].
      * etransitivity; [apply io_le_after_move_error | apply io_le_logged].
  - intros [= <- <-]. split; reflexivity.
Qed.

Lemma exploreNeighbors_ok recur v a :
  (forall p, frame_ok v a (recur p v a)) ->
  forall current neighbors p,
    frame_ok v a (exploreNeighbors recur current neighbors p v a).
Proof.
  intros Hrec current neighbors p.
  induction neighbors as [|cell rest IH]; intros w r w'; simpl.
  - intros [= <- <-]. split; reflexivity.
  - unfold bind.
    destruct (handleCellExploration _ _ _ _ _ _ w) as [[r1 w1]|] eqn:E;
      [|discriminate].
    apply handleCellExploration_ok in E as [-> Hle]; [|assumption].
    intros Hrest. apply IH in Hrest as [-> Hle2].
    split; [reflexivity | etransitivity; eassumption].
Qed.

Lemma exploreFromCell_ok fuel v a : forall p,
  frame_ok v a (exploreFromCell fuel p v a).
Proof.
  induction fuel as [|fuel IH]; intros p w r w'; simpl; [discriminate|].
  unfold bind at 1, isVisited, get.
  destruct (bool_decide _); [intros [= <- <-]; split; reflexivity|].
  unfold bind at 1. rewrite markVisited_run.
  unfold bind at 1. rewrite tryMoveToCell_run.
  pose proof (dfs_le_markVisited (coordKey (getCurrentCellFromPath p)) v a w)
    as Hmark.
  destruct (gw_move _ _ _ _) as [[data | err] g]; simpl.
  - unfold bind at 1, logExplorationStep. rewrite addLog_run.
    unfold bind at 1. rewrite getDiscoverableNeighbors_run.
    match goal with
    | |- context [after_discover ?w0 _ _] =>
        assert (dfs_le v a w w0) as Hle
          by (etransitivity; [exact Hmark|]; apply io_le_dfs_le;
              etransitivity; [apply io_le_after_move | apply io_le_logged])
    end.
    destruct (gw_discover _ _) as [[cells | err] g1].
    + intros Hrun. apply exploreNeighbors_ok in Hrun as [-> Hle2];
        [|assumption].
      split; [reflexivity|]. etransitivity; [exact Hle|].
      etransitivity; [|exact Hle2].
      apply io_le_dfs_le, io_le_after_discover.
    + intros [= <- <-]. split; [reflexivity|].
      etransitivity; [exact Hle|].
      apply io_le_dfs_le, io_le_after_discover_error.
  - intros [= <- <-]. split; [reflexivity|].
    etransitivity; [exact Hmark|]. apply io_le_dfs_le.
    etransitivity; [apply io_le_after_move_error | apply io_le_logged].
Qed.

(** ** The search: what it records *)

Lemma discovered_mono cs cs' c :
  cs `prefix_of` cs' -> discovered cs c -> discovered cs' c.
Proof.
  intros [k ->] (url & cells & Hin & Hc). exists url, cells.
  split; [apply elem_of_app; left|]; assumption.
Qed.

Lemma corridor_cell_mono cs cs' c :
  cs `prefix_of` cs' -> corridor_cell cs c -> corridor_cell cs' c.
Proof. intros Hp (Hd & Hrest). split; [eapply discovered_mono|]; eauto. Qed.

Lemma frame_path_mono cs cs' start p :
  cs `prefix_of` cs' -> frame_path cs start p -> frame_path cs' start p.
Proof.
  intros Hp (inner & -> & Hin). exists inner. split; [reflexivity|].
  eapply Forall_impl; [exact Hin|]. intros c. apply corridor_cell_mono, Hp.
Qed.

Lemma exit_path_mono cs cs' start r :
  cs `prefix_of` cs' -> exit_path cs start r -> exit_path cs' start r.
Proof.
  intros Hp (inner & e & Hpath & Hin & (Hd & He) & Hnd & Hlen).
  exists inner, e. split_and!; auto.
  - eapply Forall_impl; [exact Hin|]. intros c. apply corridor_cell_mono, Hp.
  - split; [eapply discovered_mono; eauto | exact He].
Qed.

Lemma valid_refs_dfs_le v a w w' :
  dfs_le v a w w' -> valid_refs v a w -> valid_refs v a w'.
Proof. intros [] [Hv Ha]. split; congruence. Qed.

Section Recorded.

Variables (v a : loc) (start : CellCoordinates).

Lemma inside_frame_dfs_le p w w' :
  dfs_le v a w w' -> inside_frame v start p w -> inside_frame v start p w'.
Proof.
  intros Hle (Hfp & Hnd & Hkeys). split_and!; auto.
  - eapply frame_path_mono; [apply Hle | exact Hfp].
  - intros k Hk. apply (dfs_visited _ _ _ _ Hle), Hkeys, Hk.
Qed.

Lemma recorded_ok_io_le w w' : io_le w w' -> recorded_ok v a start w -> recorded_ok v a start w'.
Proof.
  intros Hle [Hv Hall]. split.
  - eapply valid_refs_dfs_le; [apply io_le_dfs_le, Hle | exact Hv].
  - unfold array_at in *. rewrite (io_arrays _ _ Hle).
    eapply Forall_impl; [exact Hall|].
    intros r. apply exit_path_mono, Hle.
Qed.

Lemma handleCellExploration_recorded recur current cell p w r w' :
  (forall q, frame_ok v a (recur q v a)) ->
  keeps_recorded v a start (fun q => recur q v a) ->
  inside_frame v start p w -> discovered (calls w) cell -> recorded_ok v a start w ->
  handleCellExploration recur current cell p v a w = Some (r, w') ->
  recorded_ok v a start w'.
Proof.
  intros Hok Hrec (Hfp & Hnd & Hkeys) Hdisc Hrok.
  unfold handleCellExploration, bind at 1, canExploreCell, get.
  destruct (bool_decide _) eqn:Hvis; simpl;
    [intros [= <- <-]; exact Hrok|].
  apply bool_decide_eq_false in Hvis.
  destruct (move cell) eqn:Hmove; simpl; [|intros [= <- <-]; exact Hrok].
  destruct (CELL_TYPE.eqb (value cell) CELL_TYPE.trap) eqn:Htrap; simpl;
    [intros [= <- <-]; exact Hrok|].
  apply CELL_TYPE_eqb_neq in Htrap.
  assert (NoDup (coordKey <$> buildNextPath p cell)) as Hnd'.
  { unfold buildNextPath. rewrite fmap_app. apply NoDup_app. split_and!.
    - exact Hnd.
    - intros k Hk Hk'. apply list_elem_of_singleton in Hk'. subst k.
      apply Hvis, Hkeys, Hk.
    - apply NoDup_singleton. }
  destruct Hfp as (inner & -> & Hinner).
  unfold isGoalCell.
  destruct (CELL_TYPE.eqb (value cell) CELL_TYPE.stop) eqn:Hstop.
  - apply CELL_TYPE_eqb_eq in Hstop.
    rewrite recordExitPath_run. intros [= <- <-].
    destruct Hrok as [[Hv Ha] Hall].
    apply recorded_ok_io_le with (w := pushed (buildNextPath
      (start :: map coords_of inner) cell) a w); [apply io_le_logged|].
    split.
    + eapply valid_refs_dfs_le; [apply dfs_le_pushed | split; assumption].
    + rewrite array_at_pushed by assumption.
      apply Forall_app. split; [exact Hall|].
      apply Forall_singleton. exists inner, cell. simpl. split_and!; auto.
      split_and!; auto.
  - apply CELL_TYPE_eqb_neq in Hstop. unfold bind.
    destruct (recur _ v a w) as [[r1 w1]|] eqn:E; [|discriminate].
    pose proof (Hok _ _ _ _ E) as [-> Hle].
    assert (recorded_ok v a start w1) as Hrok1.
    { eapply Hrec; [| exact Hnd' | | exact Hrok | exact E].
      - exists (inner ++ [cell])%list. split.
        + unfold buildNextPath. simpl. rewrite map_app. reflexivity.
        + apply Forall_app. split; [exact Hinner|].
          apply Forall_singleton. split_and!; auto.
      - intros k Hk Hne. unfold buildNextPath in Hk, Hne.
        rewrite fmap_app in Hk. apply elem_of_app in Hk as [Hk | Hk].
        + apply Hkeys, Hk.
        + apply list_elem_of_singleton in Hk. subst k. exfalso. apply Hne.
          unfold getCurrentCellFromPath. rewrite last_snoc. reflexivity. }
    rewrite returnToPrevious_run.
    destruct (gw_move _ _ _ _) as [[data | err] g]; intros [= <- <-];
      (eapply recorded_ok_io_le; [|exact Hrok1]).
    + etransitivity; [apply io_le_after_move | apply io_le_logged].
    + etransitivity; [apply io_le_after_move_error | apply io_le_logged].
Qed.

Lemma exploreNeighbors_recorded recur current p :
  (forall q, frame_ok v a (recur q v a)) ->
  keeps_recorded v a start (fun q => recur q v a) ->
  forall neighbors w r w',
    inside_frame v start p w -> Forall (discovered (calls w)) neighbors ->
    recorded_ok v a start w ->
    exploreNeighbors recur current neighbors p v a w = Some (r, w') ->
    recorded_ok v a start w'.
Proof.
  intros Hok Hrec.
  induction neighbors as [|cell rest IH]; intros w r w' Hin Hdisc Hrok; simpl.
  - intros [= <- <-]. exact Hrok.
  - unfold bind.
    destruct (handleCellExploration _ _ _ _ _ _ w) as [[r1 w1]|] eqn:E;
      [|discriminate].
    apply Forall_cons in Hdisc as [Hcell Hrest].
    pose proof (handleCellExploration_ok _ _ _ Hok _ _ _ _ _ _ E) as [-> Hle].
    apply IH.
    + eapply inside_frame_dfs_le; eassumption.
    + eapply Forall_impl; [exact Hrest|].
      intros c. apply discovered_mono, Hle.
    + eapply handleCellExploration_recorded; eassumption.
Qed.

Lemma recorded_ok_markVisited key w :
  recorded_ok v a start w ->
  recorded_ok v a start (set_sets (<[v := {[key]} ∪ set_at v w]> (sets w)) w).
Proof.
  intros [Hv Hall]. split; [|exact Hall].
  eapply valid_refs_dfs_le; [apply dfs_le_markVisited | exact Hv].
Qed.

Lemma exploreFromCell_recorded fuel :
  keeps_recorded v a start (fun q => exploreFromCell fuel q v a).
Proof.
  induction fuel as [|fuel IH]; intros p w r w' Hfp Hnd Hkeys Hrok; simpl;
    [discriminate|].
  unfold bind at 1, isVisited, get.
  destruct (bool_decide _); [intros [= <- <-]; exact Hrok|].
  unfold bind at 1. rewrite markVisited_run.
  unfold bind at 1. rewrite tryMoveToCell_run.
  set (key := coordKey (getCurrentCellFromPath p)) in *.
  set (wm := set_sets (<[v := {[key]} ∪ set_at v w]> (sets w)) w).
  assert (recorded_ok v a start wm) as Hrokm by apply recorded_ok_markVisited, Hrok.
  assert (inside_frame v start p wm) as Hinm.
  { split_and!; auto. intros k Hk. unfold wm.
    rewrite set_at_markVisited by apply Hrok.
    destruct (decide (k = key)) as [-> | Hne];
      [apply elem_of_union_l, elem_of_singleton; reflexivity|].
    apply elem_of_union_r, Hkeys; assumption. }
  destruct (gw_move _ _ _ _) as [[data | err] g]; simpl.
  - unfold bind at 1, logExplorationStep. rewrite addLog_run.
    unfold bind at 1. rewrite getDiscoverableNeighbors_run.
    match goal with
    | |- context [after_discover ?w0 _ _] =>
        assert (io_le wm w0) as Hle
          by (etransitivity; [apply io_le_after_move | apply io_le_logged]);
        set (w3 := w0) in *
    end.
    destruct (gw_discover _ _) as [[cells | err] g1].
    + apply exploreNeighbors_recorded.
      * intros q. apply exploreFromCell_ok.
      * exact IH.
      * eapply inside_frame_dfs_le; [|exact Hinm].
        apply io_le_dfs_le. etransitivity; [exact Hle|].
        apply io_le_after_discover.
      * apply Forall_forall. intros c Hc.
        exists (_discoverUrl (store w3)), cells. split; [|exact Hc].
        unfold after_discover. simpl. apply elem_of_app. right. left.
      * eapply recorded_ok_io_le; [|exact Hrokm].
        etransitivity; [exact Hle|]. apply io_le_after_discover.
    + intros [= <- <-]. eapply recorded_ok_io_le; [|exact Hrokm].
      etransitivity; [exact Hle|]. apply io_le_after_discover_error.
  - intros [= <- <-]. eapply recorded_ok_io_le; [|exact Hrokm].
    etransitivity; [apply io_le_after_move_error | apply io_le_logged].
Qed.

End Recorded.

(** ** The search: a frame whose Gateway call fails *)

Lemma exploreFromCell_move_rejected fuel p v a w err g1 :
  let current := getCurrentCellFromPath p in
  coordKey current ∉ set_at v w ->
  gw_move (gw w) (_moveUrl (store w)) (x current) (y current) = (inr err, g1) ->
  exists w',
    exploreFromCell (S fuel) p v a w = Some (Returned tt, w')
    /\ arrays w' = arrays w
    /\ calls w'
       = (calls w ++ [CallMove (_moveUrl (store w)) (x current) (y current)
                        (inr err)])%list
    /\ gw w' = g1
    /\ _log (store w') = (_log (store w) ++ moveErrorLogs current err)%list
    /\ _results (store w') = _results (store w).
Proof.
  intros current Hfresh Hmove. simpl.
  unfold bind at 1, isVisited, get. fold current.
  rewrite bool_decide_eq_false_2 by exact Hfresh.
  unfold bind at 1. rewrite markVisited_run.
  unfold bind at 1. rewrite tryMoveToCell_run. simpl. rewrite Hmove. simpl.
  eexists. split; [reflexivity|]. unfold_worlds. rewrite <- app_assoc.
  split_and!; reflexivity.
Qed.

Lemma exploreFromCell_discover_rejected fuel p v a w data g1 err g2 :
  let current := getCurrentCellFromPath p in
  coordKey current ∉ set_at v w ->
  gw_move (gw w) (_moveUrl (store w)) (x current) (y current) = (inl data, g1) ->
  gw_discover g1 (url_discover data) = (inr err, g2) ->
  exists w',
    exploreFromCell (S fuel) p v a w = Some (Returned tt, w')
    /\ arrays w' = arrays w
    /\ calls w'
       = (calls w ++ [CallMove (_moveUrl (store w)) (x current) (y current)
                        (inl data);
                      CallDiscover (url_discover data) (inr err)])%list
    /\ gw w' = g2
    /\ _log (store w')
       = (_log (store w)
          ++ ["Exploration (" +:+ pretty (List.length p) +:+ ") : ("
              +:+ pretty (x current) +:+ ", " +:+ pretty (y current) +:+ ")";
              "Erreur lors de la découverte : " +:+ err_toString err])%list.
Proof.
  intros current Hfresh Hmove Hdisc. simpl.
  unfold bind at 1, isVisited, get. fold current.
  rewrite bool_decide_eq_false_2 by exact Hfresh.
  unfold bind at 1. rewrite markVisited_run.
  unfold bind at 1. rewrite tryMoveToCell_run. simpl. rewrite Hmove. simpl.
  unfold bind at 1, logExplorationStep. rewrite addLog_run.
  unfold bind at 1. rewrite getDiscoverableNeighbors_run. simpl.
  rewrite Hdisc.
  eexists. split; [reflexivity|]. unfold_worlds. rewrite <- !app_assoc.
  split_and!; reflexivity.
Qed.

(** The first call of a frame that is not cut short by the cycle guard is
    the move to the last cell of its path. *)
Lemma exploreFromCell_first_call fuel p v a w r w' :
  let current := getCurrentCellFromPath p in
  coordKey current ∉ set_at v w ->
  exploreFromCell fuel p v a w = Some (r, w') ->
  exists res rest,
    calls w'
    = (calls w ++ CallMove (_moveUrl (store w)) (x current) (y current) res
         :: rest)%list.
Proof.
  intros current Hfresh. destruct fuel as [|fuel]; simpl; [discriminate|].
  unfold bind at 1, isVisited, get. fold current.
  rewrite bool_decide_eq_false_2 by exact Hfresh.
  unfold bind at 1. rewrite markVisited_run.
  unfold bind at 1. rewrite tryMoveToCell_run. simpl.
  destruct (gw_move _ _ _ _) as [[data | err] g]; simpl.
  - unfold bind at 1, logExplorationStep. rewrite addLog_run.
    unfold bind at 1. rewrite getDiscoverableNeighbors_run. simpl.
    destruct (gw_discover _ _) as [[cells | err] g1].
    + intros Hrun.
      apply (exploreNeighbors_ok _ v a (exploreFromCell_ok fuel v a)) in Hrun
        as [_ Hle].
      destruct (dfs_calls _ _ _ _ Hle) as [k Hk]. unfold_worlds.
      rewrite Hk, <- !app_assoc. simpl. eexists _, _. reflexivity.
    + intros [= <- <-]. unfold_worlds. rewrite <- !app_assoc. simpl.
      eexists _, _. reflexivity.
  - intros [= <- <-]. unfold_worlds. eexists _, _. reflexivity.
Qed.

(** ** The search: more fuel changes nothing *)

Lemma handleCellExploration_more recur1 recur2 v a :
  (forall q w r, recur1 q v a w = Some r -> recur2 q v a w = Some r) ->
  forall current cell p w r,
    handleCellExploration recur1 current cell p v a w = Some r ->
    handleCellExploration recur2 current cell p v a w = Some r.
Proof.
  intros Hmore current cell p w r.
  unfold handleCellExploration, bind at 1 3.
  destruct (canExploreCell _ _ _ w) as [[[ok | e] w1]|]; try exact id.
  destruct (negb ok); [exact id|].
  destruct (isGoalCell cell); [exact id|].
  unfold bind.
  destruct (recur1 _ v a w1) as [[r1 w2]|] eqn:E; [|discriminate].
  rewrite (Hmore _ _ _ E). exact id.
Qed.

Lemma exploreNeighbors_more recur1 recur2 v a :
  (forall q w r, recur1 q v a w = Some r -> recur2 q v a w = Some r) ->
  forall current neighbors p w r,
    exploreNeighbors recur1 current neighbors p v a w = Some r ->
    exploreNeighbors recur2 current neighbors p v a w = Some r.
Proof.
  intros Hmore current neighbors p.
  induction neighbors as [|cell rest IH]; intros w r; simpl; [exact id|].
  unfold bind.
  destruct (handleCellExploration recur1 _ _ _ _ _ w) as [[r1 w1]|] eqn:E;
    [|discriminate].
  rewrite (handleCellExploration_more _ _ _ _ Hmore _ _ _ _ _ E).
  destruct r1; [apply IH | exact id].
Qed.

Lemma exploreFromCell_more fuel : forall p v a w r,
  exploreFromCell fuel p v a w = Some r ->
  exploreFromCell (S fuel) p v a w = Some r.
Proof.
  induction fuel as [|fuel IH]; intros p v a w r; [discriminate|].
  remember (S fuel) as n eqn:Hn. simpl. subst n.
  intros Hrun. simpl in Hrun. revert Hrun. unfold bind at 1 6.
  destruct (isVisited _ _ w) as [[[seen | e] w1]|]; try exact id.
  destruct seen; [exact id|].
  unfold bind at 1 5.
  destruct (markVisited _ _ w1) as [[[[] | e] w2]|]; try exact id.
  unfold bind at 1 4.
  destruct (tryMoveToCell _ w2) as [[[moved | e] w3]|]; try exact id.
  destruct (negb moved); [exact id|].
  unfold bind at 1 3.
  destruct (logExplorationStep _ _ w3) as [[[[] | e] w4]|]; try exact id.
  unfold bind.
  destruct (getDiscoverableNeighbors w4) as [[[[cells|] | e] w5]|];
    try exact id.
  apply exploreNeighbors_more. intros q w6 r6. apply IH.
Qed.

Lemma exploreFromCell_fuel fuel fuel' p v a w r :
  (fuel <= fuel')%nat ->
  exploreFromCell fuel p v a w = Some r ->
  exploreFromCell fuel' p v a w = Some r.
Proof.
  induction 1 as [|fuel' _ IH]; [exact id|].
  intros Hrun. apply exploreFromCell_more, IH, Hrun.
Qed.

(** ** [explore]: from the search to the published results *)

Lemma startExploration_run fuel start w :
  startExploration fuel start w
  = match exploreFromCell fuel [start] (List.length (sets w))
            (List.length (arrays w)) (search_started w) with
    | Some (Returned _, w1) => Some (Returned (List.length (arrays w)), w1)
    | Some (Thrown e, w1) => Some (Thrown e, w1)
    | None => None
    end.
Proof. reflexivity. Qed.

Lemma startExploration_fuel fuel fuel' start w r :
  (fuel <= fuel')%nat ->
  startExploration fuel start w = Some r ->
  startExploration fuel' start w = Some r.
Proof.
  intros Hle. rewrite !startExploration_run.
  destruct (exploreFromCell fuel _ _ _ _) as [[r1 w1]|] eqn:E; [|discriminate].
  rewrite (exploreFromCell_fuel _ _ _ _ _ _ _ Hle E). exact id.
Qed.

Lemma explore_fuel fuel fuel' w r :
  (fuel <= fuel')%nat ->
  explore fuel w = Some r -> explore fuel' w = Some r.
Proof.
  intros Hle. unfold explore.
  apply bind_more_k. intros start w1 r1. apply bind_more.
  intros r2. apply startExploration_fuel, Hle.
Qed.

Lemma logPaths_forEach_run l : forall i w,
  logPaths_forEach l i w = Some (Returned tt, logged_all (summary l i) w).
Proof.
  induction l as [|res l IH]; intros i w; simpl.
  - unfold ret, logged_all, upd_store, set_log.
    destruct w as [[] ? ? ? ?]. simpl. rewrite app_nil_r. reflexivity.
  - unfold bind. rewrite addLog_run, IH.
    unfold logged_all, logged, upd_store, set_log. simpl.
    rewrite <- app_assoc. reflexivity.
Qed.

Lemma logPaths_run a w shortest rest :
  Array_sort (array_at a w) = shortest :: rest ->
  (a < List.length (arrays w))%nat ->
  logPaths a w
  = Some (Returned tt,
          logged ("Chemin le plus court : "
                  +:+ pretty (PathCandidate.length shortest) +:+ " cases.")
            (logged_all (summary (shortest :: rest) 0)
               (logged "Résumé des chemins vers la sortie"
                  (sorted_in_place a w)))).
Proof.
  intros Hsort Ha. unfold logPaths, bind at 1, modify.
  unfold bind at 1. rewrite addLog_run.
  unfold bind at 1, get. fold (sorted_in_place a w).
  assert (array_at a (logged "Résumé des chemins vers la sortie"
                        (sorted_in_place a w)) = shortest :: rest) as ->.
  { unfold array_at at 1. simpl.
    rewrite list_lookup_insert_eq by assumption. exact Hsort. }
  unfold bind. rewrite logPaths_forEach_run. reflexivity.
Qed.

Lemma sort_insert_perm r l : sort_insert r l ≡ₚ r :: l.
Proof.
  induction l as [|b l IH]; simpl; [reflexivity|].
  destruct (_ <=? _)%nat; [reflexivity|].
  rewrite IH. apply Permutation_swap.
Qed.

Lemma Array_sort_perm l : Array_sort l ≡ₚ l.
Proof.
  induction l as [|r l IH]; simpl; [reflexivity|].
  rewrite sort_insert_perm, IH. reflexivity.
Qed.

Lemma sort_insert_sorted r l :
  StronglySorted ascending l -> StronglySorted ascending (sort_insert r l).
Proof.
  induction 1 as [|b l Hs IH Hb]; simpl.
  - repeat constructor.
  - destruct (_ <=? _)%nat eqn:E.
    + apply Nat.leb_le in E. constructor; [constructor; assumption|].
      constructor; [exact E|].
      eapply Forall_impl; [exact Hb|]. unfold ascending. intros; lia.
    + apply Nat.leb_gt in E. constructor; [exact IH|].
      rewrite sort_insert_perm. constructor; [unfold ascending; lia | exact Hb].
Qed.

Lemma Array_sort_sorted l : StronglySorted ascending (Array_sort l).
Proof.
  induction l as [|r l IH]; simpl; [constructor|].
  apply sort_insert_sorted, IH.
Qed.

(** The sort is stable: candidates of equal [length] keep the order in which
    they were found. *)
Lemma sort_insert_stable n r l :
  filter (fun c => PathCandidate.length c = n) (sort_insert r l)
  = filter (fun c => PathCandidate.length c = n) (r :: l).
Proof.
  induction l as [|b l IH]; simpl; [reflexivity|].
  destruct (_ <=? _)%nat eqn:E; [reflexivity|].
  apply Nat.leb_gt in E.
  rewrite (filter_cons _ b), IH, !filter_cons.
  repeat case_decide; try reflexivity; lia.
Qed.

Lemma Array_sort_stable n l :
  filter (fun c => PathCandidate.length c = n) (Array_sort l)
  = filter (fun c => PathCandidate.length c = n) l.
Proof.
  induction l as [|r l IH]; simpl; [reflexivity|].
  rewrite sort_insert_stable, !filter_cons, IH. reflexivity.
Qed.

Lemma StronglySorted_adjacent (l : list PathCandidate) :
  StronglySorted ascending l ->
  forall i r1 r2, l !! i = Some r1 -> l !! S i = Some r2 -> ascending r1 r2.
Proof.
  induction 1 as [|b l Hs IH Hb]; intros i r1 r2 H1 H2; [discriminate|].
  destruct i as [|i]; simpl in *.
  - inversion H1; subst. rewrite Forall_forall in Hb. apply Hb.
    eapply list_elem_of_lookup_2, H2.
  - eapply IH; eassumption.
Qed.

Lemma StronglySorted_head (l : list PathCandidate) r0 :
  StronglySorted ascending l -> head l = Some r0 ->
  forall r, r ∈ l -> ascending r0 r.
Proof.
  intros Hs Hh r Hr. destruct Hs as [|b l Hs Hb]; [discriminate|].
  simpl in Hh. inversion Hh; subst.
  apply elem_of_cons in Hr as [-> | Hr]; [unfold ascending; lia|].
  rewrite Forall_forall in Hb. apply Hb, Hr.
Qed.

(** What [explore] does with the outcome of the search. *)
Lemma explore_run fuel w r w' :
  explore fuel w = Some (r, w') ->
  exists w1,
    exploreFromCell fuel [_position (store w)] (List.length (sets w))
      (List.length (arrays w)) (search_started w) = Some (Returned tt, w1)
    /\ dfs_le (List.length (sets w)) (List.length (arrays w))
         (search_started w) w1
    /\ foundPaths fuel w = Some (array_at (List.length (arrays w)) w1)
    /\ r = Returned tt
    /\ calls w' = calls w1 /\ gw w' = gw w1
    /\ ((array_at (List.length (arrays w)) w1 = []
         /\ w' = logged "Aucun chemin vers la sortie trouvé." w1)
        \/ (exists shortest rest,
              Array_sort (array_at (List.length (arrays w)) w1) = shortest :: rest
              /\ _results (store w') = List.length (arrays w)
              /\ results w' = shortest :: rest
              /\ _log (store w')
                 = (_log (store w1)
                    ++ ["Résumé des chemins vers la sortie"]
                    ++ summary (shortest :: rest) 0
                    ++ ["Chemin le plus court : "
                        +:+ pretty (PathCandidate.length shortest)
                        +:+ " cases."])%list)).
Proof.
  unfold explore, foundPaths. unfold bind at 1, get. unfold bind at 1.
  rewrite startExploration_run.
  destruct (exploreFromCell _ _ _ _ _) as [[r1 w1]|] eqn:E; [|discriminate].
  pose proof (exploreFromCell_ok _ _ _ _ _ _ _ E) as [-> Hle].
  unfold bind at 1, get.
  intros Hrun. exists w1. split; [reflexivity|]. split; [exact Hle|].
  split; [reflexivity|].
  set (a := List.length (arrays w)) in *.
  assert (a < List.length (arrays w1))%nat as Ha.
  { rewrite (dfs_arrays_length _ _ _ _ Hle). unfold search_started. simpl.
    rewrite length_app. simpl. lia. }
  destruct (array_at a w1) as [|r0 found] eqn:Hfound; simpl in Hrun.
  - rewrite addLog_run in Hrun. inversion Hrun; subst.
    split_and!; auto.
  - unfold bind at 1, modify in Hrun.
    destruct (Array_sort (r0 :: found)) as [|shortest rest] eqn:Hsort.
    { pose proof (Array_sort_perm (r0 :: found)) as Hp. rewrite Hsort in Hp.
      apply Permutation_nil_l in Hp. discriminate. }
    rewrite (logPaths_run a _ shortest rest) in Hrun.
    + inversion Hrun; subst. split_and!; auto. right.
      exists shortest, rest. split_and!; auto.
      * unfold results, array_at. simpl.
        rewrite list_lookup_insert_eq by exact Ha. simpl.
        unfold array_at in Hfound |- *. simpl. rewrite Hfound. exact Hsort.
      * unfold_worlds. unfold logged_all. simpl. rewrite <- !app_assoc.
        reflexivity.
    + unfold array_at in *. simpl. rewrite Hfound. exact Hsort.
    + exact Ha.
Qed.

Lemma explore_map fuel w r w' :
  explore fuel w = Some (r, w') ->
  forall k, is_Some (_map (store w) !! k) -> is_Some (_map (store w') !! k).
Proof.
  unfold explore. unfold bind at 1, get. unfold bind at 1.
  rewrite startExploration_run.
  destruct (exploreFromCell _ _ _ _ _) as [[r1 w1]|] eqn:E; [|discriminate].
  pose proof (exploreFromCell_ok _ _ _ _ _ _ _ E) as [-> Hle].
  unfold bind at 1, get.
  set (a0 := List.length (arrays w)) in *.
  assert (a0 < List.length (arrays w1))%nat as Ha.
  { rewrite (dfs_arrays_length _ _ _ _ Hle). unfold search_started. simpl.
    rewrite length_app. simpl. lia. }
  assert (forall k, is_Some (_map (store w) !! k) ->
                    is_Some (_map (store w1) !! k)) as Hkeep
    by (intros k; apply (dfs_map _ _ _ _ Hle)).
  destruct (array_at a0 w1) as [|r0 found] eqn:Hfound; simpl.
  - rewrite addLog_run. intros [= <- <-]. exact Hkeep.
  - unfold bind at 1, modify.
    destruct (Array_sort (r0 :: found)) as [|shortest rest] eqn:Hsort.
    { pose proof (Array_sort_perm (r0 :: found)) as Hp. rewrite Hsort in Hp.
      apply Permutation_nil_l in Hp. discriminate. }
    rewrite (logPaths_run a0 _ shortest rest).
    + intros [= <- <-]. exact Hkeep.
    + unfold array_at in *. simpl. rewrite Hfound. exact Hsort.
    + exact Ha.
Qed.

Lemma explore_after_search fuel w w1 :
  exploreFromCell fuel [_position (store w)] (List.length (sets w))
    (List.length (arrays w)) (search_started w) = Some (Returned tt, w1) ->
  exists w', explore fuel w = Some (Returned tt, w').
Proof.
  intros Hsearch.
  pose proof (exploreFromCell_ok _ _ _ _ _ _ _ Hsearch) as [_ Hle].
  unfold explore. unfold bind at 1, get. unfold bind at 1.
  rewrite startExploration_run, Hsearch.
  unfold bind at 1, get.
  set (a0 := List.length (arrays w)) in *.
  assert (a0 < List.length (arrays w1))%nat as Ha.
  { rewrite (dfs_arrays_length _ _ _ _ Hle). unfold search_started. simpl.
    rewrite length_app. simpl. lia. }
  destruct (array_at a0 w1) as [|r0 found] eqn:Hfound; simpl.
  - rewrite addLog_run. eexists. reflexivity.
  - unfold bind at 1, modify.
    destruct (Array_sort (r0 :: found)) as [|shortest rest] eqn:Hsort.
    { pose proof (Array_sort_perm (r0 :: found)) as Hp. rewrite Hsort in Hp.
      apply Permutation_nil_l in Hp. discriminate. }
    rewrite (logPaths_run a0 _ shortest rest).
    + eexists. reflexivity.
    + unfold array_at in *. simpl. rewrite Hfound. exact Hsort.
    + exact Ha.
Qed.

Lemma search_started_set_at w : set_at (List.length (sets w)) (search_started w) = ∅.
Proof.
  unfold set_at, search_started. simpl.
  rewrite lookup_app_r by lia. rewrite Nat.sub_diag. reflexivity.
Qed.

Lemma search_started_array_at w :
  array_at (List.length (arrays w)) (search_started w) = [].
Proof.
  unfold array_at, search_started. simpl.
  rewrite lookup_app_r by lia. rewrite Nat.sub_diag. reflexivity.
Qed.

Lemma search_started_valid w :
  valid_refs (List.length (sets w)) (List.length (arrays w)) (search_started w).
Proof.
  unfold valid_refs, search_started. simpl. rewrite !length_app. simpl. lia.
Qed.

(** When the search found nothing, a reader of [results] sees what it saw
    before. *)
Lemma results_untouched v w w1 :
  dfs_le v (List.length (arrays w)) (search_started w) w1 ->
  array_at (List.length (arrays w)) w1 = [] ->
  results w1 = results w.
Proof.
  intros Hle Hnone. unfold results.
  rewrite (dfs_results _ _ _ _ Hle). simpl.
  set (l := _results (store w)).
  destruct (decide (l = List.length (arrays w))) as [-> | Hne].
  - rewrite Hnone. unfold array_at.
    rewrite lookup_ge_None_2 by lia. reflexivity.
  - unfold array_at. rewrite (dfs_arrays_other _ _ _ _ Hle) by exact Hne.
    unfold search_started. simpl.
    destruct (decide (l < List.length (arrays w))%nat).
    + rewrite lookup_app_l by assumption. reflexivity.
    + rewrite !lookup_ge_None_2; [reflexivity | lia |].
      rewrite length_app. simpl. lia.
Qed.

(** ** The search ends in a finite maze *)

Section Termination.

(** The maze is finite: over the states [reachable_state] the server can be
    in, [discover] only ever reports cells whose keys are in [universe]. *)
Variable reachable_state : G -> Prop.
Variable universe : gset string.

Hypothesis move_keeps : forall g url px py,
  reachable_state g -> reachable_state (gw_move g url px py).2.

Hypothesis discover_keeps : forall g url,
  reachable_state g -> reachable_state (gw_discover g url).2.

Hypothesis discover_bounded : forall g url cells,
  reachable_state g -> (gw_discover g url).1 = inl cells ->
  forall c, c ∈ cells -> coordKey (coords_of c) ∈ universe.

Section Frames.

Variables (v a : loc).

Lemma unvisited_dfs_le w w' :
  dfs_le v a w w' -> (unvisited universe v w' <= unvisited universe v w)%nat.
Proof.
  intros Hle. unfold unvisited. apply subseteq_size.
  pose proof (dfs_visited _ _ _ _ Hle). set_solver.
Qed.

Lemma unvisited_io_le w w' : io_le w w' -> unvisited universe v w' = unvisited universe v w.
Proof. intros Hle. unfold unvisited, set_at. rewrite (io_sets _ _ Hle). reflexivity. Qed.

Lemma unvisited_markVisited key w :
  (v < List.length (sets w))%nat -> key ∉ set_at v w ->
  (unvisited universe v (set_sets (<[v := {[key]} ∪ set_at v w]> (sets w)) w)
   + (if decide (key ∈ universe) then 1 else 0)
   <= unvisited universe v w)%nat.
Proof.
  intros Hv Hfresh. unfold unvisited. rewrite set_at_markVisited by exact Hv.
  destruct (decide (key ∈ universe)) as [Hin | Hout].
  - assert (universe ∖ ({[key]} ∪ set_at v w) ⊂ universe ∖ set_at v w) as Hsub.
    { split; [set_solver|]. intros Hback.
      assert (key ∈ universe ∖ set_at v w) as Hk by set_solver.
      apply Hback in Hk. set_solver. }
    apply subset_size in Hsub. lia.
  - rewrite Nat.add_0_r. apply subseteq_size. set_solver.
Qed.

Lemma exploreNeighbors_terminates fuel current p :
  (forall q w,
     reachable_state (gw w) -> valid_refs v a w ->
     coordKey (getCurrentCellFromPath q) ∈ universe ->
     (unvisited universe v w < fuel)%nat ->
     exists w', exploreFromCell fuel q v a w = Some (Returned tt, w')
                /\ reachable_state (gw w')) ->
  forall neighbors w,
    Forall (fun c => coordKey (coords_of c) ∈ universe) neighbors ->
    reachable_state (gw w) -> valid_refs v a w ->
    (unvisited universe v w < fuel)%nat ->
    exists w',
      exploreNeighbors (exploreFromCell fuel) current neighbors p v a w
      = Some (Returned tt, w')
      /\ reachable_state (gw w').
Proof.
  intros IH.
  induction neighbors as [|cell rest IHrest]; intros w Hkeys Hreach Hvalid Hsize.
  - exists w. split; [reflexivity | exact Hreach].
  - apply Forall_cons in Hkeys as [Hkey Hkeys]. simpl.
    assert (exists w1,
      handleCellExploration (exploreFromCell fuel) current cell p v a w
      = Some (Returned tt, w1) /\ reachable_state (gw w1)) as (w1 & E & Hreach1).
    { unfold handleCellExploration, bind at 1, canExploreCell, get.
      destruct (negb _ && move cell && negb _); simpl;
        [|exists w; split; [reflexivity | exact Hreach]].
      destruct (isGoalCell cell).
      - rewrite recordExitPath_run. eexists. split; [reflexivity|].
        exact Hreach.
      - unfold bind.
        destruct (IH (buildNextPath p cell) w Hreach Hvalid) as (w2 & E2 & Hreach2).
        { unfold buildNextPath, getCurrentCellFromPath. rewrite last_snoc.
          exact Hkey. }
        { exact Hsize. }
        rewrite E2, returnToPrevious_run.
        pose proof (move_keeps (gw w2) (_moveUrl (store w2)) (x current)
                      (y current) Hreach2) as Hreach3.
        destruct (gw_move _ _ _ _) as [[data | err] g]; eexists;
          (split; [reflexivity | exact Hreach3]). }
    unfold bind. rewrite E.
    pose proof (handleCellExploration_ok _ v a (exploreFromCell_ok fuel v a)
                  _ _ _ _ _ _ E) as [_ Hle].
    apply IHrest; [exact Hkeys | exact Hreach1 | |].
    + eapply valid_refs_dfs_le; eassumption.
    + pose proof (unvisited_dfs_le _ _ Hle). lia.
Qed.

Lemma exploreFromCell_terminates fuel : forall p w,
  reachable_state (gw w) -> valid_refs v a w ->
  (unvisited universe v w
   + (if decide (coordKey (getCurrentCellFromPath p) ∈ universe) then 0 else 1)
   < fuel)%nat ->
  exists w', exploreFromCell fuel p v a w = Some (Returned tt, w')
             /\ reachable_state (gw w').
Proof.
  induction fuel as [|fuel IH]; intros p w Hreach Hvalid Hsize; [lia|].
  simpl. unfold bind at 1, isVisited, get.
  destruct (bool_decide _) eqn:Hvis;
    [exists w; split; [reflexivity | exact Hreach]|].
  apply bool_decide_eq_false in Hvis.
  unfold bind at 1. rewrite markVisited_run.
  unfold bind at 1. rewrite tryMoveToCell_run.
  set (key := coordKey (getCurrentCellFromPath p)) in *.
  set (wm := set_sets (<[v := {[key]} ∪ set_at v w]> (sets w)) w).
  assert (unvisited universe v wm < fuel)%nat as Hsizem.
  { pose proof (unvisited_markVisited key w (proj1 Hvalid) Hvis) as Hm.
    fold wm in Hm. destruct (decide (key ∈ universe)); lia. }
  assert (valid_refs v a wm) as Hvalidm.
  { eapply valid_refs_dfs_le; [apply dfs_le_markVisited | exact Hvalid]. }
  pose proof (move_keeps (gw wm) (_moveUrl (store wm))
                (x (getCurrentCellFromPath p)) (y (getCurrentCellFromPath p))
                Hreach) as Hreach1.
  destruct (gw_move _ _ _ _) as [[data | err] g]; simpl in Hreach1 |- *;
    [|eexists; split; [reflexivity | exact Hreach1]].
  unfold bind at 1, logExplorationStep. rewrite addLog_run.
  unfold bind at 1. rewrite getDiscoverableNeighbors_run.
  match goal with
  | |- context [after_discover ?w0 _ _] =>
      assert (io_le wm w0) as Hle
        by (etransitivity; [apply io_le_after_move | apply io_le_logged]);
      set (w3 := w0) in *
  end.
  pose proof (discover_keeps (gw w3) (_discoverUrl (store w3)) Hreach1)
    as Hreach2.
  pose proof (discover_bounded (gw w3) (_discoverUrl (store w3))) as Hbound.
  destruct (gw_discover _ _) as [[cells | err] g1]; simpl in Hreach2, Hbound;
    [|eexists; split; [reflexivity | exact Hreach2]].
  assert (io_le wm (after_discover w3 cells g1)) as Hle2
    by (etransitivity; [exact Hle | apply io_le_after_discover]).
  apply exploreNeighbors_terminates.
  - intros q w4 Hreach4 Hvalid4 Hkey4 Hsize4. apply IH; try assumption.
    rewrite decide_True by exact Hkey4. lia.
  - apply Forall_forall. intros c Hc. eapply Hbound; [exact Hreach1 | reflexivity | exact Hc].
  - exact Hreach2.
  - eapply valid_refs_dfs_le; [apply io_le_dfs_le, Hle2 | exact Hvalidm].
  - rewrite (unvisited_io_le _ _ Hle2). exact Hsizem.
Qed.

End Frames.

(** In a finite maze [explore] returns: a fuel of two more than the number
    of keys of the maze is enough. *)
Lemma explore_terminates w :
  reachable_state (gw w) ->
  exists w', explore (S (S (size universe))) w = Some (Returned tt, w').
Proof.
  intros Hreach.
  destruct (exploreFromCell_terminates (List.length (sets w))
              (List.length (arrays w)) (S (S (size universe)))
              [_position (store w)] (search_started w))
    as (w1 & Hsearch & _).
  - exact Hreach.
  - apply search_started_valid.
  - unfold unvisited. rewrite search_started_set_at.
    assert (size (universe ∖ ∅) <= size universe)%nat
      by (apply subseteq_size; set_solver).
    destruct (decide _); lia.
  - eapply explore_after_search, Hsearch.
Qed.

End Termination.

(** C3.  [explore] never rejects, and a Gateway failure costs one branch
    only.  In turn: in a finite maze [explore] comes to an end, whatever the
    Gateway answers; a run of [explore] ends by returning, and when the
    search found candidates [results] holds them all; a frame returns too,
    having only appended to [allPaths] and to the log; a frame whose move is
    rejected, or whose [discover] is, returns with the failure logged and
    every array as it was; and in the loop of the parent the handling of a
    neighbor always returns, whatever happened below it, and the loop goes
    on with the neighbors that remain. *)
Theorem explore_never_rejects :
  (forall (reachable_state : G -> Prop) (universe : gset string),
     (forall g url px py,
        reachable_state g -> reachable_state (gw_move g url px py).2) ->
     (forall g url,
        reachable_state g -> reachable_state (gw_discover g url).2) ->
     (forall g url cells,
        reachable_state g -> (gw_discover g url).1 = inl cells ->
        forall c, c ∈ cells -> coordKey (coords_of c) ∈ universe) ->
     forall w, reachable_state (gw w) ->
       exists w', explore (S (S (size universe))) w = Some (Returned tt, w'))
  /\ (forall fuel w r w',
     explore fuel w = Some (r, w') ->
     r = Returned tt
     /\ forall found, foundPaths fuel w = Some found -> found <> [] ->
          results w' ≡ₚ found)
  /\ (forall fuel p v a w r w',
        exploreFromCell fuel p v a w = Some (r, w') ->
        r = Returned tt
        /\ array_at a w `prefix_of` array_at a w'
        /\ _log (store w) `prefix_of` _log (store w'))
  /\ (forall fuel p v a w err g1,
        coordKey (getCurrentCellFromPath p) ∉ set_at v w ->
        gw_move (gw w) (_moveUrl (store w))
          (x (getCurrentCellFromPath p)) (y (getCurrentCellFromPath p))
        = (inr err, g1) ->
        exists w',
          exploreFromCell (S fuel) p v a w = Some (Returned tt, w')
          /\ arrays w' = arrays w
          /\ calls w'
             = (calls w ++ [CallMove (_moveUrl (store w))
                              (x (getCurrentCellFromPath p))
                              (y (getCurrentCellFromPath p)) (inr err)])%list
          /\ _log (store w')
             = (_log (store w)
                ++ moveErrorLogs (getCurrentCellFromPath p) err)%list)
  /\ (forall fuel p v a w data g1 err g2,
        coordKey (getCurrentCellFromPath p) ∉ set_at v w ->
        gw_move (gw w) (_moveUrl (store w))
          (x (getCurrentCellFromPath p)) (y (getCurrentCellFromPath p))
        = (inl data, g1) ->
        gw_discover g1 (url_discover data) = (inr err, g2) ->
        exists w',
          exploreFromCell (S fuel) p v a w = Some (Returned tt, w')
          /\ arrays w' = arrays w
          /\ calls w'
             = (calls w ++ [CallMove (_moveUrl (store w))
                              (x (getCurrentCellFromPath p))
                              (y (getCurrentCellFromPath p)) (inl data);
                            CallDiscover (url_discover data) (inr err)])%list
          /\ _log (store w')
             = (_log (store w)
                ++ ["Exploration (" +:+ pretty (List.length p) +:+ ") : ("
                    +:+ pretty (x (getCurrentCellFromPath p)) +:+ ", "
                    +:+ pretty (y (getCurrentCellFromPath p)) +:+ ")";
                    "Erreur lors de la découverte : "
                    +:+ err_toString err])%list)
  /\ (forall fuel current cell rest p v a w r w',
        exploreNeighbors (exploreFromCell fuel) current (cell :: rest) p v a w
        = Some (r, w') ->
        exists w1,
          handleCellExploration (exploreFromCell fuel) current cell p v a w
          = Some (Returned tt, w1)
          /\ array_at a w `prefix_of` array_at a w1
          /\ exploreNeighbors (exploreFromCell fuel) current rest p v a w1
             = Some (r, w')).
Proof.
  split_and!.
  - intros reachable_state universe Hmove Hkeep Hbound w Hreach.
    eapply explore_terminates; eassumption.
  - intros fuel w r w' Hrun.
    destruct (explore_run _ _ _ _ Hrun)
      as (w1 & _ & _ & Hfound & -> & _ & _ & Hcase).
    split; [reflexivity|]. intros found Hf Hne.
    rewrite Hfound in Hf. inversion Hf; subst found.
    destruct Hcase as [[Hnone _] | (shortest & rest & Hsort & _ & Hres & _)].
    + contradiction.
    + rewrite Hres, <- Hsort. apply Array_sort_perm.
  - intros fuel p v a w r w' Hrun.
    apply exploreFromCell_ok in Hrun as [-> Hle].
    split_and!; [reflexivity | apply Hle | apply Hle].
  - intros fuel p v a w err g1 Hfresh Hmove.
    destruct (exploreFromCell_move_rejected fuel p v a w err g1 Hfresh Hmove)
      as (w' & Hrun & Ha & Hc & _ & Hl & _).
    exists w'. split_and!; assumption.
  - intros fuel p v a w data g1 err g2 Hfresh Hmove Hdisc.
    destruct (exploreFromCell_discover_rejected fuel p v a w data g1 err g2
                Hfresh Hmove Hdisc)
      as (w' & Hrun & Ha & Hc & _ & Hl).
    exists w'. split_and!; assumption.
  - intros fuel current cell rest p v a w r w'. simpl. unfold bind.
    destruct (handleCellExploration _ _ _ _ _ _ w) as [[r1 w1]|] eqn:E;
      [|discriminate].
    apply (handleCellExploration_ok _ v a (exploreFromCell_ok fuel v a)) in E
      as [-> Hle].
    intros Hrest. exists w1. split_and!; [reflexivity | apply Hle | exact Hrest].
Qed.

Lemma exit_path_kinds cs start c (kind_at : CellCoordinates -> CELL_TYPE.t) :
  (forall cell, discovered cs cell -> value cell = kind_at (coords_of cell)) ->
  exit_path cs start c ->
  exists inner last,
    PathCandidate.path c = start :: (inner ++ [last])%list
    /\ kind_at last = CELL_TYPE.stop
    /\ Forall (fun q => kind_at q <> CELL_TYPE.trap
                        /\ kind_at q <> CELL_TYPE.stop) inner.
Proof.
  intros Hkind (inner & e & Hpath & Hinner & (Hd & _ & Hstop) & _).
  exists (map coords_of inner), (coords_of e). split_and!.
  - exact Hpath.
  - rewrite <- (Hkind e Hd). exact Hstop.
  - apply Forall_fmap. eapply Forall_impl; [exact Hinner|].
    intros q (Hq & _ & Htrap & Hnstop). simpl.
    rewrite <- (Hkind q Hq). split; assumption.
Qed.

(** C2, as amended.  Every candidate the search of [explore] records, and
    with that every candidate [explore] publishes, is the start followed by
    cells the Gateway reported as reachable, none of them a trap, of which
    the last and only the last is of kind [stop]; no coordinate occurs twice
    in it.  For a Gateway that reports one kind per coordinate this reads:
    the last coordinate is an exit, and the coordinates between the start
    and it are neither traps nor exits.  (When the search records nothing,
    nothing is published and [results] is what it was.) *)
Theorem explore_records_safe_exit_paths fuel w r w' :
  explore fuel w = Some (r, w') ->
  exists found,
    foundPaths fuel w = Some found
    /\ (found = [] -> results w' = results w)
    /\ (found <> [] -> results w' ≡ₚ found)
    /\ Forall
         (fun c =>
            exit_path (calls w') (_position (store w)) c
            /\ NoDup (PathCandidate.path c)
            /\ forall kind_at : CellCoordinates -> CELL_TYPE.t,
                 (forall cell, discovered (calls w') cell ->
                               value cell = kind_at (coords_of cell)) ->
                 exists inner last,
                   PathCandidate.path c
                   = _position (store w) :: (inner ++ [last])%list
                   /\ kind_at last = CELL_TYPE.stop
                   /\ Forall (fun q => kind_at q <> CELL_TYPE.trap
                                       /\ kind_at q <> CELL_TYPE.stop) inner)
         found.
Proof.
  intros Hrun.
  destruct (explore_run _ _ _ _ Hrun)
    as (w1 & Hsearch & Hle & Hfound & _ & Hcalls & _ & Hcase).
  set (a := List.length (arrays w)) in *.
  set (v := List.length (sets w)) in *.
  exists (array_at a w1). split; [exact Hfound|].
  split_and!.
  - intros Hnone.
    destruct Hcase as [[_ ->] | (shortest & rest & Hsort & _ & _)].
    + change (results w1 = results w).
      eapply results_untouched; eassumption.
    + rewrite Hnone in Hsort. discriminate.
  - intros Hsome.
    destruct Hcase as [[Hnone _] | (shortest & rest & Hsort & _ & Hres & _)].
    + contradiction.
    + rewrite Hres, <- Hsort. apply Array_sort_perm.
  - rewrite Hcalls.
    assert (recorded_ok v a (_position (store w)) w1) as [_ Hall].
    { eapply (exploreFromCell_recorded v a (_position (store w)) fuel);
        [ | | | | exact Hsearch].
      - exists []. split; [reflexivity | constructor].
      - apply NoDup_singleton.
      - intros k Hk Hne. apply list_elem_of_singleton in Hk. subst k.
        exfalso. apply Hne. reflexivity.
      - split; [apply search_started_valid|].
        unfold a. rewrite search_started_array_at. constructor. }
    eapply Forall_impl; [exact Hall|].
    intros c Hc. split_and!.
    + exact Hc.
    + destruct Hc as (_ & _ & _ & _ & _ & Hnd & _).
      eapply NoDup_fmap_1, Hnd.
    + intros kind_at Hkind. eapply exit_path_kinds; eassumption.
Qed.

(** C4.  When the search of [explore] found at least one candidate, a reader
    of [results] sees, once [explore] has returned, the candidates found,
    sorted ascending by [length]: each entry is at most as long as the next,
    and [results[0]] is as short as any.  ([explore] stores the reference to
    the array first and sorts the array in place right after, with nothing
    in between that could read it.) *)
Theorem explore_publishes_sorted fuel w r w' first others :
  explore fuel w = Some (r, w') ->
  foundPaths fuel w = Some (first :: others) ->
  results w' = Array_sort (first :: others)
  /\ results w' ≡ₚ first :: others
  /\ (forall i r1 r2,
        results w' !! i = Some r1 -> results w' !! S i = Some r2 ->
        (PathCandidate.length r1 <= PathCandidate.length r2)%nat)
  /\ exists shortest,
       results w' !! 0%nat = Some shortest
       /\ forall c, c ∈ results w' ->
            (PathCandidate.length shortest <= PathCandidate.length c)%nat.
Proof.
  intros Hrun Hfound.
  destruct (explore_run _ _ _ _ Hrun)
    as (w1 & _ & _ & Hfound' & _ & _ & _ & Hcase).
  rewrite Hfound in Hfound'. inversion Hfound' as [Heq].
  destruct Hcase as [[Hnone _] | (shortest & rest & Hsort & _ & Hres & _)].
  - rewrite Hnone in Heq. discriminate.
  - rewrite <- Heq in Hsort.
    pose proof (Array_sort_sorted (first :: others)) as Hsorted.
    rewrite Hres, <- Hsort. split_and!.
    + reflexivity.
    + apply Array_sort_perm.
    + apply StronglySorted_adjacent, Hsorted.
    + rewrite Hsort. exists shortest. split; [reflexivity|].
      rewrite Hsort in Hsorted.
      apply (StronglySorted_head _ _ Hsorted). reflexivity.
Qed.

(** C10.  The first Gateway call of a run of [explore] is a move to the
    position the player is at already, made before any [discover]; when the
    Gateway rejects it, [explore] still returns, the search has found
    nothing, a reader of [results] sees what it saw before (nothing, after a
    start), and the log has gained the two entries of the failed move and
    the entry saying that no path was found. *)
Theorem explore_first_moves_to_start :
  (forall fuel w r w',
     explore fuel w = Some (r, w') ->
     exists res rest,
       calls w'
       = (calls w ++ CallMove (_moveUrl (store w)) (x (_position (store w)))
                       (y (_position (store w))) res :: rest)%list)
  /\ (forall fuel w err g1,
        gw_move (gw w) (_moveUrl (store w)) (x (_position (store w)))
          (y (_position (store w))) = (inr err, g1) ->
        exists w',
          explore (S fuel) w = Some (Returned tt, w')
          /\ calls w'
             = (calls w ++ [CallMove (_moveUrl (store w))
                              (x (_position (store w)))
                              (y (_position (store w))) (inr err)])%list
          /\ foundPaths (S fuel) w = Some []
          /\ results w' = results w
          /\ _log (store w')
             = (_log (store w) ++ moveErrorLogs (_position (store w)) err
                ++ ["Aucun chemin vers la sortie trouvé."])%list).
Proof.
  split.
  - intros fuel w r w' Hrun.
    destruct (explore_run _ _ _ _ Hrun) as (w1 & Hsearch & _ & _ & _ & -> & _).
    apply exploreFromCell_first_call in Hsearch; [exact Hsearch|].
    rewrite search_started_set_at. apply not_elem_of_empty.
  - intros fuel w err g1 Hmove.
    destruct (exploreFromCell_move_rejected fuel [_position (store w)]
                (List.length (sets w)) (List.length (arrays w))
                (search_started w) err g1)
      as (w1 & Hsearch & Ha & Hc & _ & Hl & Hr).
    { rewrite search_started_set_at. apply not_elem_of_empty. }
    { exact Hmove. }
    assert (array_at (List.length (arrays w)) w1 = []) as Hnone.
    { unfold array_at. rewrite Ha. apply search_started_array_at. }
    exists (logged "Aucun chemin vers la sortie trouvé." w1).
    split_and!.
    + unfold explore. unfold bind at 1, get. unfold bind at 1.
      rewrite startExploration_run, Hsearch.
      unfold bind at 1, get. rewrite Hnone. reflexivity.
    + exact Hc.
    + unfold foundPaths. rewrite startExploration_run, Hsearch, Hnone.
      reflexivity.
    + change (results w1 = results w).
      apply (results_untouched (List.length (sets w))); [|exact Hnone].
      eapply exploreFromCell_ok, Hsearch.
    + unfold_worlds. rewrite Hl. simpl. rewrite <- app_assoc. reflexivity.
Qed.

(** ** The navigator *)

Lemma followSteps_accepted steps tail : forall g url evs g' url',
  accepts g url steps evs g' url' ->
  forall w, gw w = g -> _moveUrl (store w) = url ->
  exists w1,
    followSteps (steps ++ tail) w = followSteps tail w1
    /\ calls w1 = (calls w ++ evs)%list
    /\ gw w1 = g' /\ _moveUrl (store w1) = url'
    /\ _log (store w1) = (_log (store w) ++ map moveLog steps)%list
    /\ arrays w1 = arrays w /\ sets w1 = sets w
    /\ _results (store w1) = _results (store w)
    /\ _isFinish (store w1) = _isFinish (store w)
    /\ _isExploring (store w1) = _isExploring (store w).
Proof.
  induction 1 as [g url | g url step rest data g1 evs g' url' Hmove _ IH];
    intros w Hg Hurl.
  - exists w. simpl. rewrite !app_nil_r. split_and!; auto.
  - simpl. unfold bind at 1, try_catch, bind at 1.
    rewrite moveToCell_run, Hg, Hurl, Hmove. simpl.
    match goal with
    | |- context [followSteps (rest ++ tail) ?w0] =>
        destruct (IH w0 eq_refl eq_refl)
          as (w1 & Hrun & Hc & Hg1 & Hu1 & Hl & Ha & Hs & Hr & Hf & He)
    end.
    exists w1. unfold_worlds. rewrite Hrun, Hc, Hl, <- !app_assoc. simpl.
    split_and!; auto. congruence.
Qed.

Lemma accepts_moves g url steps evs g' url' :
  accepts g url steps evs g' url' -> Forall2 move_to evs steps.
Proof.
  induction 1; constructor; auto. eexists _, _. reflexivity.
Qed.

Lemma followSteps_rejected step rest w err g1 :
  gw_move (gw w) (_moveUrl (store w)) (x step) (y step) = (inr err, g1) ->
  exists w1,
    followSteps (step :: rest) w = Some (Returned false, w1)
    /\ calls w1
       = (calls w ++ [CallMove (_moveUrl (store w)) (x step) (y step) (inr err)])%list
    /\ gw w1 = g1
    /\ _log (store w1) = (_log (store w) ++ failureLogs step err)%list
    /\ arrays w1 = arrays w /\ sets w1 = sets w
    /\ _results (store w1) = _results (store w)
    /\ _isFinish (store w1) = _isFinish (store w)
    /\ _isExploring (store w1) = _isExploring (store w)
    /\ _position (store w1) = _position (store w).
Proof.
  intros Hmove. simpl. unfold bind at 1, try_catch, bind at 1.
  rewrite moveToCell_run, Hmove. simpl.
  eexists. split; [reflexivity|]. unfold_worlds. rewrite <- app_assoc.
  split_and!; reflexivity.
Qed.

(** Whatever the Gateway answers, the loop ends, and its calls are moves to
    the first coordinates of [steps], one each and in order; when it ran to
    the end they are moves to all of them. *)
Lemma followSteps_calls steps : forall w,
  exists b w1 evs n,
    followSteps steps w = Some (Returned b, w1)
    /\ calls w1 = (calls w ++ evs)%list
    /\ Forall2 move_to evs (take n steps)
    /\ (b = true -> take n steps = steps).
Proof.
  induction steps as [|step rest IH]; intros w.
  - exists true, w, [], 0%nat. simpl. rewrite app_nil_r. split_and!; auto.
  - simpl. unfold bind at 1, try_catch, bind at 1. rewrite moveToCell_run.
    destruct (gw_move _ _ _ _) as [[data | err] g1]; simpl.
    + match goal with
      | |- context [followSteps rest ?w0] =>
          destruct (IH w0) as (b & w1 & evs & n & Hrun & Hc & Hmv & Hall)
      end.
      exists b, w1, (CallMove (_moveUrl (store w)) (x step) (y step) (inl data) :: evs),
        (S n).
      unfold_worlds. rewrite Hrun, Hc, <- app_assoc. simpl.
      split_and!; auto.
      * constructor; [eexists _, _; reflexivity | assumption].
      * intros Hb. rewrite Hall by assumption. reflexivity.
    + eexists false, _, [_], 1%nat. split; [reflexivity|]. unfold_worlds.
      split_and!; auto; [|discriminate].
      constructor; [eexists _, _; reflexivity | rewrite take_0; constructor].
Qed.

(** C5.  With no result to follow, [followShortestPath] logs that no path is
    available and marks the session finished; it calls the Gateway not at
    all, and the position, the map and the visited set stay as they were. *)
Theorem followShortestPath_no_results w :
  results w = [] ->
  exists w', followShortestPath w = Some (Returned tt, w')
    /\ _log (store w')
       = (_log (store w) ++ ["Aucun chemin disponible vers la sortie."])%list
    /\ _isFinish (store w') = true
    /\ calls w' = calls w /\ gw w' = gw w
    /\ _position (store w') = _position (store w)
    /\ _map (store w') = _map (store w)
    /\ _visited (store w') = _visited (store w).
Proof.
  intros Hres. unfold followShortestPath, bind, get. rewrite Hres. simpl.
  eexists. split_and!; reflexivity.
Qed.

(** C6.  When the Gateway accepts the moves to the coordinates [done] and
    then rejects (or lets time out) the move to [failed], the navigator has
    made exactly those calls and none for [rest], the coordinates after
    [failed]; the log ends with the failure, and the flag [_isFinish] is what
    it was before the call (false stays false). *)
Theorem followShortestPath_aborts_on_failure
    w shortest others first done failed rest evs g1 url1 err g2 :
  results w = shortest :: others ->
  PathCandidate.path shortest = first :: (done ++ failed :: rest)%list ->
  accepts (gw w) (_moveUrl (store w)) done evs g1 url1 ->
  gw_move g1 url1 (x failed) (y failed) = (inr err, g2) ->
  exists w', followShortestPath w = Some (Returned tt, w')
    /\ calls w'
       = (calls w ++ evs ++ [CallMove url1 (x failed) (y failed) (inr err)])%list
    /\ Forall2 move_to evs done
    /\ gw w' = g2
    /\ _log (store w')
       = (_log (store w)
          ++ ["Début du trajet vers la sortie ("
              +:+ pretty (PathCandidate.length shortest) +:+ " étapes)."]
          ++ map moveLog done ++ failureLogs failed err)%list
    /\ _isFinish (store w') = _isFinish (store w).
Proof.
  intros Hres Hpath Hacc Hrej.
  unfold followShortestPath. unfold bind at 1, get. rewrite Hres. simpl.
  rewrite Hpath. simpl. rewrite drop_0.
  unfold bind at 1. rewrite addLog_run. unfold bind at 1.
  match goal with
  | |- context [followSteps _ ?w0] =>
      destruct (followSteps_accepted done (failed :: rest) _ _ _ _ _ Hacc w0
                  eq_refl eq_refl)
        as (w1 & Hrun & Hc & Hg1 & Hu1 & Hl & Ha & Hs & Hr & Hf & He)
  end.
  rewrite Hrun. rewrite <- Hg1, <- Hu1 in Hrej.
  destruct (followSteps_rejected failed rest w1 err g2 Hrej)
    as (w2 & Hrun2 & Hc2 & Hg2 & Hl2 & _ & _ & _ & Hf2 & _).
  rewrite Hrun2. exists w2. split; [reflexivity|].
  unfold_worlds. rewrite Hc2, Hc, Hl2, Hl, Hu1, Hf2, Hf, <- !app_assoc.
  split_and!; auto. eapply accepts_moves, Hacc.
Qed.

(** C7.  With results at hand, [followShortestPath] walks [results[0]]: its
    calls are moves to the coordinates of that path after the first, at most
    one each and in order; when the Gateway accepts every one of them there
    is exactly one call per such coordinate (one less than the path has
    cells), the arrival is logged and [_isFinish] is set. *)
Theorem followShortestPath_walks_first_result w shortest others :
  results w = shortest :: others ->
  let steps := drop 1 (PathCandidate.path shortest) in
  (exists w' evs n,
     followShortestPath w = Some (Returned tt, w')
     /\ calls w' = (calls w ++ evs)%list
     /\ Forall2 move_to evs (take n steps))
  /\ (forall evs g' url',
        accepts (gw w) (_moveUrl (store w)) steps evs g' url' ->
        exists w', followShortestPath w = Some (Returned tt, w')
          /\ calls w' = (calls w ++ evs)%list
          /\ Forall2 move_to evs steps
          /\ List.length evs = (List.length (PathCandidate.path shortest) - 1)%nat
          /\ _log (store w')
             = (_log (store w)
                ++ ["Début du trajet vers la sortie ("
                    +:+ pretty (PathCandidate.length shortest) +:+ " étapes)."]
                ++ map moveLog steps
                ++ ["Le joueur est arrivé à la sortie !"])%list
          /\ _isFinish (store w') = true
          /\ _isExploring (store w') = false).
Proof.
  intros Hres steps. split.
  - unfold followShortestPath. unfold bind at 1, get. rewrite Hres. simpl.
    unfold bind at 1. rewrite addLog_run. unfold bind at 1.
    match goal with
    | |- context [followSteps _ ?w0] =>
        destruct (followSteps_calls steps w0)
          as (b & w1 & evs & n & Hrun & Hc & Hmv & _)
    end.
    fold steps. rewrite Hrun.
    destruct b; simpl; eexists _, evs, n; (split; [reflexivity|]); simpl;
      split; assumption.
  - intros evs g' url' Hacc.
    unfold followShortestPath. unfold bind at 1, get. rewrite Hres. simpl.
    unfold bind at 1. rewrite addLog_run. unfold bind at 1.
    match goal with
    | |- context [followSteps _ ?w0] =>
        destruct (followSteps_accepted steps [] _ _ _ _ _ Hacc w0
                    eq_refl eq_refl)
          as (w1 & Hrun & Hc & Hg1 & Hu1 & Hl & Ha & Hs & Hr & Hf & He)
    end.
    fold steps. rewrite app_nil_r in Hrun. rewrite Hrun. simpl.
    eexists. split; [reflexivity|]. unfold_worlds.
    rewrite Hc, Hl, <- !app_assoc.
    pose proof (accepts_moves _ _ _ _ _ _ Hacc) as Hmv.
    split_and!; auto.
    apply Forall2_length in Hmv. rewrite Hmv. unfold steps.
    rewrite length_drop. reflexivity.
Qed.

(** ** The automatic stepper *)

(** A run of the effect changes nothing a reader could see: it raises
    [isExploringNow], calls [exploreNext], which returns at its first line
    because the flag is raised, and lowers the flag again. *)
Lemma effect_run_inert w :
  exists w', effect_run w = Some (Returned tt, w')
    /\ calls w' = calls w /\ gw w' = gw w
    /\ _position (store w') = _position (store w)
    /\ _log (store w') = _log (store w)
    /\ _visited (store w') = _visited (store w)
    /\ _map (store w') = _map (store w)
    /\ _isExploring (store w') = _isExploring (store w).
Proof.
  unfold effect_run, bind at 1, get.
  destruct (negb _ && _isExploring (store w) && negb _).
  - unfold bind at 1, modify, Promise_finally, bind at 1, try_catch, exploreNext.
    unfold bind at 1, get. simpl. rewrite !orb_true_r. simpl.
    eexists. split_and!; reflexivity.
  - eexists. split_and!; reflexivity.
Qed.

(** ** The discovered map through a session *)

Lemma followSteps_io steps : forall w r w',
  followSteps steps w = Some (r, w') -> io_le w w'.
Proof.
  induction steps as [|step rest IH]; intros w r w'; simpl.
  - intros [= <- <-]. reflexivity.
  - unfold bind at 1, try_catch, bind at 1. rewrite moveToCell_run.
    destruct (gw_move _ _ _ _) as [[data | err] g1]; simpl.
    + intros Hrest. apply IH in Hrest.
      etransitivity; [|exact Hrest].
      etransitivity; [apply io_le_after_move | apply io_le_logged].
    + intros [= <- <-].
      etransitivity; [apply io_le_after_move_error | apply io_le_logged].
Qed.

Lemma followShortestPath_map w r w' :
  followShortestPath w = Some (r, w') ->
  forall k, is_Some (_map (store w) !! k) -> is_Some (_map (store w') !! k).
Proof.
  unfold followShortestPath. unfold bind at 1, get.
  destruct (results w) as [|shortest others]; simpl.
  - intros [= <- <-]. auto.
  - unfold bind at 1. rewrite addLog_run. unfold bind at 1.
    destruct (followSteps _ _) as [[[[|] | e] w1]|] eqn:E; try discriminate.
    + apply followSteps_io in E. simpl.
      intros [= <- <-] k Hk. apply (io_map _ _ E k Hk).
    + apply followSteps_io in E. intros [= <- <-] k Hk.
      apply (io_map _ _ E k Hk).
    + apply followSteps_io in E. intros [= <- <-] k Hk.
      apply (io_map _ _ E k Hk).
Qed.

Lemma map_keys_size (m m' : gmap string Cell) :
  (forall k, is_Some (m !! k) -> is_Some (m' !! k)) ->
  (size m <= size m')%nat.
Proof.
  intros Hkeep. rewrite <- !size_dom. apply subseteq_size.
  intros k. rewrite !elem_of_dom. apply Hkeep.
Qed.

(** C9.  Within a session the discovered map grows monotonically.  Merging
    any sequence of discover results keeps every coordinate key that was
    present, never lowers the number of cells, and only inserts or
    overwrites by key: an entry of the merged map is an old entry or a cell
    of one of the batches stored under that cell's own key, and every cell of
    every batch ends up with an entry under its key.  And the entry points
    of the store other than a reset, namely [explore], [followShortestPath]
    and a run of the effect, keep every key and never lower the number of
    cells. *)
Theorem discovered_map_monotone :
  (forall (batches : list (list Cell)) w,
     exists w', discoverAll batches w = Some (Returned tt, w')
       /\ (forall k, is_Some (_map (store w) !! k) ->
                     is_Some (_map (store w') !! k))
       /\ (size (_map (store w)) <= size (_map (store w')))%nat
       /\ (forall k c, _map (store w') !! k = Some c ->
             _map (store w) !! k = Some c
             \/ exists cells, cells ∈ batches /\ c ∈ cells
                              /\ coordKey (coords_of c) = k)
       /\ (forall cells c, cells ∈ batches -> c ∈ cells ->
             is_Some (_map (store w') !! coordKey (coords_of c))))
  /\ (forall w r w',
        (exists fuel, explore fuel w = Some (r, w'))
        \/ followShortestPath w = Some (r, w')
        \/ effect_run w = Some (r, w') ->
        (forall k, is_Some (_map (store w) !! k) ->
                   is_Some (_map (store w') !! k))
        /\ (size (_map (store w)) <= size (_map (store w')))%nat).
Proof.
  split.
  - intros batches w.
    destruct (discoverAll_run batches w)
      as (w' & Hrun & _ & _ & _ & _ & Hkeep & Hsize & Hfrom & Hall).
    exists w'. split_and!; assumption.
  - intros w r w' Hrun.
    assert (forall k, is_Some (_map (store w) !! k) ->
                      is_Some (_map (store w') !! k)) as Hkeep.
    { destruct Hrun as [[fuel Hrun] | [Hrun | Hrun]].
      - eapply explore_map, Hrun.
      - eapply followShortestPath_map, Hrun.
      - destruct (effect_run_inert w)
          as (w2 & Heff & _ & _ & _ & _ & _ & Hmap & _).
        rewrite Heff in Hrun. inversion Hrun; subst. rewrite Hmap. auto. }
    split; [exact Hkeep | apply map_keys_size, Hkeep].
Qed.

End Properties.

(** * Further properties of the store *)

Ltac unfold_steps :=
  unfold disarmed, after_moveTo_error, logged, logged_all, after_move,
    after_move_error, after_discover, after_discover_error in *;
  simpl in *.

Section Closure.

Context `{Gateway G}.

(** ** Relations every step of a run respects

    A preorder on worlds that each elementary step of [explore] respects is
    respected by the whole run. *)
Variable R : relation (World G).
Context `{!PreOrder R}.

Hypothesis R_markVisited : forall key v w,
  R w (set_sets (<[v := {[key]} ∪ set_at v w]> (sets w)) w).
Hypothesis R_after_move : forall w pos data g, R w (after_move w pos data g).
Hypothesis R_after_move_error : forall w pos err g,
  R w (after_move_error w pos err g).
Hypothesis R_logged : forall entry w, R w (logged entry w).
Hypothesis R_logged_all : forall entries w, R w (logged_all entries w).
Hypothesis R_after_discover : forall w cells g, R w (after_discover w cells g).
Hypothesis R_after_discover_error : forall w err g,
  R w (after_discover_error w err g).
Hypothesis R_pushed : forall p a w, R w (pushed p a w).
Hypothesis R_search_started : forall w, R w (search_started w).
Hypothesis R_set_results : forall a w, R w (upd_store (set_results a) w).
Hypothesis R_sorted_in_place : forall a w, R w (sorted_in_place a w).

Lemma handleCellExploration_closed recur v a :
  (forall p w r w', recur p v a w = Some (r, w') -> R w w') ->
  forall current cell p w r w',
    handleCellExploration recur current cell p v a w = Some (r, w') -> R w w'.
Proof.
  intros Hrec current cell p w r w'.
  unfold handleCellExploration, bind at 1, canExploreCell, get.
  destruct (negb _ && move cell && negb _); simpl.
  - destruct (isGoalCell cell).
    + rewrite recordExitPath_run. intros [= <- <-].
      etransitivity; [apply R_pushed | apply R_logged].
    + unfold bind.
      destruct (recur _ v a w) as [[[[] | e] w1]|] eqn:E; try discriminate.
      * apply Hrec in E. rewrite returnToPrevious_run.
        destruct (gw_move _ _ _ _) as [[data | err] g]; intros [= <- <-];
          (etransitivity; [exact E|]).
        -- etransitivity; [apply R_after_move | apply R_logged].
        -- etransitivity; [apply R_after_move_error | apply R_logged].
      * apply Hrec in E. intros [= <- <-]. exact E.
  - intros [= <- <-]. reflexivity.
Qed.

Lemma exploreNeighbors_closed recur v a :
  (forall p w r w', recur p v a w = Some (r, w') -> R w w') ->
  forall current neighbors p w r w',
    exploreNeighbors recur current neighbors p v a w = Some (r, w') -> R w w'.
Proof.
  intros Hrec current neighbors p.
  induction neighbors as [|cell rest IH]; intros w r w'; simpl.
  - intros [= <- <-]. reflexivity.
  - unfold bind.
    destruct (handleCellExploration _ _ _ _ _ _ w) as [[[[] | e] w1]|] eqn:E;
      try discriminate.
    + apply (handleCellExploration_closed _ _ _ Hrec) in E.
      intros Hrest. apply IH in Hrest. etransitivity; eassumption.
    + apply (handleCellExploration_closed _ _ _ Hrec) in E.
      intros [= <- <-]. exact E.
Qed.

Lemma exploreFromCell_closed fuel : forall p v a w r w',
  exploreFromCell fuel p v a w = Some (r, w') -> R w w'.
Proof.
  induction fuel as [|fuel IH]; intros p v a w r w'; simpl; [discriminate|].
  unfold bind at 1, isVisited, get.
  destruct (bool_decide _); [intros [= <- <-]; reflexivity|].
  unfold bind at 1. rewrite markVisited_run.
  unfold bind at 1. rewrite tryMoveToCell_run.
  pose proof (R_markVisited (coordKey (getCurrentCellFromPath p)) v w) as Hmark.
  destruct (gw_move _ _ _ _) as [[data | err] g]; simpl.
  - unfold bind at 1, logExplorationStep. rewrite addLog_run.
    unfold bind at 1. rewrite getDiscoverableNeighbors_run.
    match goal with
    | |- context [after_discover ?w0 _ _] =>
        assert (R w w0) as Hle
          by (etransitivity; [exact Hmark|];
              etransitivity; [apply R_after_move | apply R_logged])
    end.
    destruct (gw_discover _ _) as [[cells | err] g1].
    + intros Hrun.
      apply (exploreNeighbors_closed _ _ _ (fun q => IH q v a)) in Hrun.
      etransitivity; [exact Hle|].
      etransitivity; [apply R_after_discover | exact Hrun].
    + intros [= <- <-].
      etransitivity; [exact Hle | apply R_after_discover_error].
  - intros [= <- <-].
    etransitivity; [exact Hmark|].
    etransitivity; [apply R_after_move_error | apply R_logged].
Qed.

Lemma explore_closed fuel w r w' : explore fuel w = Some (r, w') -> R w w'.
Proof.
  unfold explore. unfold bind at 1, get. unfold bind at 1.
  rewrite startExploration_run.
  destruct (exploreFromCell _ _ _ _ _) as [[r1 w1]|] eqn:E; [|discriminate].
  pose proof (exploreFromCell_ok _ _ _ _ _ _ _ E) as [-> Hle].
  apply exploreFromCell_closed in E.
  assert (R w w1) as Hw1 by (etransitivity; [apply R_search_started | exact E]).
  unfold bind at 1, get.
  set (a0 := List.length (arrays w)) in *.
  assert (a0 < List.length (arrays w1))%nat as Ha.
  { rewrite (dfs_arrays_length _ _ _ _ Hle). unfold search_started. simpl.
    rewrite length_app. simpl. lia. }
  destruct (array_at a0 w1) as [|r0 found] eqn:Hfound; simpl.
  - rewrite addLog_run. intros [= <- <-].
    etransitivity; [exact Hw1 | apply R_logged].
  - unfold bind at 1, modify.
    destruct (Array_sort (r0 :: found)) as [|shortest rest] eqn:Hsort.
    { pose proof (Array_sort_perm (r0 :: found)) as Hp. rewrite Hsort in Hp.
      apply Permutation_nil_l in Hp. discriminate. }
    rewrite (logPaths_run a0 _ shortest rest).
    + intros [= <- <-]. etransitivity; [exact Hw1|].
      etransitivity; [apply R_set_results|].
      etransitivity; [apply R_sorted_in_place|].
      etransitivity; [apply R_logged|].
      etransitivity; [apply R_logged_all | apply R_logged].
    + unfold array_at in *. simpl. rewrite Hfound. exact Hsort.
    + exact Ha.
Qed.

Lemma followSteps_closed steps : forall w r w',
  followSteps steps w = Some (r, w') -> R w w'.
Proof.
  induction steps as [|step rest IH]; intros w r w'; simpl.
  - intros [= <- <-]. reflexivity.
  - unfold bind at 1, try_catch, bind at 1. rewrite moveToCell_run.
    destruct (gw_move _ _ _ _) as [[data | err] g1]; simpl.
    + intros Hrest. apply IH in Hrest.
      etransitivity; [|exact Hrest].
      etransitivity; [apply R_after_move | apply R_logged].
    + intros [= <- <-].
      etransitivity; [apply R_after_move_error | apply R_logged].
Qed.

End Closure.

Section Sessions.

Context `{Gateway G}.
Implicit Types (w : World G).

(** ** The mirror of the remote authority *)

Lemma replay_app (evs1 evs2 : list GatewayCall) : forall m,
  replay m (evs1 ++ evs2)
  = match replay m evs1 with
    | Some m' => replay m' evs2
    | None => None
    end.
Proof.
  induction evs1 as [|c evs1 IH]; intros m; simpl; [reflexivity|].
  destruct (answer m c); [apply IH | reflexivity].
Qed.

Global Instance tracks_preorder : PreOrder (@tracks G).
Proof.
  split.
  - intros w. exists []. rewrite app_nil_r. split; reflexivity.
  - intros w1 w2 w3 (evs1 & Hc1 & Hr1) (evs2 & Hc2 & Hr2).
    exists (evs1 ++ evs2)%list. split.
    + rewrite Hc2, Hc1, app_assoc. reflexivity.
    + rewrite replay_app, Hr1. exact Hr2.
Qed.

Lemma tracks_silent w w' :
  calls w' = calls w -> mirror (store w') = mirror (store w) -> tracks w w'.
Proof.
  intros Hc Hm. exists []. rewrite app_nil_r, Hm. split; [exact Hc | reflexivity].
Qed.

Lemma tracks_after_move w pos data g : tracks w (after_move w pos data g).
Proof.
  eexists [_]. split; [reflexivity|]. simpl.
  rewrite String.eqb_refl. reflexivity.
Qed.

Lemma tracks_after_move_error w pos err g :
  tracks w (after_move_error w pos err g).
Proof.
  eexists [_]. split; [reflexivity|]. simpl.
  rewrite String.eqb_refl. reflexivity.
Qed.

Lemma tracks_after_moveTo_error w cell err g :
  tracks w (after_moveTo_error w cell err g).
Proof.
  eexists [_]. split; [reflexivity|]. simpl.
  rewrite String.eqb_refl. reflexivity.
Qed.

Lemma tracks_after_discover w cells g : tracks w (after_discover w cells g).
Proof.
  eexists [_]. split; [reflexivity|]. simpl.
  rewrite String.eqb_refl. reflexivity.
Qed.

Lemma tracks_after_discover_error w err g :
  tracks w (after_discover_error w err g).
Proof.
  eexists [_]. split; [reflexivity|]. simpl.
  rewrite String.eqb_refl. reflexivity.
Qed.

Lemma explore_tracks fuel w r w' : explore fuel w = Some (r, w') -> tracks w w'.
Proof.
  apply (explore_closed tracks); intros;
    first [ apply tracks_after_move | apply tracks_after_move_error
          | apply tracks_after_discover | apply tracks_after_discover_error
          | apply tracks_silent; reflexivity ].
Qed.

Lemma followSteps_tracks steps w r w' :
  followSteps steps w = Some (r, w') -> tracks w w'.
Proof.
  apply (followSteps_closed tracks); intros;
    first [ apply tracks_after_move | apply tracks_after_move_error
          | apply tracks_silent; reflexivity ].
Qed.

Lemma followShortestPath_tracks w r w' :
  followShortestPath w = Some (r, w') -> tracks w w'.
Proof.
  unfold followShortestPath. unfold bind at 1, get.
  destruct (results w) as [|shortest others]; simpl.
  - intros [= <- <-]. apply tracks_silent; reflexivity.
  - unfold bind at 1. rewrite addLog_run. unfold bind at 1.
    destruct (followSteps _ _) as [[[[|] | e] w1]|] eqn:E; try discriminate;
      apply followSteps_tracks in E; intros [= <- <-];
      (etransitivity; [apply tracks_silent; reflexivity|]);
      (etransitivity; [exact E|]); apply tracks_silent; reflexivity.
Qed.

(** ** The stepper, called while idle *)

Lemma safeMoveTo_run cell w :
  safeMoveTo cell w
  = match gw_move (gw w) (_moveUrl (store w)) (cell_x cell) (cell_y cell) with
    | (inl data, g) => Some (Returned tt, after_move w (coords_of cell) data g)
    | (inr err, g) =>
        Some (Returned tt,
              logged ("Erreur lors du déplacement vers (" +:+ pretty (cell_x cell)
                      +:+ ", " +:+ pretty (cell_y cell) +:+ ") : "
                      +:+ err_toString err)
                (after_moveTo_error w cell err g))
    end.
Proof.
  unfold safeMoveTo, try_catch, moveTo, bind, get, MazeService_move.
  destruct (gw_move _ _ _ _) as [[data | err] g]; reflexivity.
Qed.

Lemma exploreNext_run w :
  exploreNext w
  = if _isWin (store w) || _isDead (store w) || isExploringNow (store w)
    then Some (Returned tt, w)
    else
      match gw_discover (gw w) (_discoverUrl (store w)) with
      | (inr err, g) =>
          Some (Returned tt,
                disarmed ("Erreur pendant l'exploration : " +:+ err_toJSON err)
                  (after_discover_error w err g))
      | (inl cells, g) =>
          match List.find (qualifies (_visited (store w))) cells with
          | None =>
              Some (Returned tt,
                    disarmed "Exploration terminée : aucun chemin sûr trouvé."
                      (after_discover w cells g))
          | Some next =>
              bind (safeMoveTo next)
                (fun _ => addLog ("Déplacement vers (" +:+ pretty (cell_x next)
                                  +:+ ", " +:+ pretty (cell_y next) +:+ ")"))
                (after_discover w cells g)
          end
      end.
Proof.
  unfold exploreNext, bind at 1, get.
  destruct (_ || _ || _); [reflexivity|].
  unfold try_catch, bind at 1. rewrite discoverSurroundings_run.
  destruct (gw_discover _ _) as [[cells | err] g]; [|reflexivity].
  unfold bind at 1, chooseNextMove, get.
  change (_visited (store (after_discover w cells g))) with (_visited (store w)).
  change (fun cell : Cell =>
            move cell && negb (CELL_TYPE.eqb (value cell) CELL_TYPE.trap)
            && negb (bool_decide
                       (pretty (cell_x cell) +:+ "," +:+ pretty (cell_y cell)
                        ∈ _visited (store w))))
    with (qualifies (_visited (store w))).
  destruct (List.find _ cells) as [next|]; [|reflexivity].
  unfold bind. rewrite safeMoveTo_run.
  destruct (gw_move _ _ _ _) as [[data | err] g2]; reflexivity.
Qed.

Lemma exploreNext_tracks w r w' : exploreNext w = Some (r, w') -> tracks w w'.
Proof.
  rewrite exploreNext_run.
  destruct (_ || _ || _); [intros [= <- <-]; reflexivity|].
  destruct (gw_discover _ _) as [[cells | err] g].
  - destruct (List.find _ cells) as [next|].
    + unfold bind. rewrite safeMoveTo_run.
      destruct (gw_move _ _ _ _) as [[data | err] g2]; rewrite addLog_run;
        intros [= <- <-];
        (etransitivity; [apply tracks_after_discover|]).
      * etransitivity; [apply tracks_after_move|].
        apply tracks_silent; reflexivity.
      * etransitivity; [apply tracks_after_moveTo_error|].
        apply tracks_silent; reflexivity.
    + intros [= <- <-].
      etransitivity; [apply tracks_after_discover|].
      apply tracks_silent; reflexivity.
  - intros [= <- <-].
    etransitivity; [apply tracks_after_discover_error|].
    apply tracks_silent; reflexivity.
Qed.

(** X1.  Through a run of [explore], of [followShortestPath] or of
    [exploreNext], every call goes to the endpoint that the latest accepted
    move returned (or that the store held before), and the position, the
    flags [dead] and [win], the two endpoints and the visited keys of the
    store are, at the end, what the responses to the accepted moves say: a
    rejected move and a [discover] change none of them. *)
Theorem store_mirrors_the_responses w r w' :
  (exists fuel, explore fuel w = Some (r, w'))
  \/ followShortestPath w = Some (r, w')
  \/ exploreNext w = Some (r, w') ->
  exists evs,
    calls w' = (calls w ++ evs)%list
    /\ replay (mirror (store w)) evs = Some (mirror (store w')).
Proof.
  intros [[fuel Hrun] | [Hrun | Hrun]].
  - eapply explore_tracks, Hrun.
  - eapply followShortestPath_tracks, Hrun.
  - eapply exploreNext_tracks, Hrun.
Qed.

Lemma find_first {A} (f : A -> bool) (l : list A) (a : A) :
  List.find f l = Some a ->
  exists before after,
    l = (before ++ a :: after)%list /\ f a = true
    /\ Forall (fun b => f b = false) before.
Proof.
  induction l as [|b l IH]; simpl; [discriminate|].
  destruct (f b) eqn:E.
  - intros [= ->]. exists [], l. split_and!; auto.
  - intros Hfind. destruct (IH Hfind) as (before & after & -> & Ha & Hbefore).
    exists (b :: before), after. split_and!; auto.
Qed.

Lemma find_nothing {A} (f : A -> bool) (l : list A) :
  List.find f l = None -> Forall (fun b => f b = false) l.
Proof.
  induction l as [|b l IH]; simpl; [constructor|].
  destruct (f b) eqn:E; [discriminate|]. intros Hfind. constructor; auto.
Qed.

(** X3.  A call of [exploreNext] returns, never throws, and makes at most
    two calls.  It makes none when the game is won or lost or a step is in
    flight.  Otherwise it discovers; when that fails, or when no reported
    cell is reachable, no trap and unvisited, it disarms the exploration and
    stops there; else it asks once to move, to the first cell of the
    answer, in the order of the answer, that is reachable, no trap and
    unvisited, logs the move, and leaves the exploration armed. *)
Theorem exploreNext_steps_once w :
  exists w' evs,
    exploreNext w = Some (Returned tt, w')
    /\ calls w' = (calls w ++ evs)%list
    /\ ((evs = [] /\ w' = w
         /\ _isWin (store w) || _isDead (store w) || isExploringNow (store w)
            = true)
        \/ (exists err,
              evs = [CallDiscover (_discoverUrl (store w)) (inr err)]
              /\ _isExploring (store w') = false
              /\ _log (store w')
                 = (_log (store w)
                    ++ ["Erreur lors de la découverte : " +:+ err_toString err;
                        "Erreur pendant l'exploration : "
                        +:+ err_toJSON err])%list)
        \/ (exists cells,
              evs = [CallDiscover (_discoverUrl (store w)) (inl cells)]
              /\ Forall (fun c => qualifies (_visited (store w)) c = false) cells
              /\ _isExploring (store w') = false
              /\ _log (store w')
                 = (_log (store w)
                    ++ ["Exploration terminée : aucun chemin sûr trouvé."])%list)
        \/ (exists before next after res,
              evs = [CallDiscover (_discoverUrl (store w))
                       (inl (before ++ next :: after)%list);
                     CallMove (_moveUrl (store w)) (cell_x next) (cell_y next)
                       res]
              /\ qualifies (_visited (store w)) next = true
              /\ Forall (fun c => qualifies (_visited (store w)) c = false)
                   before
              /\ _isExploring (store w') = _isExploring (store w)
              /\ last (_log (store w'))
                 = Some ("Déplacement vers (" +:+ pretty (cell_x next) +:+ ", "
                         +:+ pretty (cell_y next) +:+ ")"))).
Proof.
  rewrite exploreNext_run.
  destruct (_ || _ || _) eqn:Hstop.
  { exists w, []. rewrite app_nil_r. split_and!; auto. }
  destruct (gw_discover _ _) as [[cells | err] g].
  - destruct (List.find _ cells) as [next|] eqn:Hfind.
    + destruct (find_first _ _ _ Hfind) as (before & after & -> & Hq & Hbefore).
      unfold bind. rewrite safeMoveTo_run.
      destruct (gw_move _ _ _ _) as [[data | err] g2]; rewrite addLog_run;
        eexists _, [_; _]; (split; [reflexivity|]);
        (split; [unfold_steps; rewrite <- app_assoc; reflexivity|]);
        right; right; right; eexists before, next, after, _;
        (split; [reflexivity|]); split_and!; auto;
        unfold_steps; apply last_snoc.
    + eexists _, [_]. split; [reflexivity|]. split; [reflexivity|].
      right. right. left. exists cells. split_and!; auto.
      apply find_nothing, Hfind.
  - eexists _, [_]. split; [reflexivity|]. split; [reflexivity|].
    right. left. exists err. split_and!; auto.
    unfold_steps. rewrite <- app_assoc. reflexivity.
Qed.

(** X4.  When the move of a step is rejected, or times out, [exploreNext]
    logs the error and then logs the move all the same; the position is the
    one before the step and the exploration is still armed.  ([safeMoveTo]
    swallows the failure, so that [exploreNext] cannot tell it happened.) *)
Theorem exploreNext_logs_a_rejected_move w cells g1 next err g2 :
  _isWin (store w) || _isDead (store w) || isExploringNow (store w) = false ->
  gw_discover (gw w) (_discoverUrl (store w)) = (inl cells, g1) ->
  List.find (qualifies (_visited (store w))) cells = Some next ->
  gw_move g1 (_moveUrl (store w)) (cell_x next) (cell_y next) = (inr err, g2) ->
  exists w',
    exploreNext w = Some (Returned tt, w')
    /\ _log (store w')
       = (_log (store w)
          ++ ["Erreur lors du déplacement vers (" +:+ pretty (cell_x next)
              +:+ ", " +:+ pretty (cell_y next) +:+ ") : " +:+ err_toString err;
              "Déplacement vers (" +:+ pretty (cell_x next) +:+ ", "
              +:+ pretty (cell_y next) +:+ ")"])%list
    /\ _position (store w') = _position (store w)
    /\ _visited (store w') = _visited (store w)
    /\ _isExploring (store w') = _isExploring (store w)
    /\ _isFinish (store w') = _isFinish (store w).
Proof.
  intros Hstop Hdisc Hfind Hmove.
  rewrite exploreNext_run, Hstop, Hdisc, Hfind.
  unfold bind. rewrite safeMoveTo_run. unfold_steps. rewrite Hmove.
  rewrite addLog_run. eexists. split; [reflexivity|].
  unfold_steps. rewrite <- app_assoc. split_and!; reflexivity.
Qed.

Lemma exploreNext_steps_once_log w :
  exists w', exploreNext w = Some (Returned tt, w')
    /\ _log (store w) `prefix_of` _log (store w').
Proof.
  rewrite exploreNext_run.
  destruct (_ || _ || _); [exists w; split; reflexivity|].
  destruct (gw_discover _ _) as [[cells | err] g].
  - destruct (List.find _ cells) as [next|].
    + unfold bind. rewrite safeMoveTo_run.
      destruct (gw_move _ _ _ _) as [[data | err] g2]; rewrite addLog_run;
        eexists; (split; [reflexivity|]); unfold_steps.
      * apply prefix_app_r. reflexivity.
      * rewrite <- app_assoc. apply prefix_app_r. reflexivity.
    + eexists. split; [reflexivity|]. unfold_steps.
      apply prefix_app_r. reflexivity.
  - eexists. split; [reflexivity|]. unfold_steps.
    rewrite <- app_assoc. apply prefix_app_r. reflexivity.
Qed.

(** ** The log *)

Global Instance log_grows_preorder : PreOrder (@log_grows G).
Proof.
  split.
  - intros w. unfold log_grows. reflexivity.
  - intros w1 w2 w3. unfold log_grows. intros. etransitivity; eassumption.
Qed.

Lemma log_grows_logged entry w : log_grows w (logged entry w).
Proof. unfold log_grows. unfold_steps. apply prefix_app_r. reflexivity. Qed.

Lemma log_grows_logged_all entries w : log_grows w (logged_all entries w).
Proof. unfold log_grows. unfold_steps. apply prefix_app_r. reflexivity. Qed.

Lemma log_grows_silent w w' :
  _log (store w') = _log (store w) -> log_grows w w'.
Proof. unfold log_grows. intros ->. reflexivity. Qed.

Lemma log_grows_after_move_error w pos err g :
  log_grows w (after_move_error w pos err g).
Proof. unfold log_grows. unfold_steps. apply prefix_app_r. reflexivity. Qed.

Lemma log_grows_after_discover_error w err g :
  log_grows w (after_discover_error w err g).
Proof. unfold log_grows. unfold_steps. apply prefix_app_r. reflexivity. Qed.

(** X5.  The log is append-only between two resets: a run of [explore], of
    [followShortestPath], of [exploreNext] or of the effect leaves every
    entry that was there, in place, and only adds entries after them. *)
Theorem log_is_append_only w r w' :
  (exists fuel, explore fuel w = Some (r, w'))
  \/ followShortestPath w = Some (r, w')
  \/ exploreNext w = Some (r, w')
  \/ effect_run w = Some (r, w') ->
  exists entries, _log (store w') = (_log (store w) ++ entries)%list.
Proof.
  intros Hrun. change (log_grows w w').
  destruct Hrun as [[fuel Hrun] | [Hrun | [Hrun | Hrun]]].
  - revert Hrun. apply (explore_closed log_grows); intros;
      first [ apply log_grows_logged | apply log_grows_logged_all
            | apply log_grows_after_move_error
            | apply log_grows_after_discover_error
            | apply log_grows_silent; reflexivity ].
  - revert Hrun. unfold followShortestPath. unfold bind at 1, get.
    destruct (results w) as [|shortest others]; simpl.
    + intros [= <- <-]. unfold log_grows. unfold_steps.
      apply prefix_app_r. reflexivity.
    + unfold bind at 1. rewrite addLog_run. unfold bind at 1.
      destruct (followSteps _ _) as [[[[|] | e] w1]|] eqn:E; try discriminate;
        apply followSteps_io in E; intros [= <- <-];
        (etransitivity; [apply log_grows_logged|]);
        (etransitivity; [apply (io_log _ _ E)|]).
      * unfold_steps. apply prefix_app_r. reflexivity.
      * reflexivity.
      * reflexivity.
  - destruct (exploreNext_steps_once_log w) as (w2 & Hrun2 & Hlog).
    rewrite Hrun2 in Hrun. inversion Hrun; subst. exact Hlog.
  - destruct (effect_run_inert w) as (w2 & Heff & _ & _ & _ & Hlog & _).
    rewrite Heff in Hrun. inversion Hrun; subst.
    apply log_grows_silent, Hlog.
Qed.

(** ** Keys, lookups and ties *)

(** X6.  Two coordinates have the same key only when they are the same
    coordinate: the visited sets and the discovered map, which are keyed by
    the string ["x,y"], never confuse two cells. *)
Theorem coordKey_injective (p q : CellCoordinates) :
  coordKey p = coordKey q -> p = q.
Proof. apply (inj coordKey). Qed.

Lemma merge_cells_last cells : forall (m : gmap string Cell) k,
  merge_cells m cells !! k
  = match last (filter (fun c => cellKey c = k) cells) with
    | Some c => Some c
    | None => m !! k
    end.
Proof.
  induction cells as [|c0 cells IH]; intros m k; simpl; [reflexivity|].
  rewrite IH, filter_cons.
  destruct (decide (cellKey c0 = k)) as [Hk | Hk].
  - rewrite last_cons.
    destruct (last (filter _ cells)); [reflexivity|].
    rewrite <- Hk. apply lookup_insert_eq.
  - destruct (last (filter _ cells)); [reflexivity|].
    apply lookup_insert_ne, Hk.
Qed.

(** X7.  After a batch of discovered cells is recorded, the map holds, at
    every coordinate, the last cell of the batch reported at that
    coordinate, and what it held before at the coordinates the batch does
    not mention. *)
Theorem discoverCells_last_write_wins cells w :
  exists w',
    discoverCells cells w = Some (Returned tt, w')
    /\ forall q : CellCoordinates,
         _map (store w') !! coordKey q
         = match last (filter (fun c => coords_of c = q) cells) with
           | Some c => Some c
           | None => _map (store w) !! coordKey q
           end.
Proof.
  rewrite discoverCells_run. eexists. split; [reflexivity|].
  intros q. simpl. rewrite merge_cells_last.
  rewrite (list_filter_iff (fun c => cellKey c = coordKey q)
             (fun c => coords_of c = q)); [reflexivity|].
  intros c. split.
  - intros Hk. apply (inj coordKey). exact Hk.
  - intros <-. reflexivity.
Qed.

Lemma Array_sort_first l shortest rest :
  Array_sort l = shortest :: rest ->
  head (filter (fun c => PathCandidate.length c
                         = PathCandidate.length shortest) l)
  = Some shortest.
Proof.
  intros Hsort.
  rewrite <- (Array_sort_stable (PathCandidate.length shortest) l), Hsort.
  rewrite filter_cons. rewrite decide_True by reflexivity. reflexivity.
Qed.

(** X8.  Among the candidates of the least length, [results[0]] is the one
    the search found first: the sort of [logPaths] keeps candidates of equal
    length in the order in which they were recorded. *)
Theorem explore_breaks_ties_by_discovery fuel w r w' found :
  explore fuel w = Some (r, w') ->
  foundPaths fuel w = Some found ->
  found <> [] ->
  exists shortest,
    results w' !! 0%nat = Some shortest
    /\ (forall c, c ∈ found ->
          (PathCandidate.length shortest <= PathCandidate.length c)%nat)
    /\ head (filter (fun c => PathCandidate.length c
                              = PathCandidate.length shortest) found)
       = Some shortest.
Proof.
  intros Hrun Hfound Hne.
  destruct (explore_run _ _ _ _ Hrun)
    as (w1 & _ & _ & Hfound' & _ & _ & _ & Hcase).
  rewrite Hfound in Hfound'. injection Hfound' as Heq. subst found.
  destruct Hcase as [[Hnone _] | (shortest & rest & Hsort & _ & Hres & _)].
  - contradiction.
  - exists shortest. rewrite Hres. split_and!.
    + reflexivity.
    + intros c Hc.
      pose proof (Array_sort_sorted (array_at (List.length (arrays w)) w1))
        as Hsorted.
      rewrite Hsort in Hsorted.
      apply (StronglySorted_head _ _ Hsorted eq_refl).
      rewrite <- Hsort, Array_sort_perm. exact Hc.
    + apply (Array_sort_first _ _ _ Hsort).
Qed.

(** ** A whole session *)

Global Instance flags_kept_preorder : PreOrder (@flags_kept G).
Proof.
  split.
  - intros w. repeat split.
  - intros w1 w2 w3 (? & ? & ?) (? & ? & ?). repeat split; congruence.
Qed.

Lemma explore_flags fuel w r w' :
  explore fuel w = Some (r, w') -> flags_kept w w'.
Proof. apply (explore_closed flags_kept); intros; repeat split. Qed.

Lemma followSteps_flags steps w r w' :
  followSteps steps w = Some (r, w') -> flags_kept w w'.
Proof. apply (followSteps_closed flags_kept); intros; repeat split. Qed.

Lemma followSteps_ends steps : forall w r w',
  followSteps steps w = Some (r, w') ->
  r = Returned true
  \/ (r = Returned false
      /\ exists step err,
           step ∈ steps /\ last (_log (store w')) = Some (abortLog step err)).
Proof.
  induction steps as [|step rest IH]; intros w r w'; simpl.
  - intros [= <- <-]. left. reflexivity.
  - unfold bind at 1, try_catch, bind at 1. rewrite moveToCell_run.
    destruct (gw_move _ _ _ _) as [[data | err] g1]; simpl.
    + intros Hrest. apply IH in Hrest as [-> | (-> & s0 & e0 & Hin & Hlast)];
        [left; reflexivity | right].
      split; [reflexivity|]. exists s0, e0. split; [right; exact Hin | exact Hlast].
    + intros [= <- <-]. right. split; [reflexivity|].
      exists step, err. split; [left|]. unfold_steps. apply last_snoc.
Qed.

Lemma updateFromStart_run data w :
  updateFromStart data w = Some (Returned tt, session_started data w).
Proof. reflexivity. Qed.

Lemma session_started_results data w : results (session_started data w) = [].
Proof.
  unfold results, array_at, session_started. simpl.
  rewrite lookup_app_r by lia. rewrite Nat.sub_diag. reflexivity.
Qed.

(** X2.  A session as [App.startGame] runs it, once the game is started,
    ends in one of three ways.  Nothing was found: the session is marked
    finished although the player has not moved to an exit, and the
    exploration stays armed.  A path was found and walked to its end: the
    session is finished and the exploration disarmed.  A path was found and
    a move of the walk was rejected: the session is not finished, and the
    exploration stays armed. *)
Theorem App_startGame_outcomes data fuel w r w' :
  App_startGame data fuel w = Some (r, w') ->
  (results w' = []
   /\ _isFinish (store w') = true /\ _isExploring (store w') = true
   /\ last (_log (store w')) = Some "Aucun chemin disponible vers la sortie.")
  \/ (results w' <> []
      /\ _isFinish (store w') = true /\ _isExploring (store w') = false
      /\ last (_log (store w')) = Some "Le joueur est arrivé à la sortie !")
  \/ (results w' <> []
      /\ _isFinish (store w') = false /\ _isExploring (store w') = true
      /\ exists shortest step err,
           results w' !! 0%nat = Some shortest
           /\ step ∈ drop 1 (PathCandidate.path shortest)
           /\ last (_log (store w')) = Some (abortLog step err)).
Proof.
  unfold App_startGame, try_catch. unfold bind at 1.
  rewrite updateFromStart_run. unfold bind at 1.
  set (w0 := session_started data w).
  destruct (explore fuel w0) as [[r1 w1]|] eqn:E1; [|discriminate].
  pose proof (explore_flags _ _ _ _ E1) as (Hexp & Hfin & _).
  destruct (explore_run _ _ _ _ E1)
    as (w1' & _ & Hle & _ & -> & _ & _ & Hcase).
  assert (results w1 = [] \/ exists shortest rest, results w1 = shortest :: rest)
    as Hres.
  { destruct Hcase as [[Hnone ->] | (shortest & rest & _ & _ & Hres & _)].
    - left. change (results w1' = []).
      rewrite (results_untouched _ _ _ Hle Hnone).
      apply session_started_results.
    - right. eauto. }
  unfold followShortestPath. unfold bind at 1, get.
  destruct Hres as [Hres | (shortest & rest & Hres)]; rewrite Hres; simpl.
  - intros Hrun. left.
    assert (w' = upd_store (set_isFinish true)
                   (logged "Aucun chemin disponible vers la sortie." w1))
      as -> by (destruct r; inversion Hrun; reflexivity).
    split_and!.
    + exact Hres.
    + reflexivity.
    + exact Hexp.
    + unfold_steps. apply last_snoc.
  - unfold bind at 1. rewrite addLog_run. unfold bind at 1.
    match goal with
    | |- context [followSteps ?st ?w2] =>
        destruct (followSteps st w2) as [[r3 w3]|] eqn:E3; [|discriminate];
        pose proof (followSteps_flags _ _ _ _ E3) as (Hexp3 & Hfin3 & _);
        pose proof (followSteps_io _ _ _ _ E3) as Hio;
        pose proof (followSteps_ends _ _ _ _ E3) as Hend
    end.
    assert (results w3 = shortest :: rest) as Hres3.
    { unfold results, array_at in *.
      rewrite (io_results _ _ Hio), (io_arrays _ _ Hio). exact Hres. }
    destruct Hend as [-> | (-> & step & err & Hin & Hlast)]; simpl; intros Hrun.
    + right. left.
      assert (w' = upd_store (set_isFinish true)
                     (disarmed "Le joueur est arrivé à la sortie !" w3))
        as -> by (destruct r; inversion Hrun; reflexivity).
      split_and!.
      * change (results w3 <> []). rewrite Hres3. discriminate.
      * reflexivity.
      * reflexivity.
      * unfold_steps. apply last_snoc.
    + right. right.
      assert (w' = w3) as -> by (destruct r; inversion Hrun; reflexivity).
      split_and!.
      * rewrite Hres3. discriminate.
      * rewrite Hfin3. exact Hfin.
      * rewrite Hexp3. exact Hexp.
      * exists shortest, step, err. rewrite Hres3. split_and!; auto.
Qed.

End Sessions.

Section Moves.

Context `{Gateway G}.
Implicit Types (w : World G).

(** ** Where the search asks to move *)

Lemma coord_eta (c : CellCoordinates) : mkCoord (x c) (y c) = c.
Proof. destruct c. reflexivity. Qed.

Lemma last_move_app_Some evs1 evs2 q :
  last_move evs2 = Some q -> last_move (evs1 ++ evs2) = Some q.
Proof.
  unfold last_move. rewrite omap_app. intros Hlast.
  destruct (omap call_target evs2) as [|t ts _] using rev_ind;
    [discriminate|].
  rewrite last_snoc in Hlast. rewrite app_assoc, last_snoc. exact Hlast.
Qed.

Lemma last_move_is_a_call evs q :
  last_move evs = Some q ->
  exists url res, last_move_call evs = Some (CallMove url (x q) (y q) res).
Proof.
  unfold last_move, last_move_call.
  induction evs as [|c evs IH] using rev_ind; [discriminate|].
  rewrite omap_app, List.filter_app. destruct c as [url px py res | url res]; simpl.
  - rewrite !last_snoc. intros [= <-]. exists url, res. reflexivity.
  - rewrite !app_nil_r. exact IH.
Qed.

Lemma replay_last_move evs : forall m m' url px py data,
  replay m evs = Some m' ->
  last_move_call evs = Some (CallMove url px py (inl data)) ->
  m_position m' = mkCoord (position_x data) (position_y data)
  /\ m_dead m' = dead data /\ m_win m' = win data.
Proof.
  unfold last_move_call.
  induction evs as [|c evs IH] using rev_ind; intros m m' url px py data;
    [discriminate|].
  rewrite replay_app, List.filter_app.
  destruct (replay m evs) as [m0|] eqn:E; [|discriminate].
  destruct c as [url0 px0 py0 res0 | url0 res0]; simpl.
  - rewrite last_snoc.
    destruct (String.eqb url0 (m_moveUrl m0)); [|discriminate].
    intros [= <-] [= -> -> -> ->]. split_and!; reflexivity.
  - rewrite app_nil_r.
    destruct (String.eqb url0 (m_discoverUrl m0)); [|discriminate].
    intros [= <-]. apply (IH m m0 url px py data E).
Qed.

Lemma walked_cell_mono cs cs' start q :
  cs `prefix_of` cs' -> walked_cell cs start q -> walked_cell cs' start q.
Proof.
  intros Hp [-> | (cell & Hcell & <-)]; [left; reflexivity | right].
  exists cell. split; [eapply corridor_cell_mono; eassumption | reflexivity].
Qed.

Lemma safe_moves_app start evs1 : forall cs evs2,
  safe_moves cs start evs1 -> safe_moves (cs ++ evs1) start evs2 ->
  safe_moves cs start (evs1 ++ evs2).
Proof.
  induction evs1 as [|c evs1 IH]; intros cs evs2; simpl.
  - rewrite app_nil_r. auto.
  - intros [Hc H1] H2. split; [exact Hc|]. apply IH; [exact H1|].
    rewrite <- app_assoc. exact H2.
Qed.

Lemma safe_moves_split start evs1 : forall cs c evs2,
  safe_moves cs start (evs1 ++ c :: evs2) -> safe_call (cs ++ evs1) start c.
Proof.
  induction evs1 as [|c1 evs1 IH]; intros cs c evs2; simpl.
  - rewrite app_nil_r. intros [Hc _]. exact Hc.
  - intros [_ Hrest]. apply IH in Hrest. rewrite <- app_assoc in Hrest.
    exact Hrest.
Qed.

Lemma homing_nil cs start home : homing cs start home [].
Proof. split; [exact I | left; reflexivity]. Qed.

Lemma homing_app cs start home evs1 evs2 :
  homing cs start home evs1 -> homing (cs ++ evs1) start home evs2 ->
  homing cs start home (evs1 ++ evs2).
Proof.
  intros [Hs1 Hl1] [Hs2 Hl2]. split; [apply safe_moves_app; auto|].
  destruct Hl2 as [-> | Hl2].
  - rewrite app_nil_r. exact Hl1.
  - right. apply last_move_app_Some, Hl2.
Qed.

(** Calls that end with a move back to [home]. *)
Lemma homing_return cs start home evs url res :
  walked_cell cs start home ->
  safe_moves cs start evs ->
  homing cs start home (evs ++ [CallMove url (x home) (y home) res]).
Proof.
  intros Hhome Hsafe. split.
  - apply safe_moves_app; [exact Hsafe|]. split; [|exact I].
    intros q [= <-]. rewrite coord_eta.
    eapply walked_cell_mono; [|exact Hhome]. apply prefix_app_r. reflexivity.
  - right. apply last_move_app_Some. unfold last_move. simpl.
    rewrite coord_eta. reflexivity.
Qed.

(** Calls that begin with the move to [home] and a [discover]. *)
Lemma homing_enter cs start home url res url' res' rest :
  walked_cell cs start home ->
  homing (cs ++ [CallMove url (x home) (y home) res; CallDiscover url' res'])
    start home rest ->
  homing cs start home
    (CallMove url (x home) (y home) res :: CallDiscover url' res' :: rest).
Proof.
  intros Hhome [Hsafe Hlast]. split.
  - simpl. split; [intros q [= <-]; rewrite coord_eta; exact Hhome|].
    split; [intros q [=]|]. rewrite <- app_assoc. exact Hsafe.
  - right. destruct Hlast as [-> | Hlast].
    + unfold last_move. simpl. rewrite coord_eta. reflexivity.
    + apply (last_move_app_Some [_; _]), Hlast.
Qed.

Lemma frame_path_current cs start p :
  frame_path cs start p -> walked_cell cs start (getCurrentCellFromPath p).
Proof.
  intros (inner & -> & Hinner). unfold getCurrentCellFromPath.
  destruct inner as [|c inner _] using rev_ind; [left; reflexivity|].
  right. exists c. split.
  - apply Forall_app in Hinner as [_ Hc]. inversion Hc; assumption.
  - rewrite map_app. simpl. rewrite app_comm_cons, last_snoc. reflexivity.
Qed.

Section Frame.

Variables (v a : loc) (start : CellCoordinates).

Lemma handleCellExploration_homes recur current cell p w r w' :
  (forall q, frame_ok v a (recur q v a)) ->
  frame_homes start (fun q => recur q v a) ->
  frame_path (calls w) start p ->
  walked_cell (calls w) start current ->
  discovered (calls w) cell ->
  handleCellExploration recur current cell p v a w = Some (r, w') ->
  exists evs, calls w' = (calls w ++ evs)%list
    /\ homing (calls w) start current evs.
Proof.
  intros Hok Hrec Hfp Hcur Hdisc.
  unfold handleCellExploration, bind at 1, canExploreCell, get.
  destruct (bool_decide _); simpl;
    [intros [= <- <-]; exists []; rewrite app_nil_r;
     split; [reflexivity | apply homing_nil]|].
  destruct (move cell) eqn:Hmove; simpl;
    [|intros [= <- <-]; exists []; rewrite app_nil_r;
      split; [reflexivity | apply homing_nil]].
  destruct (CELL_TYPE.eqb (value cell) CELL_TYPE.trap) eqn:Htrap; simpl;
    [intros [= <- <-]; exists []; rewrite app_nil_r;
     split; [reflexivity | apply homing_nil]|].
  apply CELL_TYPE_eqb_neq in Htrap.
  unfold isGoalCell.
  destruct (CELL_TYPE.eqb (value cell) CELL_TYPE.stop) eqn:Hstop.
  - rewrite recordExitPath_run. intros [= <- <-]. exists [].
    unfold_steps. rewrite app_nil_r.
    split; [reflexivity | apply homing_nil].
  - apply CELL_TYPE_eqb_neq in Hstop. unfold bind.
    destruct (recur _ v a w) as [[r1 w1]|] eqn:E; [|discriminate].
    pose proof (Hok _ _ _ _ E) as [-> Hle].
    destruct (Hrec (buildNextPath p cell) w (Returned tt) w1)
      as (evs1 & Hc1 & Hsafe1 & _); [|exact E|].
    { destruct Hfp as (inner & -> & Hinner).
      exists (inner ++ [cell])%list. split.
      - unfold buildNextPath. simpl. rewrite map_app. reflexivity.
      - apply Forall_app. split; [exact Hinner|].
        apply Forall_cons. split; [|constructor]. split_and!; auto. }
    rewrite returnToPrevious_run.
    destruct (gw_move _ _ _ _) as [[data | err] g]; intros [= <- <-];
      eexists (evs1 ++ [_])%list;
      (split; [unfold_steps; rewrite Hc1, <- app_assoc; reflexivity|]);
      apply homing_return; assumption.
Qed.

Lemma exploreNeighbors_homes recur current p :
  (forall q, frame_ok v a (recur q v a)) ->
  frame_homes start (fun q => recur q v a) ->
  forall neighbors w r w',
    frame_path (calls w) start p ->
    walked_cell (calls w) start current ->
    Forall (discovered (calls w)) neighbors ->
    exploreNeighbors recur current neighbors p v a w = Some (r, w') ->
    exists evs, calls w' = (calls w ++ evs)%list
      /\ homing (calls w) start current evs.
Proof.
  intros Hok Hrec.
  induction neighbors as [|cell rest IH]; intros w r w' Hfp Hcur Hdisc; simpl.
  - intros [= <- <-]. exists []. rewrite app_nil_r.
    split; [reflexivity | apply homing_nil].
  - unfold bind.
    destruct (handleCellExploration _ _ _ _ _ _ w) as [[r1 w1]|] eqn:E;
      [|discriminate].
    apply Forall_cons in Hdisc as [Hcell Hrest].
    pose proof (handleCellExploration_ok _ _ _ Hok _ _ _ _ _ _ E) as [-> Hle].
    destruct (handleCellExploration_homes _ _ _ _ _ _ _ Hok Hrec Hfp Hcur Hcell E)
      as (evs1 & Hc1 & Hhome1).
    intros Hrun.
    assert (calls w `prefix_of` calls w1) as Hp1 by apply Hle.
    destruct (IH w1 r w') as (evs2 & Hc2 & Hhome2); [| | |exact Hrun|].
    + eapply frame_path_mono; eassumption.
    + eapply walked_cell_mono; eassumption.
    + eapply Forall_impl; [exact Hrest|]. intros c. apply discovered_mono, Hp1.
    + exists (evs1 ++ evs2)%list. split.
      * rewrite Hc2, Hc1, app_assoc. reflexivity.
      * apply homing_app; [exact Hhome1|]. rewrite <- Hc1. exact Hhome2.
Qed.

Lemma exploreFromCell_homes fuel :
  frame_homes start (fun q => exploreFromCell fuel q v a).
Proof.
  induction fuel as [|fuel IH]; intros p w r w' Hfp; simpl; [discriminate|].
  unfold bind at 1, isVisited, get.
  destruct (bool_decide _);
    [intros [= <- <-]; exists []; rewrite app_nil_r;
     split; [reflexivity | apply homing_nil]|].
  unfold bind at 1. rewrite markVisited_run.
  unfold bind at 1. rewrite tryMoveToCell_run.
  set (current := getCurrentCellFromPath p) in *.
  pose proof (frame_path_current _ _ _ Hfp) as Hcur. fold current in Hcur.
  set (wm := set_sets (<[v := {[coordKey current]} ∪ set_at v w]> (sets w)) w).
  destruct (gw_move _ _ _ _) as [[data | err] g]; simpl.
  - unfold bind at 1, logExplorationStep. rewrite addLog_run.
    unfold bind at 1. rewrite getDiscoverableNeighbors_run.
    match goal with
    | |- context [after_discover ?w0 _ _] => set (w3 := w0) in *
    end.
    destruct (gw_discover _ _) as [[cells | err] g1].
    + set (w4 := after_discover w3 cells g1).
      assert (calls w4
              = (calls w ++ [CallMove (_moveUrl (store w)) (x current)
                               (y current) (inl data);
                             CallDiscover (_discoverUrl (store w3))
                               (inl cells)])%list) as Hc4.
      { unfold w4, after_discover, w3, logged, after_move. simpl.
        rewrite <- app_assoc. reflexivity. }
      assert (calls w `prefix_of` calls w4) as Hp4
        by (rewrite Hc4; apply prefix_app_r; reflexivity).
      intros Hrun.
      destruct (exploreNeighbors_homes _ current p
                  (fun q => exploreFromCell_ok fuel v a q) IH cells w4 r w')
        as (evs & Hc & Hhome); [| | |exact Hrun|].
      * eapply frame_path_mono; eassumption.
      * eapply walked_cell_mono; eassumption.
      * apply Forall_forall. intros c Hc.
        exists (_discoverUrl (store w3)), cells. split; [|exact Hc].
        rewrite Hc4. apply elem_of_app. right. right. left.
      * eexists (_ :: _ :: evs)%list. split.
        { rewrite Hc, Hc4, <- app_assoc. reflexivity. }
        apply homing_enter; [exact Hcur|]. rewrite <- Hc4. exact Hhome.
    + intros [= <- <-]. eexists [_; _]. split.
      { unfold_steps. rewrite <- !app_assoc. reflexivity. }
      apply homing_enter; [exact Hcur | apply homing_nil].
  - intros [= <- <-]. eexists [_]. split; [reflexivity|].
    apply (homing_return _ _ _ []); [exact Hcur | exact I].
Qed.

End Frame.

(** The calls of a run of [explore]. *)
Lemma explore_homes fuel w r w' :
  explore fuel w = Some (r, w') ->
  exists evs, calls w' = (calls w ++ evs)%list
    /\ safe_moves (calls w) (_position (store w)) evs
    /\ last_move evs = Some (_position (store w)).
Proof.
  intros Hrun.
  destruct (explore_run _ _ _ _ Hrun) as (w1 & Hsearch & _ & _ & _ & Hc & _).
  destruct (exploreFromCell_first_call _ _ _ _ _ _ _
              ltac:(rewrite search_started_set_at; apply not_elem_of_empty)
              Hsearch) as (res & rest & Hfirst).
  destruct (exploreFromCell_homes (List.length (sets w))
              (List.length (arrays w)) (_position (store w)) fuel
              [_position (store w)] (search_started w) (Returned tt) w1)
    as (evs & Hevs & Hsafe & Hlast); [|exact Hsearch|].
  { exists []. split; [reflexivity | constructor]. }
  exists evs. rewrite Hc. split_and!; [exact Hevs | exact Hsafe|].
  destruct Hlast as [-> | Hlast]; [|exact Hlast].
  rewrite Hevs in Hfirst. apply app_inv_head in Hfirst. discriminate.
Qed.

(** X9.  During a run of [explore] every move the store asks for goes to the
    position the run started from, or to a cell that an earlier [discover]
    response had reported reachable, and neither a trap nor an exit: the
    search never steps onto a cell it was told is a trap, nor onto an exit,
    nor onto a cell it has not been told about. *)
Theorem explore_moves_only_where_reported_safe fuel (w : World G) r w' :
  explore fuel w = Some (r, w') ->
  exists evs, calls w' = (calls w ++ evs)%list
    /\ forall evs1 url px py res evs2,
         evs = (evs1 ++ CallMove url px py res :: evs2)%list ->
         mkCoord px py = _position (store w)
         \/ exists cell,
              discovered (calls w ++ evs1) cell
              /\ move cell = true
              /\ value cell <> CELL_TYPE.trap
              /\ value cell <> CELL_TYPE.stop
              /\ cell_x cell = px /\ cell_y cell = py.
Proof.
  intros Hrun. destruct (explore_homes _ _ _ _ Hrun) as (evs & Hc & Hsafe & _).
  exists evs. split; [exact Hc|].
  intros evs1 url px py res evs2 ->.
  apply safe_moves_split in Hsafe.
  destruct (Hsafe (mkCoord px py) eq_refl)
    as [-> | (cell & (Hd & Hm & Ht & Hs) & Hq)]; [left; reflexivity | right].
  exists cell. injection Hq as Hx Hy. split_and!; assumption.
Qed.

(** X10.  The last move of a run of [explore] asks for the position the run
    started from, whatever the search met on its way; when that move is
    accepted, the position and the flags the store holds after the run are
    those of its response. *)
Theorem explore_ends_with_a_move_to_start fuel (w : World G) r w' :
  explore fuel w = Some (r, w') ->
  exists evs url res,
    calls w' = (calls w ++ evs)%list
    /\ last_move_call evs
       = Some (CallMove url (x (_position (store w)))
                 (y (_position (store w))) res)
    /\ forall data, res = inl data ->
         _position (store w') = mkCoord (position_x data) (position_y data)
         /\ _isDead (store w') = dead data
         /\ _isWin (store w') = win data.
Proof.
  intros Hrun. destruct (explore_homes _ _ _ _ Hrun) as (evs & Hc & _ & Hlast).
  destruct (last_move_is_a_call _ _ Hlast) as (url & res & Hcall).
  exists evs, url, res. split_and!; [exact Hc | exact Hcall|].
  intros data ->.
  destruct (explore_tracks _ _ _ _ Hrun) as (evs' & Hc' & Hreplay).
  rewrite Hc in Hc'. apply app_inv_head in Hc'. subst evs'.
  apply (replay_last_move _ _ _ _ _ _ _ Hreplay Hcall).
Qed.

(** ** What a search costs *)













Section Costs.

Variables (v a : loc).




End Costs.


End Moves.

Section Keys.

Context `{Gateway G}.
Implicit Types (w : World G).

(** ** The keys of the map *)

Lemma keyed_empty : keyed ∅.
Proof. intros k c Hk. rewrite lookup_empty in Hk. discriminate. Qed.

Lemma keyed_merge_cells m cells : keyed m -> keyed (merge_cells m cells).
Proof.
  intros Hm k c Hk. apply merge_cells_lookup in Hk as [Hk | [_ Hk]].
  - apply Hm, Hk.
  - symmetry. exact Hk.
Qed.

Global Instance keeps_keyed_preorder : PreOrder (@keeps_keyed G).
Proof.
  split.
  - intros w. exact id.
  - intros w1 w2 w3 H12 H23 Hk. apply H23, H12, Hk.
Qed.

Lemma keeps_keyed_same_map w w' :
  _map (store w') = _map (store w) -> keeps_keyed w w'.
Proof. unfold keeps_keyed. intros ->. exact id. Qed.

Lemma keeps_keyed_after_discover w cells g :
  keeps_keyed w (after_discover w cells g).
Proof. intros Hk. apply keyed_merge_cells, Hk. Qed.

Lemma explore_keyed fuel w r w' :
  explore fuel w = Some (r, w') -> keeps_keyed w w'.
Proof.
  apply (explore_closed keeps_keyed); intros;
    first [ apply keeps_keyed_after_discover
          | apply keeps_keyed_same_map; reflexivity ].
Qed.

Lemma followSteps_keyed steps w r w' :
  followSteps steps w = Some (r, w') -> keeps_keyed w w'.
Proof.
  apply (followSteps_closed keeps_keyed); intros;
    apply keeps_keyed_same_map; reflexivity.
Qed.

Lemma followShortestPath_keyed w r w' :
  followShortestPath w = Some (r, w') -> keeps_keyed w w'.
Proof.
  unfold followShortestPath. unfold bind at 1, get.
  destruct (results w) as [|shortest others]; simpl.
  - intros [= <- <-]. apply keeps_keyed_same_map; reflexivity.
  - unfold bind at 1. rewrite addLog_run. unfold bind at 1.
    destruct (followSteps _ _) as [[[[|] | e] w1]|] eqn:E; try discriminate;
      apply followSteps_keyed in E; intros [= <- <-];
      (etransitivity; [apply keeps_keyed_same_map; reflexivity|]);
      (etransitivity; [exact E|]); apply keeps_keyed_same_map; reflexivity.
Qed.

Lemma exploreNext_keyed w r w' :
  exploreNext w = Some (r, w') -> keeps_keyed w w'.
Proof.
  rewrite exploreNext_run.
  destruct (_ || _ || _); [intros [= <- <-]; reflexivity|].
  destruct (gw_discover _ _) as [[cells | err] g].
  - destruct (List.find _ cells) as [next|].
    + unfold bind. rewrite safeMoveTo_run.
      destruct (gw_move _ _ _ _) as [[data | err] g2]; rewrite addLog_run;
        intros [= <- <-];
        (etransitivity; [apply keeps_keyed_after_discover|]);
        apply keeps_keyed_same_map; reflexivity.
    + intros [= <- <-].
      etransitivity; [apply keeps_keyed_after_discover|].
      apply keeps_keyed_same_map; reflexivity.
  - intros [= <- <-]. apply keeps_keyed_same_map; reflexivity.
Qed.

Lemma App_startGame_keyed data fuel w r w' :
  App_startGame data fuel w = Some (r, w') -> keyed (_map (store w')).
Proof.
  unfold App_startGame, try_catch. unfold bind at 1.
  rewrite updateFromStart_run. unfold bind at 1.
  set (w0 := session_started data w).
  assert (keyed (_map (store w0))) as H0 by apply keyed_empty.
  destruct (explore fuel w0) as [[r1 w1]|] eqn:E1; [|discriminate].
  pose proof (explore_keyed _ _ _ _ E1 H0) as H1.
  destruct (explore_run _ _ _ _ E1) as (_ & _ & _ & _ & -> & _).
  destruct (followShortestPath w1) as [[r2 w2]|] eqn:E2; [|discriminate].
  pose proof (followShortestPath_keyed _ _ _ E2 H1) as H2.
  destruct r2; intros [= <- <-]; exact H2.
Qed.

(** X13.  Every entry of the map of the store sits under the key of its own
    coordinate: a session that [App.startGame] runs leaves the map so, and
    [explore], [followShortestPath] and [exploreNext] keep it so. *)
Theorem map_stays_keyed (w : World G) r w' :
  ((exists data fuel, App_startGame data fuel w = Some (r, w'))
   \/ keyed (_map (store w))
      /\ ((exists fuel, explore fuel w = Some (r, w'))
          \/ followShortestPath w = Some (r, w')
          \/ exploreNext w = Some (r, w'))) ->
  keyed (_map (store w')).
Proof.
  intros [(data & fuel & Hrun) | [Hk [[fuel Hrun] | [Hrun | Hrun]]]].
  - eapply App_startGame_keyed, Hrun.
  - eapply explore_keyed; eassumption.
  - eapply followShortestPath_keyed; eassumption.
  - eapply exploreNext_keyed; eassumption.
Qed.

End Keys.

Section Display.

(** ** The grid the component draws *)

Lemma Math_min_le x0 xs x : x ∈ x0 :: xs -> Math_min x0 xs <= x.
Proof.
  unfold Math_min. induction xs as [|x1 xs IH]; simpl.
  - intros Hx. apply list_elem_of_singleton in Hx. lia.
  - intros Hx. apply elem_of_cons in Hx as [-> | Hx].
    + assert (x0 ∈ x0 :: xs) as H0 by left. apply IH in H0. lia.
    + apply elem_of_cons in Hx as [-> | Hx]; [lia|].
      assert (x ∈ x0 :: xs) as H0 by (right; exact Hx). apply IH in H0. lia.
Qed.

Lemma Math_max_ge x0 xs x : x ∈ x0 :: xs -> x <= Math_max x0 xs.
Proof.
  unfold Math_max. induction xs as [|x1 xs IH]; simpl.
  - intros Hx. apply list_elem_of_singleton in Hx. lia.
  - intros Hx. apply elem_of_cons in Hx as [-> | Hx].
    + assert (x0 ∈ x0 :: xs) as H0 by left. apply IH in H0. lia.
    + apply elem_of_cons in Hx as [-> | Hx]; [lia|].
      assert (x ∈ x0 :: xs) as H0 by (right; exact Hx). apply IH in H0. lia.
Qed.

Lemma Math_min_elem x0 xs : Math_min x0 xs ∈ x0 :: xs.
Proof.
  unfold Math_min. induction xs as [|x1 xs IH]; simpl; [left|].
  destruct (Z.min_spec x1 (foldr Z.min x0 xs)) as [[_ ->] | [_ ->]].
  - right. left.
  - apply elem_of_cons in IH as [-> | IH]; [left | right; right; exact IH].
Qed.

Lemma Math_max_elem x0 xs : Math_max x0 xs ∈ x0 :: xs.
Proof.
  unfold Math_max. induction xs as [|x1 xs IH]; simpl; [left|].
  destruct (Z.max_spec x1 (foldr Z.max x0 xs)) as [[_ ->] | [_ ->]].
  - apply elem_of_cons in IH as [-> | IH]; [left | right; right; exact IH].
  - right. left.
Qed.

Lemma grid_at_replicate height width row col :
  (row < height)%nat -> (col < width)%nat ->
  grid_at (replicate height (replicate width None)) row col = Some None.
Proof.
  intros Hr Hc. unfold grid_at.
  destruct (_ !! row) as [r|] eqn:E.
  - apply lookup_replicate in E as [-> _]. apply lookup_replicate_2, Hc.
  - apply lookup_ge_None in E. rewrite length_replicate in E. lia.
Qed.

Lemma grid_shape_replicate height width :
  grid_shape (replicate height (replicate width None)) height width.
Proof.
  split; [apply length_replicate|].
  apply Forall_replicate, length_replicate.
Qed.

(** An assignment inside the grid goes through, keeps the shape and changes
    the one slot. *)
Lemma Grid_set_inside grid height width row col cell :
  grid_shape grid height width ->
  0 <= row < Z.of_nat height -> 0 <= col < Z.of_nat width ->
  exists grid',
    Grid_set grid row col cell = Some grid'
    /\ grid_shape grid' height width
    /\ forall i j,
         grid_at grid' i j
         = if decide (i = Z.to_nat row /\ j = Z.to_nat col)
           then Some (Some cell) else grid_at grid i j.
Proof.
  intros [Hh Hw] Hrow Hcol. unfold Grid_set.
  rewrite bool_decide_eq_true_2 by lia.
  destruct (lookup_lt_is_Some_2 grid (Z.to_nat row) ltac:(lia)) as [r Hr].
  rewrite Hr.
  assert (List.length r = width) as Hlen
    by (rewrite Forall_forall in Hw; apply Hw; eapply list_elem_of_lookup_2, Hr).
  rewrite bool_decide_eq_true_2 by lia.
  eexists. split; [reflexivity|]. split.
  - split; [rewrite length_insert; exact Hh|].
    apply Forall_insert; [exact Hw|]. rewrite length_insert. exact Hlen.
  - intros i j. unfold grid_at.
    destruct (decide (i = Z.to_nat row)) as [-> | Hi].
    + rewrite list_lookup_insert_eq by lia. rewrite Hr.
      destruct (decide (j = Z.to_nat col)) as [-> | Hj].
      * rewrite decide_True by (split; reflexivity).
        apply list_lookup_insert_eq. lia.
      * rewrite decide_False by (intros [_ ?]; contradiction).
        apply list_lookup_insert_ne. congruence.
    + rewrite decide_False by (intros [? _]; contradiction).
      rewrite list_lookup_insert_ne by congruence. reflexivity.
Qed.

(** The loop, over cells that sit inside the grid: every slot ends up with
    the last cell listed for it, or is left as it was. *)
Lemma placeCells_inside minX minY height width : forall cells grid,
  grid_shape grid height width ->
  Forall (fun c => 0 <= cell_y c - minY < Z.of_nat height
                   /\ 0 <= cell_x c - minX < Z.of_nat width) cells ->
  exists grid',
    placeCells minX minY cells grid = Some grid'
    /\ grid_shape grid' height width
    /\ forall i j,
         grid_at grid' i j
         = match last (cells_at (minX + Z.of_nat j) (minY + Z.of_nat i) cells)
           with
           | Some c => Some (Some c)
           | None => grid_at grid i j
           end.
Proof.
  induction cells as [|cell rest IH]; intros grid Hshape Hin; simpl.
  - exists grid. split_and!; auto.
  - apply Forall_cons in Hin as [[Hrow Hcol] Hrest].
    destruct (Grid_set_inside grid height width _ _ cell Hshape Hrow Hcol)
      as (grid1 & -> & Hshape1 & Hat1).
    destruct (IH grid1 Hshape1 Hrest) as (grid' & -> & Hshape' & Hat').
    exists grid'. split_and!; auto.
    intros i j. rewrite Hat', Hat1. unfold cells_at.
    rewrite filter_cons.
    destruct (decide (cell_x cell = minX + Z.of_nat j
                      /\ cell_y cell = minY + Z.of_nat i)) as [[Hx Hy] | Hno].
    + rewrite last_cons.
      destruct (last (filter _ rest)); [reflexivity|].
      rewrite decide_True by (split; lia). reflexivity.
    + destruct (last (filter _ rest)); [reflexivity|].
      rewrite decide_False; [reflexivity|].
      intros [-> ->]. apply Hno. split; lia.
Qed.

(** [buildGrid] on a list that is not empty. *)
Lemma buildGrid_run (cells : list Cell) :
  cells <> [] ->
  exists grid minX minY height width,
    buildGrid cells = Some grid
    /\ grid_shape grid height width
    /\ (forall c, c ∈ cells ->
          minX <= cell_x c < minX + Z.of_nat width
          /\ minY <= cell_y c < minY + Z.of_nat height)
    /\ (exists c, c ∈ cells /\ cell_x c = minX)
    /\ (exists c, c ∈ cells /\ cell_x c = minX + Z.of_nat width - 1)
    /\ (exists c, c ∈ cells /\ cell_y c = minY)
    /\ (exists c, c ∈ cells /\ cell_y c = minY + Z.of_nat height - 1)
    /\ forall row col,
         (row < height)%nat -> (col < width)%nat ->
         grid_at grid row col
         = Some (last (cells_at (minX + Z.of_nat col) (minY + Z.of_nat row)
                         cells)).
Proof.
  destruct cells as [|c0 rest]; [congruence|]. intros _.
  unfold buildGrid.
  set (xs := cell_x <$> rest). set (ys := cell_y <$> rest).
  set (minX := Math_min (cell_x c0) xs). set (maxX := Math_max (cell_x c0) xs).
  set (minY := Math_min (cell_y c0) ys). set (maxY := Math_max (cell_y c0) ys).
  assert (forall c, c ∈ c0 :: rest ->
            minX <= cell_x c <= maxX /\ minY <= cell_y c <= maxY) as Hbox.
  { intros c Hc.
    assert (cell_x c ∈ cell_x c0 :: xs) as Hx
      by (apply (list_elem_of_fmap_2 cell_x (c0 :: rest)), Hc).
    assert (cell_y c ∈ cell_y c0 :: ys) as Hy
      by (apply (list_elem_of_fmap_2 cell_y (c0 :: rest)), Hc).
    pose proof (Math_min_le _ _ _ Hx). pose proof (Math_max_ge _ _ _ Hx).
    pose proof (Math_min_le _ _ _ Hy). pose proof (Math_max_ge _ _ _ Hy).
    repeat split; assumption. }
  destruct (Hbox c0 ltac:(left)) as [Hx0 Hy0].
  set (height := Z.to_nat (maxY - minY + 1)).
  set (width := Z.to_nat (maxX - minX + 1)).
  destruct (placeCells_inside minX minY height width (c0 :: rest)
              (replicate height (replicate width None)))
    as (grid & Hrun & Hshape & Hat).
  { apply grid_shape_replicate. }
  { apply Forall_forall. intros c Hc. destruct (Hbox c Hc). unfold height, width.
    lia. }
  assert (forall (f : Cell -> Z) (l : list Cell) z,
            z ∈ f <$> l -> exists c, c ∈ l /\ f c = z) as Hpre.
  { intros f l z Hz. apply list_elem_of_fmap in Hz as (c & -> & Hc).
    exists c. split; [exact Hc | reflexivity]. }
  exists grid, minX, minY, height, width. split_and!.
  - exact Hrun.
  - exact Hshape.
  - intros c Hc. destruct (Hbox c Hc). unfold height, width. lia.
  - apply (Hpre cell_x (c0 :: rest)), Math_min_elem.
  - replace (minX + Z.of_nat width - 1) with maxX by (unfold width; lia).
    apply (Hpre cell_x (c0 :: rest)), Math_max_elem.
  - apply (Hpre cell_y (c0 :: rest)), Math_min_elem.
  - replace (minY + Z.of_nat height - 1) with maxY by (unfold height; lia).
    apply (Hpre cell_y (c0 :: rest)), Math_max_elem.
  - intros row col Hrow Hcol. rewrite Hat.
    rewrite grid_at_replicate by assumption.
    destruct (last _); reflexivity.
Qed.

(** X12.  [buildGrid] never writes outside the grid it has created.  For a
    list of cells that is not empty the grid is the bounding box of the
    cells, with a column and a row for every coordinate between the smallest
    and the largest, both of which some cell has; every slot holds the last
    cell listed for its coordinate, and [null] when there is none. *)
Theorem buildGrid_fills_the_bounding_box (cells : list Cell) :
  cells <> [] ->
  exists grid minX minY height width,
    buildGrid cells = Some grid
    /\ grid_shape grid height width
    /\ (forall c, c ∈ cells ->
          minX <= cell_x c < minX + Z.of_nat width
          /\ minY <= cell_y c < minY + Z.of_nat height)
    /\ (exists c, c ∈ cells /\ cell_x c = minX)
    /\ (exists c, c ∈ cells /\ cell_x c = minX + Z.of_nat width - 1)
    /\ (exists c, c ∈ cells /\ cell_y c = minY)
    /\ (exists c, c ∈ cells /\ cell_y c = minY + Z.of_nat height - 1)
    /\ forall row col,
         (row < height)%nat -> (col < width)%nat ->
         grid_at grid row col
         = Some (last (cells_at (minX + Z.of_nat col) (minY + Z.of_nat row)
                         cells)).
Proof. apply buildGrid_run. Qed.

Lemma grid_at_inside grid height width row col slot :
  grid_shape grid height width ->
  grid_at grid row col = Some slot ->
  (row < height)%nat /\ (col < width)%nat.
Proof.
  intros [Hh Hw]. unfold grid_at.
  destruct (grid !! row) as [r|] eqn:Hr; [|discriminate].
  intros Hc. split.
  - rewrite <- Hh. eapply lookup_lt_Some, Hr.
  - rewrite Forall_forall in Hw.
    rewrite <- (Hw r (list_elem_of_lookup_2 _ _ _ Hr)).
    eapply lookup_lt_Some, Hc.
Qed.

Lemma cells_at_elem px py cells c :
  c ∈ cells_at px py cells <-> (cell_x c = px /\ cell_y c = py) /\ c ∈ cells.
Proof. unfold cells_at. rewrite list_elem_of_filter. reflexivity. Qed.

Lemma cellKey_coords c c' :
  cell_x c = cell_x c' -> cell_y c = cell_y c' -> cellKey c = cellKey c'.
Proof. unfold cellKey. intros -> ->. reflexivity. Qed.

(** Among cells with distinct keys, a coordinate has at most one cell. *)
Lemma cells_at_unique cells c :
  NoDup (cellKey <$> cells) -> c ∈ cells ->
  cells_at (cell_x c) (cell_y c) cells = [c].
Proof.
  induction cells as [|c0 rest IH]; intros Hnd Hin; [inversion Hin|].
  rewrite fmap_cons in Hnd. apply NoDup_cons in Hnd as [Hfresh Hnd].
  unfold cells_at. rewrite filter_cons.
  apply elem_of_cons in Hin as [-> | Hin].
  - rewrite decide_True by (split; reflexivity). f_equal.
    destruct (filter _ rest) as [|c' l] eqn:E; [reflexivity|].
    assert (c' ∈ cells_at (cell_x c0) (cell_y c0) rest) as Hc'
      by (unfold cells_at; rewrite E; left).
    apply cells_at_elem in Hc' as [[Hx Hy] Hc']. exfalso. apply Hfresh.
    rewrite <- (cellKey_coords c' c0 Hx Hy).
    apply list_elem_of_fmap_2, Hc'.
  - rewrite decide_False; [apply IH; assumption|].
    intros [Hx Hy]. apply Hfresh.
    rewrite (cellKey_coords c0 c Hx Hy). apply list_elem_of_fmap_2, Hin.
Qed.

(** The values of a keyed map have distinct keys, in any order. *)
Lemma getCells_of_NoDup m cells :
  keyed m -> getCells_of m cells -> NoDup (cellKey <$> cells).
Proof.
  intros Hkeyed Hperm. unfold getCells_of in Hperm. rewrite Hperm.
  assert (cellKey <$> (map_to_list m).*2 = (map_to_list m).*1) as ->.
  { rewrite <- list_fmap_compose. apply list_fmap_ext.
    intros i [k c] Hkc. simpl. symmetry. apply Hkeyed.
    apply elem_of_map_to_list. eapply list_elem_of_lookup_2, Hkc. }
  apply NoDup_fst_map_to_list.
Qed.

Lemma getCells_of_elem m cells c :
  keyed m -> getCells_of m cells ->
  c ∈ cells <-> m !! cellKey c = Some c.
Proof.
  intros Hkeyed Hperm. unfold getCells_of in Hperm. rewrite Hperm.
  rewrite list_elem_of_fmap. split.
  - intros ([k c'] & -> & Hkc). apply elem_of_map_to_list in Hkc. simpl.
    rewrite <- (Hkeyed _ _ Hkc). exact Hkc.
  - intros Hc. exists (cellKey c, c). split; [reflexivity|].
    apply elem_of_map_to_list, Hc.
Qed.

(** X14.  The grid the component builds from the cells of the map shows
    the map: when every entry of the map sits under the key of its own
    coordinate (which the store maintains), [buildGrid] succeeds on the
    values of the map, in whatever order they are listed; every cell of the
    map is in the grid, every cell in the grid is the cell the map holds for
    its coordinate, and no cell is in two slots. *)
Theorem grid_shows_the_map (m : gmap string Cell) (cells : list Cell) :
  keyed m -> getCells_of m cells ->
  exists grid,
    buildGrid cells = Some grid
    /\ (forall k c, m !! k = Some c ->
          exists row col, grid_at grid row col = Some (Some c))
    /\ (forall row col c,
          grid_at grid row col = Some (Some c) -> m !! cellKey c = Some c)
    /\ (forall row col row' col' c,
          grid_at grid row col = Some (Some c) ->
          grid_at grid row' col' = Some (Some c) ->
          row = row' /\ col = col').
Proof.
  intros Hkeyed Hcells.
  pose proof (getCells_of_NoDup _ _ Hkeyed Hcells) as Hnd.
  destruct cells as [|c0 rest] eqn:Ecells.
  - exists []. split_and!; [reflexivity | | |].
    + intros k c Hkc. rewrite (Hkeyed _ _ Hkc) in Hkc.
      apply (getCells_of_elem _ _ _ Hkeyed Hcells) in Hkc. inversion Hkc.
    + intros row col c. unfold grid_at. rewrite lookup_nil. discriminate.
    + intros row col row' col' c. unfold grid_at. rewrite lookup_nil.
      discriminate.
  - rewrite <- Ecells in *.
    destruct (buildGrid_run cells ltac:(rewrite Ecells; discriminate))
      as (grid & minX & minY & height & width & Hrun & Hshape & Hbox & _ & _
          & _ & _ & Hat).
    assert (forall row col c,
              grid_at grid row col = Some (Some c) ->
              c ∈ cells /\ cell_x c = minX + Z.of_nat col
              /\ cell_y c = minY + Z.of_nat row) as Hslot.
    { intros row col c Hc.
      destruct (grid_at_inside _ _ _ _ _ _ Hshape Hc) as [Hrow Hcol].
      rewrite (Hat row col Hrow Hcol) in Hc. injection Hc as Hc.
      apply last_Some_elem_of, cells_at_elem in Hc as [[Hx Hy] Hc].
      split_and!; assumption. }
    exists grid. split_and!; [exact Hrun | | |].
    + intros k c Hkc. rewrite (Hkeyed _ _ Hkc) in Hkc.
      apply (getCells_of_elem _ _ _ Hkeyed Hcells) in Hkc.
      destruct (Hbox c Hkc) as [Hx Hy].
      exists (Z.to_nat (cell_y c - minY)), (Z.to_nat (cell_x c - minX)).
      rewrite Hat by lia.
      replace (minX + Z.of_nat (Z.to_nat (cell_x c - minX))) with (cell_x c)
        by lia.
      replace (minY + Z.of_nat (Z.to_nat (cell_y c - minY))) with (cell_y c)
        by lia.
      rewrite (cells_at_unique _ _ Hnd Hkc). reflexivity.
    + intros row col c Hc. destruct (Hslot _ _ _ Hc) as (Hin & _).
      apply (getCells_of_elem _ _ _ Hkeyed Hcells), Hin.
    + intros row col row' col' c Hc Hc'.
      destruct (Hslot _ _ _ Hc) as (_ & Hx & Hy).
      destruct (Hslot _ _ _ Hc') as (_ & Hx' & Hy'). lia.
Qed.

(** ** The keys of [trackByCell] *)

Lemma comma_free_app s1 s2 :
  comma_free (s1 +:+ s2) = comma_free s1 && comma_free s2.
Proof.
  induction s1 as [|ch s1 IH]; simpl; [reflexivity|].
  rewrite IH. apply andb_assoc.
Qed.

(** X15.  Along a row of a grid that [buildGrid] has built, the keys
    [trackByCell] gives to the slots are pairwise distinct, empty slots
    included. *)
Theorem trackByCell_keys_differ cells grid row r i j si sj :
  buildGrid cells = Some grid ->
  grid !! row = Some r ->
  r !! i = Some si -> r !! j = Some sj ->
  trackByCell si i = trackByCell sj j ->
  i = j.
Proof.
  intros Hrun Hr Hi Hj.
  destruct cells as [|c0 rest] eqn:Ecells.
  { injection Hrun as <-. rewrite lookup_nil in Hr. discriminate. }
  rewrite <- Ecells in *.
  destruct (buildGrid_run cells ltac:(rewrite Ecells; discriminate))
    as (grid' & minX & minY & height & width & Hrun' & Hshape & _ & _ & _
        & _ & _ & Hat).
  rewrite Hrun in Hrun'. injection Hrun' as <-.
  assert (forall k s, r !! k = Some (Some s) -> cell_x s = minX + Z.of_nat k)
    as Hcol.
  { intros k s Hk.
    assert (grid_at grid row k = Some (Some s)) as Hs
      by (unfold grid_at; rewrite Hr; exact Hk).
    destruct (grid_at_inside _ _ _ _ _ _ Hshape Hs) as [Hrow Hc].
    rewrite (Hat row k Hrow Hc) in Hs. injection Hs as Hs.
    apply last_Some_elem_of, cells_at_elem in Hs as [[Hx _] _]. exact Hx. }
  destruct si as [ci|], sj as [cj|]; simpl; intros Hkeys.
  - assert (coordKey (coords_of ci) = coordKey (coords_of cj)) as Heq
      by exact Hkeys.
    apply (inj coordKey) in Heq. injection Heq as Hx _.
    rewrite (Hcol _ _ Hi), (Hcol _ _ Hj) in Hx. lia.
  - apply (f_equal comma_free) in Hkeys.
    rewrite !comma_free_app in Hkeys. simpl in Hkeys.
    rewrite !pretty_Z_comma_free in Hkeys. discriminate.
  - apply (f_equal comma_free) in Hkeys.
    rewrite !comma_free_app in Hkeys. simpl in Hkeys.
    rewrite !pretty_Z_comma_free in Hkeys. discriminate.
  - injection Hkeys as Hkeys.
    change (pretty (Z.of_nat i) = pretty (Z.of_nat j)) in Hkeys.
    apply (inj (@pretty Z _)) in Hkeys. lia.
Qed.

End Display.

(** * The store at work in the mazes *)

Import GridMaze Scenarios.

(** C1.  In the maze [block] the exit is reached by two walks, of three and
    of five cells, both from the entry, both without a trap and without
    coming to a coordinate twice.  Whatever the fuel, a run of [explore] that
    returns has recorded the walk of five cells only: the cells of the short
    walk were marked visited on the long one, and the search never unmarks a
    cell. *)
Theorem explore_misses_a_walk :
  safe_walk block block_short_walk = true
  /\ safe_walk block block_long_walk = true
  /\ explore 4 (started block None) = Some (Returned tt, block_explored)
  /\ results block_explored = [PathCandidate.make block_long_walk 5]
  /\ forall fuel r w',
       explore fuel (started block None) = Some (r, w') ->
       forall c, c ∈ results w' -> PathCandidate.path c <> block_short_walk.
Proof.
  assert (explore 4 (started block None) = Some (Returned tt, block_explored))
    as Hrun by (vm_compute; reflexivity).
  assert (results block_explored = [PathCandidate.make block_long_walk 5])
    as Hres by (vm_compute; reflexivity).
  split_and!; try (vm_compute; reflexivity); try assumption.
  intros fuel r w' Hfuel c Hc.
  assert (w' = block_explored) as ->.
  { destruct (Nat.le_ge_cases fuel 4) as [Hle | Hge].
    - apply (explore_fuel _ _ _ _ Hle) in Hfuel. congruence.
    - apply (explore_fuel _ _ _ _ Hge) in Hrun. congruence. }
  rewrite Hres in Hc. apply list_elem_of_singleton in Hc. subst c.
  discriminate.
Qed.

(** C8.  In the world a start leaves, the stepper is armed and idle, and a
    call of [exploreNext] would discover and step east; yet a run of the
    effect makes no call and leaves the player where it is: it raises
    [isExploringNow] before it calls [exploreNext], whose first line returns
    when that flag is raised. *)
Theorem effect_run_never_steps :
  let w := started corridor None in
  (_discoverUrl (store w) = "/discover"
   /\ _isExploring (store w) = true /\ isExploringNow (store w) = false
   /\ _isWin (store w) = false /\ _isDead (store w) = false)
  /\ (fst <$> exploreNext w = Some (Returned tt)
      /\ calls (run exploreNext w)
         = [CallDiscover "/discover" (inl [path_cell 1 0]);
            CallMove "/move" 1 0 (inl (moved 1 0 false))]
      /\ _position (store (run exploreNext w)) = at_ 1 0
      /\ _log (store (run exploreNext w)) = ["Déplacement vers (1, 0)"])
  /\ (fst <$> effect_run w = Some (Returned tt)
      /\ calls (run effect_run w) = []
      /\ _position (store (run effect_run w)) = at_ 0 0
      /\ _log (store (run effect_run w)) = []).
Proof. vm_compute. split_and!; reflexivity. Qed.

(** The claim C2 as it was stated speaks of every cell of a recorded
    sequence, the first one included.  The first coordinate is the position
    of the player, whose kind [explore] never reads: in [doorway] the
    recorded sequence starts on a cell of kind [stop] that is not its last
    cell, and in [trapped_entry] it starts on a trap. *)
Lemma explore_never_reads_the_kind_of_the_start :
  (explore 1 (started doorway None) = Some (Returned tt, doorway_explored)
   /\ results doorway_explored = [PathCandidate.make [at_ 0 0; at_ 1 0] 2]
   /\ exists c q,
        c ∈ results doorway_explored /\ q ∈ PathCandidate.path c
        /\ kind_at doorway q = Some CELL_TYPE.stop
        /\ last (PathCandidate.path c) <> Some q)
  /\ (explore 2 (started trapped_entry None)
      = Some (Returned tt, trapped_entry_explored)
      /\ results trapped_entry_explored
         = [PathCandidate.make [at_ 0 0; at_ 1 0; at_ 2 0] 3]
      /\ exists c q,
           c ∈ results trapped_entry_explored /\ q ∈ PathCandidate.path c
           /\ kind_at trapped_entry q = Some CELL_TYPE.trap).
Proof.
  split.
  - split; [vm_compute; reflexivity|]. split; [vm_compute; reflexivity|].
    exists (PathCandidate.make [at_ 0 0; at_ 1 0] 2), (at_ 0 0).
    split_and!.
    + replace (results doorway_explored)
        with [PathCandidate.make [at_ 0 0; at_ 1 0] 2]
        by (vm_compute; reflexivity).
      left.
    + left.
    + reflexivity.
    + discriminate.
  - split; [vm_compute; reflexivity|]. split; [vm_compute; reflexivity|].
    exists (PathCandidate.make [at_ 0 0; at_ 1 0; at_ 2 0] 3), (at_ 0 0).
    split_and!.
    + replace (results trapped_entry_explored)
        with [PathCandidate.make [at_ 0 0; at_ 1 0; at_ 2 0] 3]
        by (vm_compute; reflexivity).
      left.
    + left.
    + reflexivity.
Qed.

(** ** The grid mazes are finite *)

Lemma cell_at_elem maze px py c : cell_at maze px py = Some c -> c ∈ maze.
Proof.
  unfold cell_at. intros Hfind. apply find_some in Hfind as [Hin _].
  apply list_elem_of_In, Hin.
Qed.

Lemma tick_maze g : maze (tick g).2 = maze g.
Proof. unfold tick. destruct (hiccup g) as [[|n]|]; reflexivity. Qed.

Lemma answer_move_maze g url px py : maze (answer_move g url px py).2 = maze g.
Proof.
  unfold answer_move, tick.
  destruct (hiccup g) as [[|n]|]; simpl; try reflexivity;
    destruct (cell_at _ _ _) as [c|]; try reflexivity;
    destruct (move c && _); reflexivity.
Qed.

Lemma answer_discover_maze g url : maze (answer_discover g url).2 = maze g.
Proof.
  unfold answer_discover, tick.
  destruct (hiccup g) as [[|n]|]; reflexivity.
Qed.

Lemma answer_discover_cells g url cells :
  (answer_discover g url).1 = inl cells ->
  forall c, c ∈ cells -> coordKey (coords_of c) ∈ maze_keys (maze g).
Proof.
  intros Hcells c Hc.
  assert (c ∈ maze g) as Hin.
  { unfold answer_discover in Hcells.
    pose proof (tick_maze g) as Hmaze.
    destruct (tick g) as [[|] g']; cbn [negb fst snd] in Hcells, Hmaze;
      [|discriminate].
    remember (omap _ _) as l eqn:Hl in Hcells.
    injection Hcells as ->. rewrite Hl in Hc.
    apply list_elem_of_omap in Hc as (d & _ & Hd).
    rewrite <- Hmaze. eapply cell_at_elem, Hd. }
  unfold maze_keys. apply elem_of_list_to_set, list_elem_of_fmap.
  exists c. split; [reflexivity | exact Hin].
Qed.

(** In a grid maze [explore] returns, whatever the maze and wherever the
    timeout strikes. *)
Lemma explore_terminates_in_grid (m : list Cell) (h : option nat) :
  exists w',
    explore (S (S (size (maze_keys m)))) (started m h) = Some (Returned tt, w').
Proof.
  apply (explore_terminates (fun g => maze g = m) (maze_keys m)).
  - intros g url px py <-. apply answer_move_maze.
  - intros g url <-. apply answer_discover_maze.
  - intros g url cells <-. apply answer_discover_cells.
  - reflexivity.
Qed.

(** ** The hypotheses of the theorems, met *)

Lemma explore_records_safe_exit_paths_witness :
  explore 4 (started crossing None) = Some (Returned tt, crossing_explored)
  /\ exists found,
       foundPaths 4 (started crossing None) = Some found
       /\ (found = [] ->
           results crossing_explored = results (started crossing None))
       /\ (found <> [] -> results crossing_explored ≡ₚ found)
       /\ Forall
            (fun c =>
               exit_path (calls crossing_explored)
                 (_position (store (started crossing None))) c
               /\ NoDup (PathCandidate.path c)
               /\ forall kind_at : CellCoordinates -> CELL_TYPE.t,
                    (forall cell, discovered (calls crossing_explored) cell ->
                                  value cell = kind_at (coords_of cell)) ->
                    exists inner last,
                      PathCandidate.path c
                      = _position (store (started crossing None))
                          :: (inner ++ [last])%list
                      /\ kind_at last = CELL_TYPE.stop
                      /\ Forall (fun q => kind_at q <> CELL_TYPE.trap
                                          /\ kind_at q <> CELL_TYPE.stop) inner)
            found.
Proof.
  split; [vm_compute; reflexivity|].
  apply (explore_records_safe_exit_paths 4%nat (started crossing None)
           (Returned tt)).
  vm_compute; reflexivity.
Defined.

Lemma explore_never_rejects_witness :
  (exists w',
     explore (S (S (size (maze_keys crossing)))) (started crossing (Some 5%nat))
     = Some (Returned tt, w'))
  /\ explore 4 (started crossing (Some 5%nat))
     = Some (Returned tt, crossing_explored_with_timeout)
  /\ foundPaths 4 (started crossing (Some 5%nat))
     = Some [crossing_east; crossing_west]
  /\ results crossing_explored_with_timeout ≡ₚ [crossing_east; crossing_west].
Proof.
  destruct (@explore_never_rejects state gateway) as (Hends & Hreturns & _).
  split.
  { apply (Hends (fun g => maze g = crossing) (maze_keys crossing)).
    - intros g url px py <-. apply answer_move_maze.
    - intros g url <-. apply answer_discover_maze.
    - intros g url cells <-. apply answer_discover_cells.
    - reflexivity. }
  split; [vm_compute; reflexivity|]. split; [vm_compute; reflexivity|].
  apply (Hreturns 4%nat (started crossing (Some 5%nat)) (Returned tt)).
  - vm_compute; reflexivity.
  - vm_compute; reflexivity.
  - discriminate.
Defined.

Lemma explore_publishes_sorted_witness :
  explore 4 (started crossing None) = Some (Returned tt, crossing_explored)
  /\ foundPaths 4 (started crossing None)
     = Some [crossing_east; crossing_round; crossing_west]
  /\ results crossing_explored
     = Array_sort [crossing_east; crossing_round; crossing_west]
  /\ results crossing_explored ≡ₚ [crossing_east; crossing_round; crossing_west]
  /\ (forall i r1 r2,
        results crossing_explored !! i = Some r1 ->
        results crossing_explored !! S i = Some r2 ->
        (PathCandidate.length r1 <= PathCandidate.length r2)%nat)
  /\ exists shortest,
       results crossing_explored !! 0%nat = Some shortest
       /\ forall c, c ∈ results crossing_explored ->
            (PathCandidate.length shortest <= PathCandidate.length c)%nat.
Proof.
  split; [vm_compute; reflexivity|]. split; [vm_compute; reflexivity|].
  apply (explore_publishes_sorted 4%nat (started crossing None) (Returned tt)).
  - vm_compute; reflexivity.
  - vm_compute; reflexivity.
Defined.

Lemma followShortestPath_no_results_witness :
  results (started corridor None) = []
  /\ exists w',
       followShortestPath (started corridor None) = Some (Returned tt, w')
       /\ _log (store w')
          = (_log (store (started corridor None))
             ++ ["Aucun chemin disponible vers la sortie."])%list
       /\ _isFinish (store w') = true
       /\ calls w' = calls (started corridor None)
       /\ gw w' = gw (started corridor None)
       /\ _position (store w') = _position (store (started corridor None))
       /\ _map (store w') = _map (store (started corridor None))
       /\ _visited (store w') = _visited (store (started corridor None)).
Proof.
  split; [vm_compute; reflexivity|].
  apply followShortestPath_no_results. vm_compute; reflexivity.
Defined.

Lemma followShortestPath_aborts_on_failure_witness :
  results corridor_explored_before_timeout = [corridor_path]
  /\ accepts (gw corridor_explored_before_timeout)
       (_moveUrl (store corridor_explored_before_timeout)) [at_ 1 0]
       [CallMove "/move" 1 0 (inl (moved 1 0 false))]
       (mkState corridor (at_ 1 0) (Some 0%nat)) "/move"
  /\ gw_move (mkState corridor (at_ 1 0) (Some 0%nat)) "/move" 2 0
     = (inr Timeout, mkState corridor (at_ 1 0) None)
  /\ exists w',
       followShortestPath corridor_explored_before_timeout
       = Some (Returned tt, w')
       /\ calls w'
          = (calls corridor_explored_before_timeout
             ++ [CallMove "/move" 1 0 (inl (moved 1 0 false))]
             ++ [CallMove "/move" 2 0 (inr Timeout)])%list
       /\ Forall2 move_to [CallMove "/move" 1 0 (inl (moved 1 0 false))]
            [at_ 1 0]
       /\ gw w' = mkState corridor (at_ 1 0) None
       /\ _log (store w')
          = (_log (store corridor_explored_before_timeout)
             ++ ["Début du trajet vers la sortie (" +:+ pretty 3%nat
                 +:+ " étapes)."]
             ++ map moveLog [at_ 1 0] ++ failureLogs (at_ 2 0) Timeout)%list
       /\ _isFinish (store w')
          = _isFinish (store corridor_explored_before_timeout).
Proof.
  assert (accepts (gw corridor_explored_before_timeout)
            (_moveUrl (store corridor_explored_before_timeout)) [at_ 1 0]
            [CallMove "/move" 1 0 (inl (moved 1 0 false))]
            (mkState corridor (at_ 1 0) (Some 0%nat)) "/move") as Hacc.
  { apply (accepts_cons _ _ (at_ 1 0) [] (moved 1 0 false)
             (mkState corridor (at_ 1 0) (Some 0%nat))).
    - vm_compute; reflexivity.
    - apply accepts_nil. }
  split; [vm_compute; reflexivity|]. split; [exact Hacc|].
  split; [vm_compute; reflexivity|].
  apply (followShortestPath_aborts_on_failure corridor_explored_before_timeout
           corridor_path [] (at_ 0 0) [at_ 1 0] (at_ 2 0) [] _ _ _ _ _
           eq_refl eq_refl Hacc).
  vm_compute; reflexivity.
Defined.

Lemma followShortestPath_walks_first_result_witness :
  results corridor_explored = [corridor_path]
  /\ accepts (gw corridor_explored) (_moveUrl (store corridor_explored))
       [at_ 1 0; at_ 2 0]
       [CallMove "/move" 1 0 (inl (moved 1 0 false));
        CallMove "/move" 2 0 (inl (moved 2 0 true))]
       (mkState corridor (at_ 2 0) None) "/move"
  /\ exists w',
       followShortestPath corridor_explored = Some (Returned tt, w')
       /\ calls w'
          = (calls corridor_explored
             ++ [CallMove "/move" 1 0 (inl (moved 1 0 false));
                 CallMove "/move" 2 0 (inl (moved 2 0 true))])%list
       /\ Forall2 move_to
            [CallMove "/move" 1 0 (inl (moved 1 0 false));
             CallMove "/move" 2 0 (inl (moved 2 0 true))]
            [at_ 1 0; at_ 2 0]
       /\ List.length [CallMove "/move" 1 0 (inl (moved 1 0 false));
                       CallMove "/move" 2 0 (inl (moved 2 0 true))]
          = (List.length (PathCandidate.path corridor_path) - 1)%nat
       /\ _log (store w')
          = (_log (store corridor_explored)
             ++ ["Début du trajet vers la sortie (" +:+ pretty 3%nat
                 +:+ " étapes)."]
             ++ map moveLog [at_ 1 0; at_ 2 0]
             ++ ["Le joueur est arrivé à la sortie !"])%list
       /\ _isFinish (store w') = true
       /\ _isExploring (store w') = false.
Proof.
  assert (accepts (gw corridor_explored) (_moveUrl (store corridor_explored))
            [at_ 1 0; at_ 2 0]
            [CallMove "/move" 1 0 (inl (moved 1 0 false));
             CallMove "/move" 2 0 (inl (moved 2 0 true))]
            (mkState corridor (at_ 2 0) None) "/move") as Hacc.
  { apply (accepts_cons _ _ (at_ 1 0) [at_ 2 0] (moved 1 0 false)
             (mkState corridor (at_ 1 0) None)).
    - vm_compute; reflexivity.
    - apply (accepts_cons _ _ (at_ 2 0) [] (moved 2 0 true)
               (mkState corridor (at_ 2 0) None)).
      + vm_compute; reflexivity.
      + apply accepts_nil. }
  split; [vm_compute; reflexivity|]. split; [exact Hacc|].
  apply (proj2 (followShortestPath_walks_first_result corridor_explored
                  corridor_path [] eq_refl) _ _ _ Hacc).
Defined.

Lemma explore_first_moves_to_start_witness :
  gw_move (gw corridor_unreachable) (_moveUrl (store corridor_unreachable))
    (x (_position (store corridor_unreachable)))
    (y (_position (store corridor_unreachable)))
  = (inr Timeout, mkState corridor (at_ 0 0) None)
  /\ exists w',
       explore 1 corridor_unreachable = Some (Returned tt, w')
       /\ calls w'
          = (calls corridor_unreachable
             ++ [CallMove (_moveUrl (store corridor_unreachable))
                   (x (_position (store corridor_unreachable)))
                   (y (_position (store corridor_unreachable)))
                   (inr Timeout)])%list
       /\ foundPaths 1 corridor_unreachable = Some []
       /\ results w' = results corridor_unreachable
       /\ _log (store w')
          = (_log (store corridor_unreachable)
             ++ moveErrorLogs (_position (store corridor_unreachable)) Timeout
             ++ ["Aucun chemin vers la sortie trouvé."])%list.
Proof.
  split; [vm_compute; reflexivity|].
  apply (proj2 explore_first_moves_to_start 0%nat corridor_unreachable Timeout
           (mkState corridor (at_ 0 0) None)).
  vm_compute; reflexivity.
Defined.

Lemma discovered_map_monotone_witness :
  explore 4 (started crossing None) = Some (Returned tt, crossing_explored)
  /\ (forall k, is_Some (_map (store (started crossing None)) !! k) ->
                is_Some (_map (store crossing_explored) !! k))
  /\ (size (_map (store (started crossing None)))
      <= size (_map (store crossing_explored)))%nat.
Proof.
  split; [vm_compute; reflexivity|].
  apply (proj2 (@discovered_map_monotone state gateway)
           (started crossing None) (Returned tt) crossing_explored).
  left. exists 4%nat. vm_compute; reflexivity.
Defined.

Lemma store_mirrors_the_responses_witness :
  explore 4 (started crossing None) = Some (Returned tt, crossing_explored)
  /\ exists evs,
       calls crossing_explored = (calls (started crossing None) ++ evs)%list
       /\ replay (mirror (store (started crossing None))) evs
          = Some (mirror (store crossing_explored)).
Proof.
  split; [vm_compute; reflexivity|].
  apply (store_mirrors_the_responses (started crossing None) (Returned tt)
           crossing_explored).
  left. exists 4%nat. vm_compute; reflexivity.
Defined.

Lemma App_startGame_outcomes_witness :
  App_startGame (start_response corridor) 2
    (initial_world (mkState corridor (mkCoord 0 0) None))
  = Some (Returned tt, corridor_session)
  /\ ((results corridor_session = []
       /\ _isFinish (store corridor_session) = true
       /\ _isExploring (store corridor_session) = true
       /\ last (_log (store corridor_session))
          = Some "Aucun chemin disponible vers la sortie.")
      \/ (results corridor_session <> []
          /\ _isFinish (store corridor_session) = true
          /\ _isExploring (store corridor_session) = false
          /\ last (_log (store corridor_session))
             = Some "Le joueur est arrivé à la sortie !")
      \/ (results corridor_session <> []
          /\ _isFinish (store corridor_session) = false
          /\ _isExploring (store corridor_session) = true
          /\ exists shortest step err,
               results corridor_session !! 0%nat = Some shortest
               /\ step ∈ drop 1 (PathCandidate.path shortest)
               /\ last (_log (store corridor_session))
                  = Some (abortLog step err))).
Proof.
  split; [vm_compute; reflexivity|].
  apply (App_startGame_outcomes (start_response corridor) 2%nat
           (initial_world (mkState corridor (mkCoord 0 0) None)) (Returned tt)).
  vm_compute; reflexivity.
Defined.

Lemma exploreNext_logs_a_rejected_move_witness :
  gw_move (mkState corridor (at_ 0 0) (Some 0%nat)) "/move" 1 0
  = (inr Timeout, mkState corridor (at_ 0 0) None)
  /\ exists w',
       exploreNext corridor_second_call_fails = Some (Returned tt, w')
       /\ _log (store w')
          = (_log (store corridor_second_call_fails)
             ++ ["Erreur lors du déplacement vers (" +:+ pretty 1 +:+ ", "
                 +:+ pretty 0 +:+ ") : " +:+ err_toString Timeout;
                 "Déplacement vers (" +:+ pretty 1 +:+ ", " +:+ pretty 0
                 +:+ ")"])%list
       /\ _position (store w') = _position (store corridor_second_call_fails)
       /\ _visited (store w') = _visited (store corridor_second_call_fails)
       /\ _isExploring (store w')
          = _isExploring (store corridor_second_call_fails)
       /\ _isFinish (store w') = _isFinish (store corridor_second_call_fails).
Proof.
  split; [vm_compute; reflexivity|].
  apply (exploreNext_logs_a_rejected_move corridor_second_call_fails
           [path_cell 1 0] (mkState corridor (at_ 0 0) (Some 0%nat))
           (path_cell 1 0) Timeout (mkState corridor (at_ 0 0) None)).
  - vm_compute; reflexivity.
  - vm_compute; reflexivity.
  - vm_compute; reflexivity.
  - vm_compute; reflexivity.
Defined.

Lemma log_is_append_only_witness :
  explore 4 (started crossing None) = Some (Returned tt, crossing_explored)
  /\ exists entries,
       _log (store crossing_explored)
       = (_log (store (started crossing None)) ++ entries)%list.
Proof.
  split; [vm_compute; reflexivity|].
  apply (log_is_append_only (started crossing None) (Returned tt)
           crossing_explored).
  left. exists 4%nat. vm_compute; reflexivity.
Defined.

Lemma coordKey_injective_witness :
  coordKey (at_ 2 (-1)) = "2,-1" /\ at_ 2 (-1) = mkCoord 2 (-1).
Proof.
  split; [vm_compute; reflexivity|].
  apply (coordKey_injective (at_ 2 (-1)) (mkCoord 2 (-1))). reflexivity.
Defined.

Lemma explore_breaks_ties_by_discovery_witness :
  foundPaths 4 (started crossing None)
  = Some [crossing_east; crossing_round; crossing_west]
  /\ exists shortest,
       results crossing_explored !! 0%nat = Some shortest
       /\ (forall c, c ∈ [crossing_east; crossing_round; crossing_west] ->
             (PathCandidate.length shortest <= PathCandidate.length c)%nat)
       /\ head (filter (fun c => PathCandidate.length c
                                 = PathCandidate.length shortest)
                  [crossing_east; crossing_round; crossing_west])
          = Some shortest.
Proof.
  split; [vm_compute; reflexivity|].
  apply (explore_breaks_ties_by_discovery 4%nat (started crossing None)
           (Returned tt) crossing_explored).
  - vm_compute; reflexivity.
  - vm_compute; reflexivity.
  - discriminate.
Defined.

Lemma explore_moves_only_where_reported_safe_witness :
  explore 4 (started crossing None) = Some (Returned tt, crossing_explored)
  /\ exists evs,
       calls crossing_explored = (calls (started crossing None) ++ evs)%list
       /\ forall evs1 url px py res evs2,
            evs = (evs1 ++ CallMove url px py res :: evs2)%list ->
            mkCoord px py = _position (store (started crossing None))
            \/ exists cell,
                 discovered (calls (started crossing None) ++ evs1) cell
                 /\ move cell = true
                 /\ value cell <> CELL_TYPE.trap
                 /\ value cell <> CELL_TYPE.stop
                 /\ cell_x cell = px /\ cell_y cell = py.
Proof.
  split; [vm_compute; reflexivity|].
  apply (explore_moves_only_where_reported_safe 4%nat (started crossing None)
           (Returned tt) crossing_explored).
  vm_compute; reflexivity.
Defined.

Lemma explore_ends_with_a_move_to_start_witness :
  explore 4 (started crossing None) = Some (Returned tt, crossing_explored)
  /\ exists evs url res,
       calls crossing_explored = (calls (started crossing None) ++ evs)%list
       /\ last_move_call evs
          = Some (CallMove url (x (_position (store (started crossing None))))
                    (y (_position (store (started crossing None)))) res)
       /\ forall data, res = inl data ->
            _position (store crossing_explored)
            = mkCoord (position_x data) (position_y data)
            /\ _isDead (store crossing_explored) = dead data
            /\ _isWin (store crossing_explored) = win data.
Proof.
  split; [vm_compute; reflexivity|].
  apply (explore_ends_with_a_move_to_start 4%nat (started crossing None)
           (Returned tt) crossing_explored).
  vm_compute; reflexivity.
Defined.


Lemma buildGrid_fills_the_bounding_box_witness :
  buildGrid corridor = Some corridor_grid
  /\ exists grid minX minY height width,
       buildGrid corridor = Some grid
       /\ grid_shape grid height width
       /\ (forall c, c ∈ corridor ->
             minX <= cell_x c < minX + Z.of_nat width
             /\ minY <= cell_y c < minY + Z.of_nat height)
       /\ (exists c, c ∈ corridor /\ cell_x c = minX)
       /\ (exists c, c ∈ corridor /\ cell_x c = minX + Z.of_nat width - 1)
       /\ (exists c, c ∈ corridor /\ cell_y c = minY)
       /\ (exists c, c ∈ corridor /\ cell_y c = minY + Z.of_nat height - 1)
       /\ forall row col,
            (row < height)%nat -> (col < width)%nat ->
            grid_at grid row col
            = Some (last (cells_at (minX + Z.of_nat col) (minY + Z.of_nat row)
                            corridor)).
Proof.
  split; [vm_compute; reflexivity|].
  apply (buildGrid_fills_the_bounding_box corridor). discriminate.
Defined.

Lemma map_stays_keyed_witness :
  App_startGame (start_response corridor) 2
    (initial_world (mkState corridor (mkCoord 0 0) None))
  = Some (Returned tt, corridor_session)
  /\ keyed (_map (store corridor_session)).
Proof.
  split; [vm_compute; reflexivity|].
  apply (map_stays_keyed
           (initial_world (mkState corridor (mkCoord 0 0) None)) (Returned tt)
           corridor_session).
  left. exists (start_response corridor), 2%nat. vm_compute; reflexivity.
Defined.

Lemma grid_shows_the_map_witness :
  exists grid,
    buildGrid (map_to_list (merge_cells ∅ corridor)).*2 = Some grid
    /\ (forall k c, merge_cells ∅ corridor !! k = Some c ->
          exists row col, grid_at grid row col = Some (Some c))
    /\ (forall row col c,
          grid_at grid row col = Some (Some c) ->
          merge_cells ∅ corridor !! cellKey c = Some c)
    /\ (forall row col row' col' c,
          grid_at grid row col = Some (Some c) ->
          grid_at grid row' col' = Some (Some c) ->
          row = row' /\ col = col').
Proof.
  apply (grid_shows_the_map (merge_cells ∅ corridor)
           (map_to_list (merge_cells ∅ corridor)).*2).
  - apply keyed_merge_cells, keyed_empty.
  - unfold getCells_of. reflexivity.
Defined.

Lemma trackByCell_keys_differ_witness :
  buildGrid corridor = Some corridor_grid /\ 1%nat = 1%nat.
Proof.
  split; [vm_compute; reflexivity|].
  apply (trackByCell_keys_differ corridor corridor_grid 0%nat
           [Some (path_cell 0 0); Some (path_cell 1 0); Some (stop_cell 2 0)]
           1%nat 1%nat (Some (path_cell 1 0)) (Some (path_cell 1 0)));
    vm_compute; reflexivity.
Defined.
